(** * AudioProcess: the synchronisation and analysis core of music_visualizer

    A shallow embedding of [src/AudioProcess.h] and the properties of its
    index arithmetic, reader advance, cross-correlation synchroniser, peak
    estimator, harmonic fold, frame pacer and constructor.

    Conventions of the embedding.
    - A C++ [int] is a [Z]; every [int] addition, subtraction and negation of
      the source goes through [wrap_int], the two's-complement result on 32
      bits.  Signed overflow is undefined in C++; the theorems that depend on
      the absence of overflow say so through range hypotheses.
    - [/] and [%] on [int] are [Z.quot] and [Z.rem] (truncation towards zero).
    - A C++ [float] is an IEEE-754 binary32 number, modelled by the Standard
      Library's [spec_float] at precision 24 and maximal exponent 128, every
      operation rounded to nearest-even once (no fused multiply-add, no excess
      precision).
    - A [float*] or [complex<float>*] array is a list, read and written by
      index.
    - The [while] loop of [advance_index] takes fuel; [OutOfFuel] stands for
      "has not returned yet".
    - What the source takes from outside the repository (the audio stream, the
      clock, ffts, libm and [std::abs] on complex numbers) is an argument of
      the model. *)

From Stdlib Require Import ZArith List Bool Lia.
From Stdlib Require Import Floats.SpecFloat Floats.FloatClass.
Import ListNotations.

Local Open Scope Z_scope.

(** ** Machine integers *)

Definition INT_MIN : Z := - 2 ^ 31.
Definition INT_MAX : Z := 2 ^ 31 - 1.

Definition is_int (z : Z) : Prop := INT_MIN <= z <= INT_MAX.

Definition wrap_int (z : Z) : Z := (z + 2 ^ 31) mod 2 ^ 32 - 2 ^ 31.

Definition int_add (a b : Z) : Z := wrap_int (a + b).
Definition int_sub (a b : Z) : Z := wrap_int (a - b).
Definition int_neg (a : Z) : Z := wrap_int (- a).
Definition int_mul (a b : Z) : Z := wrap_int (a * b).

Declare Scope int_scope.
Delimit Scope int_scope with int.
Infix "+" := int_add : int_scope.
Infix "-" := int_sub : int_scope.
Infix "*" := int_mul : int_scope.
Notation "- x" := (int_neg x) : int_scope.

(** ** Loops and arrays *)

(** [for (int i = start; i < start + n; ++i) s = body(i, s);] *)
Fixpoint for_range {S : Type} (start : Z) (n : nat) (body : Z -> S -> S) (s : S) : S :=
  match n with
  | O => s
  | Datatypes.S n' => for_range (start + 1) n' body (body start s)
  end.

(** [for (int i = 0; i < n; ++i) s = body(i, s);] *)
Definition for_to {S : Type} (n : Z) (body : Z -> S -> S) (s : S) : S :=
  for_range 0 (Z.to_nat n) body s.

(** [a[i]]; the default stands for a read outside the array, which the source
    never performs. *)
Definition array_get {A : Type} (d : A) (a : list A) (i : Z) : A :=
  nth (Z.to_nat i) a d.

(** [a[i] = v]; a write outside the array, which the source never performs,
    leaves the list as it is. *)
Fixpoint list_set {A : Type} (a : list A) (n : nat) (v : A) : list A :=
  match a, n with
  | [], _ => []
  | _ :: t, O => v :: t
  | h :: t, Datatypes.S n' => h :: list_set t n' v
  end.

Definition array_set {A : Type} (a : list A) (i : Z) (v : A) : list A :=
  if i <? 0 then a else list_set a (Z.to_nat i) v.

(** ** Single-precision floats *)

Module F32.

Definition prec : Z := 24.
Definition emax : Z := 128.

Definition t : Type := spec_float.

Definition add : t -> t -> t := SFadd prec emax.
Definition sub : t -> t -> t := SFsub prec emax.
Definition mul : t -> t -> t := SFmul prec emax.
Definition div : t -> t -> t := SFdiv prec emax.
Definition sqrt : t -> t := SFsqrt prec emax.
Definition abs : t -> t := SFabs.
Definition neg : t -> t := SFopp.

(** [x < y] and [x > y]; both are false when an operand is NaN. *)
Definition lt (x y : t) : bool := SFltb x y.
Definition gt (x y : t) : bool := SFltb y x.
Definition le (x y : t) : bool := SFleb x y.
Definition ge (x y : t) : bool := SFleb y x.

Definition is_nan (x : t) : bool :=
  match x with S754_nan => true | _ => false end.

(** [std::isnormal] *)
Definition isnormal (x : t) : bool :=
  match SFclassify prec x with
  | PNormal | NNormal => true
  | _ => false
  end.

(** [float(i)] for an [int] [i] *)
Definition of_int (i : Z) : t := binary_normalize prec emax i 0 false.

(** The literal [n / d] written in decimal, for exactly representable [n]
    and [d]: the float nearest to the quotient. *)
Definition of_ratio (n d : Z) : t := div (of_int n) (of_int d).

(** The integer part of a finite [x] (truncation towards zero); [None] for
    a NaN or an infinity. *)
Definition trunc (x : t) : option Z :=
  match x with
  | S754_zero _ => Some 0
  | S754_finite s m e =>
      let mag := Z.shiftl (Zpos m) e in
      Some (if s then Z.opp mag else mag)
  | _ => None
  end.

(** [int(x)]: truncation towards zero.  The conversion of a NaN, of an
    infinity or of a value outside [int] is undefined in C++; the model
    returns [INT_MIN], as the conversion instruction of x86 does. *)
Definition to_int (x : t) : Z :=
  match trunc x with
  | Some v => if (INT_MIN <=? v) && (v <=? INT_MAX) then v else INT_MIN
  | None => INT_MIN
  end.

(** [long(x)], with the same convention on 64 bits. *)
Definition to_long (x : t) : Z :=
  match trunc x with
  | Some v => if (- 2 ^ 63 <=? v) && (v <? 2 ^ 63) then v else - 2 ^ 63
  | None => - 2 ^ 63
  end.

(** [std::max(a, b)], that is [(a < b) ? b : a] *)
Definition max (a b : t) : t := if lt a b then b else a.

Definition zero : t := S754_zero false.
Definition nan : t := S754_nan.
Definition infinity : t := S754_infinity false.
Definition neg_infinity : t := S754_infinity true.

Definition half : t := Eval vm_compute in of_ratio 1 2.
Definition one : t := Eval vm_compute in of_int 1.
Definition two : t := Eval vm_compute in of_int 2.
Definition ten : t := Eval vm_compute in of_int 10.
Definition sixty : t := Eval vm_compute in of_int 60.
Definition eighty : t := Eval vm_compute in of_int 80.

End F32.

Definition f32 : Type := F32.t.

Declare Scope f32_scope.
Delimit Scope f32_scope with f32.
Infix "+" := F32.add : f32_scope.
Infix "-" := F32.sub : f32_scope.
Infix "*" := F32.mul : f32_scope.
Infix "/" := F32.div : f32_scope.
Infix "<?" := F32.lt : f32_scope.
Infix ">?" := F32.gt : f32_scope.

(** [complex<float>] *)
Definition complex32 : Type := (f32 * f32)%type.

Definition czero : complex32 := (F32.zero, F32.zero).

(** ** Constants of AudioProcess.h *)

Definition VISUALIZER_BUFSIZE : Z := 1024.
(** sample rate of the audio stream *)
Definition SR : Z := 48000.
(** sample rate of audio given to FFT *)
Definition SRF : Z := Z.quot SR 2.
(** length of the system audio capture buffer (in frames) *)
Definition ABL : Z := 512.
(** number of system audio capture buffers to keep *)
Definition ABN : Z := 16.
(** total audio buffer length *)
Definition TBL : Z := (ABL * ABN)%int.
Definition FFTLEN : Z := Z.quot TBL 2.
(** number of frames of audio this module outputs *)
Definition VL : Z := VISUALIZER_BUFSIZE.

Definition HISTORY_NUM_FRAMES : Z := 7.
Definition HISTORY_SEARCH_RANGE : Z := 350.
Definition HISTORY_SEARCH_GRANULARITY : Z := 3.
Definition HISTORY_BUFF_SZ : Z := VL.

(** ** Index arithmetic *)

Definition move_index (p delta tbl : Z) : Z :=
  let p := (p + delta)%int in
  if p >=? tbl then (p - tbl)%int
  else if p <? 0 then (p + tbl)%int
  else p.

Definition dist_forward (from to tbl : Z) : Z :=
  let d := (to - from)%int in
  if d <? 0 then (d + tbl)%int else d.

Definition dist_backward (from to tbl : Z) : Z :=
  dist_forward to from tbl.

Definition mix (x y m : f32) : f32 :=
  ((F32.one - m) * x + m * y)%f32.

(** ** Reader advance *)

(** [int(SR / freq + .5f)] *)
Definition wave_length (freq : f32) : Z :=
  F32.to_int (F32.of_int SR / freq + F32.half)%f32.

(** The loop [while (dist_forward(r, w, tbl) < VL) r = move_index(r, wave_len, tbl);]
    run for at most [fuel] tests of its condition. *)
Fixpoint skip_discontinuity (fuel : nat) (w r wave_len tbl : Z) : option Z :=
  match fuel with
  | O => None
  | Datatypes.S fuel' =>
      if dist_forward r w tbl <? VL
      then skip_discontinuity fuel' w (move_index r wave_len tbl) wave_len tbl
      else Some r
  end.

Definition advance_index (fuel : nat) (w r : Z) (freq : f32) (tbl : Z) : option Z :=
  let wave_len := wave_length freq in
  let r := move_index r wave_len tbl in
  skip_discontinuity fuel w r wave_len tbl.


(** ** Cross-correlation synchroniser *)

Definition reverse_dot_prod (a_circular b_buff : list f32)
    (a_offset a_sz b_sz : Z) (a_scale : f32) : f32 :=
  for_to b_sz
    (fun i md =>
       let xi_1 := array_get F32.zero a_circular (Z.rem (i + a_offset)%int a_sz) in
       let xi_2 := array_get F32.zero b_buff (b_sz - i - 1)%int in
       (md + xi_1 / a_scale * xi_2)%f32)
    F32.zero.

(** The score of the candidate position [r]: the inner loop over the history
    frames of [cross_correlation_sync]. *)
Definition history_score (prev_buff : list (list f32)) (frame_id : Z)
    (buff : list f32) (channel_max : f32) (r : Z) : f32 :=
  for_to HISTORY_NUM_FRAMES
    (fun b md =>
       let cur_buf := Z.rem (frame_id + b)%int HISTORY_NUM_FRAMES in
       (md + reverse_dot_prod buff (array_get [] prev_buff cur_buf) r TBL
               HISTORY_BUFF_SZ channel_max)%f32)
    F32.zero.

(** The variables of the candidate loop: the position under test, the best
    position so far and its score. *)
Record xcorr_vars : Type := {
  xc_r : Z;
  xc_max_r : Z;
  xc_max_md : f32
}.

Definition xcorr_body (prev_buff : list (list f32)) (frame_id : Z)
    (buff : list f32) (channel_max : f32) (i : Z) (v : xcorr_vars) : xcorr_vars :=
  let md := history_score prev_buff frame_id buff channel_max (xc_r v) in
  let hit := (md >? xc_max_md v)%f32 in
  {| xc_r := move_index (xc_r v) HISTORY_SEARCH_GRANULARITY TBL;
     xc_max_r := if hit then xc_r v else xc_max_r v;
     xc_max_md := if hit then md else xc_max_md v |}.

(** [w] is a parameter of the source function that its body never reads. *)
Definition cross_correlation_sync (w r dist : Z) (prev_buff : list (list f32))
    (frame_id : Z) (buff : list f32) (channel_max : f32) : Z :=
  let r := move_index r (Z.quot (- dist)%int 2) TBL in
  xc_max_r
    (for_to (Z.quot dist HISTORY_SEARCH_GRANULARITY)
       (xcorr_body prev_buff frame_id buff channel_max)
       {| xc_r := r; xc_max_r := r; xc_max_md := F32.neg_infinity |}).

(** ** What the core takes from libm, libstdc++ and ffts *)

Record Externals : Type := {
  cosf : f32 -> f32;
  log2f : f32 -> f32;
  powf : f32 -> f32 -> f32;
  floorf : f32 -> f32;
  (** [std::abs] on [complex<float>] *)
  cabsf : complex32 -> f32;
  (** [ffts_execute] on a real input of [FFTLEN] samples: [FFTLEN / 2 + 1]
      bins *)
  ffts_execute : list f32 -> list complex32
}.

(** ** Spectral peak and harmonic fold *)

Definition f_0_001 : f32 := Eval vm_compute in F32.of_ratio 1 1000.
Definition f_0_0001 : f32 := Eval vm_compute in F32.of_ratio 1 10000.
Definition f_0_66 : f32 := Eval vm_compute in F32.of_ratio 66 100.
Definition f_3_141592 : f32 := Eval vm_compute in F32.of_ratio 3141592 1000000.

Definition max_bin (E : Externals) (f : list complex32) : Z :=
  snd (for_range 1 99
         (fun i '(max, max_i) =>
            let mmag := cabsf E (array_get czero f i) in
            if (mmag >? max)%f32 then (mmag, i) else (max, max_i))
         (F32.zero, 0)).

(** The value that [max_frequency] clamps: the interpolated bin in Hz. *)
Definition interpolated_peak (E : Externals) (f : list complex32) : f32 :=
  let k := max_bin E f in
  let k := if k =? 0 then 1 else k in
  let a := cabsf E (array_get czero f (k - 1)%int) in
  let b := cabsf E (array_get czero f k) in
  let g := cabsf E (array_get czero f (k + 1)%int) in
  let d := (F32.half * (a - g) / (a - F32.of_int 2 * b + g + f_0_001))%f32 in
  let kp := (F32.of_int k + d)%f32 in
  (kp * F32.of_int SRF / F32.of_int FFTLEN)%f32.

Definition max_frequency (E : Externals) (f : list complex32) : f32 :=
  F32.max (interpolated_peak E f) F32.ten.

Definition get_harmonic_less_than (E : Externals) (freq thres : f32) : f32 :=
  let a := log2f E freq in
  let b := log2f E thres in
  let freq := (freq * powf E F32.two (floorf E (b - a)))%f32 in
  if negb (F32.isnormal freq) then F32.sixty else freq.

(** ** The state of the core *)

Module Sink.
(** [struct AudioData], without its mutex. *)
Record AudioData : Type := {
  audio_l : list f32;
  audio_r : list f32;
  freq_l : list f32;
  freq_r : list f32
}.
End Sink.

(** [AudioOptions] of ShaderConfig.h, as far as the core reads it. *)
Record AudioOptions : Type := {
  opt_xcorr_sync : bool;
  opt_fft_sync : bool;
  opt_wave_smooth : f32
}.

(** The audio stream, as the constructor sees it. *)
Record AudioStream : Type := {
  get_sample_rate : Z;
  get_max_buff_size : Z
}.

(** Clock readings and durations are counts of nanoseconds: the declarations
    of [_60fpsDura] and [next_time] convert between [ClockT::duration] and
    [std::chrono::nanoseconds] in both directions. *)
Definition milliseconds (n : Z) : Z := n * 1000000.

(** [duration_cast] from float seconds to integer nanoseconds multiplies by
    the float [1e9] and truncates. *)
Definition dura (x : f32) : Z :=
  F32.to_long (x * F32.of_int 1000000000)%f32.

Record AudioProcess : Type := {
  wave_smoother : f32;
  fft_sync : bool;
  xcorr_sync : bool;
  now_time : Z;
  _60fpsDura : Z;
  next_time : Z;
  frame_id : Z;
  prev_buff_l : list (list f32);
  prev_buff_r : list (list f32);
  audio_buff_l : list f32;
  audio_buff_r : list f32;
  fft_out_l : list complex32;
  fft_in_l : list f32;
  fft_out_r : list complex32;
  fft_in_r : list f32;
  fft_window : list f32;
  writer : Z;
  reader_l : Z;
  reader_r : Z;
  freq_l : f32;
  freq_r : f32;
  channel_max_l : f32;
  channel_max_r : f32;
  audio_sink : Sink.AudioData
}.

(** ** Outcomes *)

Inductive outcome (A : Type) : Type :=
| Returned (a : A)
| Exited (code : Z)
| OutOfFuel.

Arguments Returned {A} a.
Arguments Exited {A} code.
Arguments OutOfFuel {A}.

Definition bind {A B : Type} (m : outcome A) (k : A -> outcome B) : outcome B :=
  match m with
  | Returned a => k a
  | Exited c => Exited c
  | OutOfFuel => OutOfFuel
  end.

Definition of_loop {A : Type} (o : option A) : outcome A :=
  match o with
  | Some a => Returned a
  | None => OutOfFuel
  end.

Notation "x <- m ;; k" := (bind m (fun x => k))
  (at level 61, m at next level, right associativity).

(** ** Construction *)

Definition zeros {A : Type} (z : A) (n : Z) : list A := repeat z (Z.to_nat n).

(** [fft_window[i] = (1.f - cosf(2.f * 3.141592f * i / float(N))) / 2.f] *)
Definition hann (E : Externals) (N i : Z) : f32 :=
  ((F32.one - cosf E (F32.two * f_3_141592 * F32.of_int i / F32.of_int N))
   / F32.two)%f32.

(** The state that the member initialisers and the body of the constructor
    set up once the stream has passed the two checks.  Time points start at
    the epoch of the clock.  The memory that [Aligned_Alloc] returns is not
    initialised; the model fills it with zeros. *)
Definition initial_state (E : Externals) (audio_options : AudioOptions)
    : AudioProcess :=
  let N := FFTLEN in
  let p := dura (F32.one / F32.sixty)%f32 in
  {| wave_smoother := opt_wave_smooth audio_options;
     fft_sync := opt_fft_sync audio_options;
     xcorr_sync := opt_xcorr_sync audio_options;
     now_time := 0;
     _60fpsDura := p;
     next_time := 0 + p;
     frame_id := 0;
     prev_buff_l := repeat (zeros F32.zero HISTORY_BUFF_SZ) (Z.to_nat HISTORY_NUM_FRAMES);
     prev_buff_r := repeat (zeros F32.zero HISTORY_BUFF_SZ) (Z.to_nat HISTORY_NUM_FRAMES);
     audio_buff_l := zeros F32.zero TBL;
     audio_buff_r := zeros F32.zero TBL;
     fft_out_l := zeros czero (Z.quot N 2 + 1)%int;
     fft_in_l := zeros F32.zero N;
     fft_out_r := zeros czero (Z.quot N 2 + 1)%int;
     fft_in_r := zeros F32.zero N;
     fft_window := for_to N (fun i win => array_set win i (hann E N i)) (zeros F32.zero N);
     writer := 0;
     reader_l := 0;
     reader_r := 0;
     freq_l := F32.sixty;
     freq_r := F32.sixty;
     channel_max_l := F32.one;
     channel_max_r := F32.one;
     audio_sink :=
       {| Sink.audio_l := zeros F32.zero VL;
          Sink.audio_r := zeros F32.zero VL;
          Sink.freq_l := zeros F32.zero VL;
          Sink.freq_r := zeros F32.zero VL |} |}.

(** The constructor.  [exit(1)] is [Exited 1]. *)
Definition AudioProcess_new (E : Externals) (audio_stream : AudioStream)
    (audio_options : AudioOptions) : outcome AudioProcess :=
  if negb (get_sample_rate audio_stream =? 48000) then Exited 1
  else if get_max_buff_size audio_stream <? ABL then Exited 1
  else Returned (initial_state E audio_options).

(** ** One call of [step] *)

(** [get_next_pcm(buff + writer, ..., ABL)]: the stream stores [ABL] samples
    from [buff + writer] on. *)
Definition store_chunk (buff : list f32) (writer : Z) (pcm : list f32) : list f32 :=
  for_to ABL
    (fun i b => array_set b (writer + i)%int (array_get F32.zero pcm i))
    buff.

(** Downsample and window the audio, one channel. *)
Definition downsample (audio_buff : list f32) (writer : Z) (channel_max : f32)
    (window fft_in : list f32) : list f32 :=
  for_to FFTLEN
    (fun i fft_in =>
       array_set fft_in i
         (array_get F32.zero audio_buff (Z.rem (i * 2 + writer)%int TBL)
          / channel_max * array_get F32.zero window i)%f32)
    fft_in.

(** The variables of the emission loop, one channel: the running peak, the
    waveform array and the spectrum array of the sink. *)
Record emit_vars : Type := {
  ev_max_amplitude : f32;
  ev_audio : list f32;
  ev_freq : list f32
}.

Definition emit_body (E : Externals) (audio_buff : list f32) (reader : Z)
    (channel_max wave_smoother : f32) (fft_out : list complex32)
    (i : Z) (v : emit_vars) : emit_vars :=
  let sample := array_get F32.zero audio_buff (Z.rem (i + reader)%int TBL) in
  let max_amplitude :=
    if (F32.abs sample >? ev_max_amplitude v)%f32 then F32.abs sample
    else ev_max_amplitude v in
  let sample := (f_0_66 * sample / (channel_max + f_0_0001))%f32 in
  {| ev_max_amplitude := max_amplitude;
     ev_audio :=
       array_set (ev_audio v) i
         (mix (array_get F32.zero (ev_audio v) i) sample wave_smoother);
     ev_freq :=
       array_set (ev_freq v) i
         (cabsf E (array_get czero fft_out i)
          / F32.sqrt (F32.of_int FFTLEN))%f32 |}.

Definition emit (E : Externals) (audio_buff : list f32) (reader : Z)
    (channel_max wave_smoother : f32) (fft_out : list complex32)
    (audio freq : list f32) : emit_vars :=
  for_to VL
    (emit_body E audio_buff reader channel_max wave_smoother fft_out)
    {| ev_max_amplitude := F32.neg_infinity; ev_audio := audio; ev_freq := freq |}.

(** Copy the waveform just emitted into the history slot of this frame. *)
Definition remember (prev_buff : list (list f32)) (frame_id : Z)
    (audio : list f32) : list (list f32) :=
  let slot := Z.rem frame_id HISTORY_NUM_FRAMES in
  array_set prev_buff slot
    (for_to VL
       (fun i row => array_set row i (array_get F32.zero audio i))
       (array_get [] prev_buff slot)).

(** The pacer's target after the backlog test. *)
Definition snap (now_time next_time : Z) : Z :=
  if now_time - next_time >? milliseconds 60
  then now_time - milliseconds 1
  else next_time.

(** [step()]: [pcm_l] and [pcm_r] are what [get_next_pcm] delivers in this
    call and [now] is what [ClockT::now()] reads. *)
Definition step (E : Externals) (fuel : nat) (pcm_l pcm_r : list f32) (now : Z)
    (s : AudioProcess) : outcome AudioProcess :=
  let audio_buff_l' := store_chunk (audio_buff_l s) (writer s) pcm_l in
  let audio_buff_r' := store_chunk (audio_buff_r s) (writer s) pcm_r in
  let writer' := move_index (writer s) ABL TBL in
  let now_time' := now in
  let next_time' := snap now_time' (next_time s) in
  if now_time' >? next_time' then
    (* Get next read location in audio buffer *)
    r_l <- of_loop (advance_index fuel writer' (reader_l s) (freq_l s) TBL) ;;
    r_r <- of_loop (advance_index fuel writer' (reader_r s) (freq_r s) TBL) ;;
    let reader_l' :=
      if xcorr_sync s
      then cross_correlation_sync writer' r_l HISTORY_SEARCH_RANGE
             (prev_buff_l s) (frame_id s) audio_buff_l' (channel_max_l s)
      else r_l in
    let reader_r' :=
      if xcorr_sync s
      then cross_correlation_sync writer' r_r HISTORY_SEARCH_RANGE
             (prev_buff_r s) (frame_id s) audio_buff_r' (channel_max_r s)
      else r_r in
    let fft_in_l' :=
      downsample audio_buff_l' writer' (channel_max_l s) (fft_window s) (fft_in_l s) in
    let fft_in_r' :=
      downsample audio_buff_r' writer' (channel_max_r s) (fft_window s) (fft_in_r s) in
    let fft_out_l' := array_set (ffts_execute E fft_in_l') 0 czero in
    let fft_out_r' := array_set (ffts_execute E fft_in_r') 0 czero in
    let e_l :=
      emit E audio_buff_l' reader_l' (channel_max_l s) (wave_smoother s) fft_out_l'
        (Sink.audio_l (audio_sink s)) (Sink.freq_l (audio_sink s)) in
    let e_r :=
      emit E audio_buff_r' reader_r' (channel_max_r s) (wave_smoother s) fft_out_r'
        (Sink.audio_r (audio_sink s)) (Sink.freq_r (audio_sink s)) in
    Returned
      {| wave_smoother := wave_smoother s;
         fft_sync := fft_sync s;
         xcorr_sync := xcorr_sync s;
         now_time := now_time';
         _60fpsDura := _60fpsDura s;
         next_time := next_time' + _60fpsDura s;
         frame_id := (frame_id s + 1)%int;
         prev_buff_l :=
           if xcorr_sync s then remember (prev_buff_l s) (frame_id s) (ev_audio e_l)
           else prev_buff_l s;
         prev_buff_r :=
           if xcorr_sync s then remember (prev_buff_r s) (frame_id s) (ev_audio e_r)
           else prev_buff_r s;
         audio_buff_l := audio_buff_l';
         audio_buff_r := audio_buff_r';
         fft_out_l := fft_out_l';
         fft_in_l := fft_in_l';
         fft_out_r := fft_out_r';
         fft_in_r := fft_in_r';
         fft_window := fft_window s;
         writer := writer';
         reader_l := reader_l';
         reader_r := reader_r';
         freq_l :=
           if fft_sync s
           then get_harmonic_less_than E (max_frequency E fft_out_l') F32.eighty
           else F32.sixty;
         freq_r :=
           if fft_sync s
           then get_harmonic_less_than E (max_frequency E fft_out_r') F32.eighty
           else F32.sixty;
         (* Rescale with a delay *)
         channel_max_l := mix (channel_max_l s) (ev_max_amplitude e_l) F32.half;
         channel_max_r := mix (channel_max_r s) (ev_max_amplitude e_r) F32.half;
         audio_sink :=
           {| Sink.audio_l := ev_audio e_l;
              Sink.audio_r := ev_audio e_r;
              Sink.freq_l := ev_freq e_l;
              Sink.freq_r := ev_freq e_r |} |}
  else
    Returned
      {| wave_smoother := wave_smoother s;
         fft_sync := fft_sync s;
         xcorr_sync := xcorr_sync s;
         now_time := now_time';
         _60fpsDura := _60fpsDura s;
         next_time := next_time';
         frame_id := frame_id s;
         prev_buff_l := prev_buff_l s;
         prev_buff_r := prev_buff_r s;
         audio_buff_l := audio_buff_l';
         audio_buff_r := audio_buff_r';
         fft_out_l := fft_out_l s;
         fft_in_l := fft_in_l s;
         fft_out_r := fft_out_r s;
         fft_in_r := fft_in_r s;
         fft_window := fft_window s;
         writer := writer';
         reader_l := reader_l s;
         reader_r := reader_r s;
         freq_l := freq_l s;
         freq_r := freq_r s;
         channel_max_l := channel_max_l s;
         channel_max_r := channel_max_r s;
         audio_sink := audio_sink s |}.

(** Whether [step] runs a processing cycle at the reading [now]. *)
Definition cycle_runs (now : Z) (s : AudioProcess) : bool :=
  now >? snap now (next_time s).

(** Successive calls of [step], one per element of [inputs]. *)
Fixpoint steps (E : Externals) (fuel : nat)
    (inputs : list (list f32 * list f32 * Z)) (s : AudioProcess)
    : outcome AudioProcess :=
  match inputs with
  | [] => Returned s
  | (pcm_l, pcm_r, now) :: rest =>
      s' <- step E fuel pcm_l pcm_r now s ;;
      steps E fuel rest s'
  end.

(** ** Concrete inputs *)

(** The magnitude of a complex number by the textbook formula.  On a real
    number [x + 0i] whose square neither overflows nor underflows it is
    [|x|], as [std::abs] is. *)
Definition cabs_sqrt (z : complex32) : f32 :=
  F32.sqrt (fst z * fst z + snd z * snd z)%f32.

(** Externals for runs that do not depend on libm or on the transform: the
    magnitude is [cabs_sqrt], the transform returns zero bins and the libm
    functions answer NaN. *)
Definition stub_externals : Externals :=
  {| cosf := fun _ => F32.nan;
     log2f := fun _ => F32.nan;
     powf := fun _ _ => F32.nan;
     floorf := fun _ => F32.nan;
     cabsf := cabs_sqrt;
     ffts_execute := fun _ => zeros czero (Z.quot FFTLEN 2 + 1) |}.

(** [0.0005f], half of the [0.001f] of the interpolation formula. *)
Definition f_0_0005 : f32 := Eval vm_compute in F32.of_ratio 1 2000.

(** A spectrum whose only energy is [0.0005] in bin 1. *)
Definition bins_lone_peak : list complex32 :=
  czero :: (f_0_0005, F32.zero) :: zeros czero 2047.

(** A spectrum with magnitude 1 in bin 0 and 0.5 in bin 1. *)
Definition bins_dc_dominant : list complex32 :=
  (F32.one, F32.zero) :: (F32.half, F32.zero) :: zeros czero 2047.

(** A stream that meets the contract of the constructor, and one that does
    not. *)
Definition stream_48k : AudioStream :=
  {| get_sample_rate := 48000; get_max_buff_size := 512 |}.
Definition stream_44k : AudioStream :=
  {| get_sample_rate := 44100; get_max_buff_size := 512 |}.

(** ** Vocabulary of the statements *)

(** The magnitude of bin [i]. *)
Definition magnitude (E : Externals) (f : list complex32) (i : Z) : f32 :=
  cabsf E (array_get czero f i).

(** A locked frequency whose wavelength is a step inside the buffer. *)
Definition frequency_ok (freq : f32) : Prop :=
  1 <= wave_length freq < TBL.

(** What libm and the transform must provide for the harmonic lock to hand
    [advance_index] a usable frequency. *)
Definition lock_ok (E : Externals) : Prop :=
  forall bins,
    frequency_ok (get_harmonic_less_than E (max_frequency E bins) F32.eighty).

(** The states on which a cycle is defined: the cursors are positions of the
    buffer and the locked frequencies are usable, now and after the next
    analysis. *)
Definition well_formed (E : Externals) (s : AudioProcess) : Prop :=
  0 <= writer s < TBL
  /\ 0 <= reader_l s < TBL
  /\ 0 <= reader_r s < TBL
  /\ frequency_ok (freq_l s)
  /\ frequency_ok (freq_r s)
  /\ (fft_sync s = true -> lock_ok E).

(** The inputs of successive calls when the clock reads [now] at the first
    call and moves forward by [period] from one call to the next. *)
Fixpoint paced_inputs (pcms : list (list f32 * list f32)) (now period : Z)
    : list (list f32 * list f32 * Z) :=
  match pcms with
  | [] => []
  | (pcm_l, pcm_r) :: rest =>
      (pcm_l, pcm_r, now) :: paced_inputs rest (now + period) period
  end.

(** Free-running options: no harmonic lock, no cross-correlation. *)
Definition options_plain : AudioOptions :=
  {| opt_xcorr_sync := false; opt_fft_sync := false; opt_wave_smooth := F32.half |}.

(** Cross-correlation without harmonic lock. *)
Definition options_xcorr (wave_smooth : f32) : AudioOptions :=
  {| opt_xcorr_sync := true; opt_fft_sync := false; opt_wave_smooth := wave_smooth |}.

(** ** A run on a silent stream *)

(** A chunk of silence. *)
Definition silence : list f32 := zeros F32.zero ABL.

(** A buffer that holds only [+0]. *)
Definition silent (buff : list f32) : Prop :=
  Forall (fun x => x = F32.zero) buff.

(** The time that 512 samples take at 48 kHz, in nanoseconds: the clock
    reading moves by this much from one call of [step] to the next when the
    stream delivers in real time. *)
Definition chunk_time : Z := 10666667.

(** The inputs of the first [n] calls on a silent stream delivered in real
    time, the clock reading [chunk_time] at the first call. *)
Definition silent_inputs (n : nat) : list (list f32 * list f32 * Z) :=
  paced_inputs (repeat (silence, silence) n) chunk_time chunk_time.

(** The cursors and the pacer of the core. *)
Record cursors : Type := {
  cur_writer : Z;
  cur_reader_l : Z;
  cur_reader_r : Z;
  cur_next_time : Z;
  cur_frame_id : Z
}.

Definition cursors_of (s : AudioProcess) : cursors :=
  {| cur_writer := writer s;
     cur_reader_l := reader_l s;
     cur_reader_r := reader_r s;
     cur_next_time := next_time s;
     cur_frame_id := frame_id s |}.

(** What one call of [step] does to the cursors when the buffers are silent,
    the frequencies are the default pitch and cross-correlation is enabled
    (see [step_on_silence]): on silence every candidate of the synchroniser
    has the same score, so it returns the first one. *)
Definition silent_step (fuel : nat) (period now : Z) (c : cursors) : option cursors :=
  let writer' := move_index (cur_writer c) ABL TBL in
  let next_time' := snap now (cur_next_time c) in
  if now >? next_time' then
    match advance_index fuel writer' (cur_reader_l c) F32.sixty TBL,
          advance_index fuel writer' (cur_reader_r c) F32.sixty TBL with
    | Some r_l, Some r_r =>
        Some {| cur_writer := writer';
                cur_reader_l := move_index r_l (Z.quot (- HISTORY_SEARCH_RANGE)%int 2) TBL;
                cur_reader_r := move_index r_r (Z.quot (- HISTORY_SEARCH_RANGE)%int 2) TBL;
                cur_next_time := next_time' + period;
                cur_frame_id := (cur_frame_id c + 1)%int |}
    | _, _ => None
    end
  else
    Some {| cur_writer := writer';
            cur_reader_l := cur_reader_l c;
            cur_reader_r := cur_reader_r c;
            cur_next_time := next_time';
            cur_frame_id := cur_frame_id c |}.

Fixpoint silent_steps (fuel : nat) (period : Z) (nows : list Z) (c : cursors)
    : option cursors :=
  match nows with
  | [] => Some c
  | now :: rest =>
      match silent_step fuel period now c with
      | Some c' => silent_steps fuel period rest c'
      | None => None
      end
  end.

(** [o] is a return, and the returned value satisfies [P]. *)
Definition returned_with {A : Type} (P : A -> Prop) (o : outcome A) : Prop :=
  match o with
  | Returned a => P a
  | _ => False
  end.

(** The state in which a run on silence keeps the core: cross-correlation
    on, harmonic lock off, default pitch, silent capture buffers. *)
Definition silent_state (s : AudioProcess) : Prop :=
  xcorr_sync s = true
  /\ fft_sync s = false
  /\ freq_l s = F32.sixty
  /\ freq_r s = F32.sixty
  /\ silent (audio_buff_l s)
  /\ silent (audio_buff_r s).

(** ** Options *)

(** [set_audio_options]: the three options the core reads, nothing else. *)
Definition set_audio_options (ao : AudioOptions) (s : AudioProcess) : AudioProcess :=
  {| wave_smoother := opt_wave_smooth ao;
     fft_sync := opt_fft_sync ao;
     xcorr_sync := opt_xcorr_sync ao;
     now_time := now_time s;
     _60fpsDura := _60fpsDura s;
     next_time := next_time s;
     frame_id := frame_id s;
     prev_buff_l := prev_buff_l s;
     prev_buff_r := prev_buff_r s;
     audio_buff_l := audio_buff_l s;
     audio_buff_r := audio_buff_r s;
     fft_out_l := fft_out_l s;
     fft_in_l := fft_in_l s;
     fft_out_r := fft_out_r s;
     fft_in_r := fft_in_r s;
     fft_window := fft_window s;
     writer := writer s;
     reader_l := reader_l s;
     reader_r := reader_r s;
     freq_l := freq_l s;
     freq_r := freq_r s;
     channel_max_l := channel_max_l s;
     channel_max_r := channel_max_r s;
     audio_sink := audio_sink s |}.

(** The sample that the emission loop reads at position [i] of the window
    that starts at [reader]. *)
Definition window_sample (audio_buff : list f32) (reader i : Z) : f32 :=
  array_get F32.zero audio_buff (Z.rem (i + reader)%int TBL).

(** ** Binary32 data read as numbers *)

(** A binary32 datum: a finite number has its significand normalised and its
    exponent in range. *)
Definition valid32 (x : f32) : bool := valid_binary F32.prec F32.emax x.

(** A zero or a finite number. *)
Definition is_real (x : f32) : bool :=
  match x with
  | S754_zero _ | S754_finite _ _ _ => true
  | _ => false
  end.

(** [x * 2^149], an integer for every binary32 number [x], whose exponent
    is at least [-149]. *)
Definition scaled (x : f32) : Z :=
  match x with
  | S754_finite s m e => (if s then Z.neg m else Z.pos m) * 2 ^ (e + 149)
  | _ => 0
  end.

(** [lo <= x <= hi] for integers [lo] and [hi]. *)
Definition between (lo hi : Z) (x : f32) : Prop :=
  is_real x = true /\ lo * 2 ^ 149 <= scaled x <= hi * 2 ^ 149.

(** The exponent of the leading bit of a finite number:
    [2^ilogb x <= |x| < 2^(ilogb x + 1)]. *)
Definition ilogb (x : f32) : Z :=
  match x with
  | S754_finite _ m e => Z.pos (digits2_pos m) + e - 1
  | _ => 0
  end.

(** The integer that [x] is, if it is one. *)
Definition int_value (x : f32) : option Z :=
  match x with
  | S754_zero _ => Some 0
  | S754_finite s m e =>
      let v := if s then Z.neg m else Z.pos m in
      if 0 <=? e then Some (v * 2 ^ e)
      else if v mod 2 ^ (- e) =? 0 then Some (v / 2 ^ (- e)) else None
  | _ => None
  end.

(** The sticky bits of a right shift are clear. *)
Definition shr_exact (mrs : shr_record) : Prop :=
  shr_r mrs = false /\ shr_s mrs = false.

(** [std::floor] on binary32: the largest integer not above [x], with the
    sign of zero kept. *)
Definition floor32 (x : f32) : f32 :=
  match x with
  | S754_finite s m e =>
      if 0 <=? e then x
      else F32.of_int (Z.shiftr (if s then Z.neg m else Z.pos m) (- e))
  | _ => x
  end.

(** [2^k] as a normal binary32 number, for [-126 <= k <= 127]. *)
Definition pow2 (k : Z) : f32 := S754_finite false 8388608 (k - 23).

(** ** What the harmonic fold takes from libm *)

(** The properties of [log2f], [floor] and [pow] that the fold relies on:
    - [log2f x] of a positive number lies between the integers that enclose
      the logarithm, [ilogb x] and [ilogb x + 1];
    - [log2f] of a negative number is NaN;
    - [floor] is exact;
    - [pow(2, k)] is the power of two for an integer [k] with a normal
      result, and NaN for NaN. *)
Definition libm_ok (E : Externals) : Prop :=
  (forall m e,
      valid32 (S754_finite false m e) = true ->
      valid32 (log2f E (S754_finite false m e)) = true
      /\ between (ilogb (S754_finite false m e))
                 (ilogb (S754_finite false m e) + 1)
                 (log2f E (S754_finite false m e)))
  /\ (forall m e, log2f E (S754_finite true m e) = F32.nan)
  /\ (forall x, valid32 x = true -> floorf E x = floor32 x)
  /\ (forall x k,
        valid32 x = true -> int_value x = Some k -> -126 <= k <= 127 ->
        powf E F32.two x = pow2 k)
  /\ powf E F32.two F32.nan = F32.nan.

(** ** A reference libm for the harmonic fold *)

(** The first [n] fractional bits of [log2 (y / 2^64)], for
    [2^64 <= y < 2^65], by repeated squaring in fixed point. *)
Fixpoint log2_bits (n : nat) (y acc : Z) : Z :=
  match n with
  | O => acc
  | S n' =>
      let y2 := y * y / 2 ^ 64 in
      if 2 ^ 65 <=? y2 then log2_bits n' (y2 / 2) (2 * acc + 1)
      else log2_bits n' y2 (2 * acc)
  end.

(** [log2f]: the exponent of the leading bit plus 48 fractional bits of the
    logarithm of the significand, developed on 64 fractional bits, the sum
    rounded to binary32.  [log2f] of a zero is minus infinity, of a negative
    number NaN. *)
Definition log2_32 (x : f32) : f32 :=
  match x with
  | S754_zero _ => F32.neg_infinity
  | S754_infinity false => F32.infinity
  | S754_finite false m e =>
      let d := Z.pos (digits2_pos m) in
      let y := Z.pos m * 2 ^ (65 - d) in
      binary_normalize F32.prec F32.emax
        ((d + e - 1) * 2 ^ 48 + log2_bits 48 y 0) (-48) false
  | _ => F32.nan
  end.

(** [pow(2, x)] for an integer [x], the only case the fold uses; NaN stands
    for the powers that are not taken. *)
Definition exp2_32 (x : f32) : f32 :=
  match int_value x with
  | Some k =>
      if k <? -126 then binary_normalize F32.prec F32.emax 1 k false
      else if k <=? 127 then pow2 k
      else F32.infinity
  | None =>
      match x with
      | S754_infinity true => F32.zero
      | S754_infinity false => F32.infinity
      | _ => F32.nan
      end
  end.

(** [pow(b, x)], for the base 2 that the fold passes. *)
Definition pow_32 (b x : f32) : f32 :=
  match b with
  | S754_finite false m e =>
      if Pos.eqb m 8388608 && Z.eqb e (-22) then exp2_32 x else F32.nan
  | _ => F32.nan
  end.

(** Externals with the reference [log2f], [floor] and [pow]; the rest is
    that of [stub_externals]. *)
Definition reference_externals : Externals :=
  {| cosf := fun _ => F32.nan;
     log2f := log2_32;
     powf := pow_32;
     floorf := floor32;
     cabsf := cabs_sqrt;
     ffts_execute := fun _ => zeros czero (Z.quot FFTLEN 2 + 1) |}.



(** Harmonic lock without cross-correlation. *)
Definition options_lock : AudioOptions :=
  {| opt_xcorr_sync := false; opt_fft_sync := true; opt_wave_smooth := F32.half |}.

(** A locked frequency as the fold leaves it: a normal float with a
    wavelength of 187 to 1502 samples. *)
Definition in_band (freq : f32) : Prop :=
  F32.isnormal freq = true /\ 187 <= wave_length freq <= 1502.


(** * Properties *)

(** ** Machine integers and the constants *)

Lemma wrap_int_id (z : Z) : is_int z -> wrap_int z = z.
Proof.
  unfold is_int, wrap_int, INT_MIN, INT_MAX.
  change (2 ^ 31) with 2147483648; change (2 ^ 32) with 4294967296.
  intros H. rewrite Z.mod_small; lia.
Qed.

Lemma INT_MAX_val : INT_MAX = 2147483647.
Proof. reflexivity. Qed.

Lemma INT_MIN_val : INT_MIN = -2147483648.
Proof. reflexivity. Qed.

Lemma TBL_val : TBL = 8192.
Proof. reflexivity. Qed.

Lemma VL_val : VL = 1024.
Proof. reflexivity. Qed.

Lemma ABL_val : ABL = 512.
Proof. reflexivity. Qed.

(** Rewrites an [int] operation into the operation of [Z], leaving the range
    condition as a goal that [lia] closes. *)
Ltac int_exact :=
  unfold int_add, int_sub, int_neg, int_mul;
  repeat (rewrite wrap_int_id
            by (unfold is_int; rewrite INT_MIN_val, INT_MAX_val; lia)).

(** ** Index arithmetic *)

Lemma dist_forward_mod (a b c : Z) :
  0 < c <= INT_MAX -> 0 <= a < c -> 0 <= b < c ->
  dist_forward a b c = (b - a) mod c.
Proof.
  rewrite INT_MAX_val. intros Hc Ha Hb. unfold dist_forward. int_exact.
  destruct (Z.ltb_spec (b - a) 0) as [Hlt | Hge]; int_exact.
  - apply Z.mod_unique with (q := -1); lia.
  - symmetry. apply Z.mod_small. lia.
Qed.

Lemma move_index_mod (p delta c : Z) :
  0 < c <= INT_MAX -> is_int (p + delta) -> - c <= p + delta < 2 * c ->
  move_index p delta c = (p + delta) mod c.
Proof.
  unfold is_int. rewrite INT_MAX_val, INT_MIN_val. intros Hc Hi Hr.
  unfold move_index. int_exact.
  destruct (Z.geb_spec (p + delta) c) as [Hge | Hlt]; int_exact.
  - apply Z.mod_unique with (q := 1); lia.
  - destruct (Z.ltb_spec (p + delta) 0) as [Hneg | Hpos]; int_exact.
    + apply Z.mod_unique with (q := -1); lia.
    + symmetry. apply Z.mod_small. lia.
Qed.

(** C9.  For a capacity [c > 0] and positions [a], [b] in [[0, c)]: the
    forward distance from a position to itself is 0; for [a <> b] the forward
    and the backward distance add up to [c]; the backward distance is the
    forward distance with the end points exchanged; both are non-negative. *)
Theorem dist_forward_backward (a b c : Z) :
  0 < c <= INT_MAX -> 0 <= a < c -> 0 <= b < c ->
  dist_forward a a c = 0
  /\ (a <> b -> dist_forward a b c + dist_backward a b c = c)
  /\ dist_backward a b c = dist_forward b a c
  /\ 0 <= dist_forward a b c
  /\ 0 <= dist_backward a b c.
Proof.
  rewrite INT_MAX_val. intros Hc Ha Hb.
  unfold dist_backward, dist_forward, int_sub.
  rewrite (wrap_int_id (a - a)), (wrap_int_id (b - a)), (wrap_int_id (a - b))
    by (unfold is_int; rewrite INT_MIN_val, INT_MAX_val; lia).
  replace (a - a) with 0 by lia. simpl.
  destruct (Z.ltb_spec (b - a) 0); destruct (Z.ltb_spec (a - b) 0);
    int_exact; repeat split; lia.
Qed.

Lemma dist_forward_backward_witness :
  dist_forward 5 5 8 = 0
  /\ (5 <> 2 -> dist_forward 5 2 8 + dist_backward 5 2 8 = 8)
  /\ dist_backward 5 2 8 = dist_forward 2 5 8
  /\ 0 <= dist_forward 5 2 8
  /\ 0 <= dist_backward 5 2 8.
Proof.
  apply (dist_forward_backward 5 2 8); rewrite ?INT_MAX_val; lia.
Defined.

(** C3, as the code has it.  [move_index] wraps once: for a position [p] in
    [[0, c)] and a [delta] with [-c <= p + delta < 2 * c] (in particular for
    every [|delta| <= c]) the result is [(p + delta) mod c] and lies in
    [[0, c)]. *)
Theorem move_index_single_wrap (p delta c : Z) :
  0 < c <= INT_MAX -> 0 <= p < c -> is_int (p + delta) ->
  - c <= p + delta < 2 * c ->
  move_index p delta c = (p + delta) mod c
  /\ 0 <= move_index p delta c < c.
Proof.
  intros Hc Hp Hi Hr.
  rewrite (move_index_mod p delta c Hc Hi Hr).
  split; [reflexivity | apply Z.mod_pos_bound; lia].
Qed.

Lemma move_index_single_wrap_witness :
  move_index 8000 (-8100) 8192 = (8000 + -8100) mod 8192
  /\ 0 <= move_index 8000 (-8100) 8192 < 8192.
Proof.
  apply (move_index_single_wrap 8000 (-8100) 8192);
    unfold is_int; rewrite ?INT_MAX_val, ?INT_MIN_val; lia.
Defined.

(** C3, as the claim states it, fails for a [delta] of twice the capacity:
    the single wrap leaves the position at [capacity], outside the buffer. *)
Lemma move_index_large_delta :
  move_index 0 16384 8192 = 8192
  /\ move_index 0 16384 8192 <> (0 + 16384) mod 8192
  /\ ~ (0 <= move_index 0 16384 8192 < 8192).
Proof.
  repeat split; vm_compute; intros; try discriminate; intuition discriminate.
Qed.

(** ** Reader advance *)

Section ReaderAdvance.

Variables cap w lam : Z.
Hypothesis cap_range : VL < cap <= 2 ^ 30.
Hypothesis w_range : 0 <= w < cap.
Hypothesis lam_range : 1 <= lam < cap.

Lemma cap_bounds : 1024 < cap <= 1073741824.
Proof. exact cap_range. Qed.

Lemma move_by_wavelength (r : Z) :
  0 <= r < cap -> move_index r lam cap = (r + lam) mod cap.
Proof.
  intros Hr. pose proof cap_bounds.
  apply move_index_mod; unfold is_int;
    rewrite ?INT_MAX_val, ?INT_MIN_val; lia.
Qed.

Lemma dist_to_writer (r : Z) :
  0 <= r < cap -> dist_forward r w cap = (w - r) mod cap.
Proof.
  intros Hr. pose proof cap_bounds.
  apply dist_forward_mod; rewrite ?INT_MAX_val; lia.
Qed.

Lemma orbit_shift (r : Z) (n : nat) :
  ((r + lam) mod cap + Z.of_nat n * lam) mod cap
  = (r + Z.of_nat (S n) * lam) mod cap.
Proof.
  rewrite Zplus_mod_idemp_l. f_equal. lia.
Qed.

(** If the [n]-th position after [r] on the orbit is safe, the loop started
    at [r] stops within [n + 1] tests, at the first safe position. *)
Lemma skip_discontinuity_finds (n : nat) :
  forall r, 0 <= r < cap ->
    VL <= dist_forward ((r + Z.of_nat n * lam) mod cap) w cap ->
    exists m, (m <= n)%nat
      /\ VL <= dist_forward ((r + Z.of_nat m * lam) mod cap) w cap
      /\ forall fuel, (n < fuel)%nat ->
           skip_discontinuity fuel w r lam cap
           = Some ((r + Z.of_nat m * lam) mod cap).
Proof.
  pose proof cap_bounds as Hcb.
  induction n as [| n IH]; intros r Hr Hsafe.
  - exists 0%nat. split; [lia | split; [exact Hsafe |]].
    intros fuel Hfuel. destruct fuel as [| fuel]; [lia |].
    simpl in *. rewrite Z.add_0_r, Z.mod_small in * by lia.
    destruct (Z.ltb_spec (dist_forward r w cap) VL); [lia | reflexivity].
  - destruct (Z.ltb_spec (dist_forward r w cap) VL) as [Hnear | Hfar].
    + destruct (IH ((r + lam) mod cap)) as (m & Hm & Hsafe' & Hrun).
      { apply Z.mod_pos_bound; lia. }
      { rewrite orbit_shift. exact Hsafe. }
      exists (S m). rewrite <- orbit_shift.
      split; [lia | split; [exact Hsafe' |]].
      intros fuel Hfuel. destruct fuel as [| fuel]; [lia |].
      simpl. destruct (Z.ltb_spec (dist_forward r w cap) VL); [| lia].
      rewrite move_by_wavelength by exact Hr. apply Hrun. lia.
    + exists 0%nat. simpl. rewrite Z.add_0_r, Z.mod_small by lia.
      split; [lia | split; [exact Hfar |]].
      intros fuel Hfuel. destruct fuel as [| fuel]; [lia |].
      simpl. destruct (Z.ltb_spec (dist_forward r w cap) VL); [lia | reflexivity].
Qed.

Hypothesis orbit_spacing : Z.gcd lam cap <= cap - VL.

(** The orbit of [r] under [+ lam] is spaced [gcd lam cap] apart, so it has a
    point outside the [VL] positions that end at the writer. *)
Lemma safe_point_on_orbit (r : Z) :
  0 <= r < cap ->
  exists k, 1 <= k < 2 * cap
    /\ VL <= dist_forward ((r + k * lam) mod cap) w cap.
Proof.
  intros Hr. pose proof cap_bounds as Hcb.
  pose proof orbit_spacing as Hsp. rewrite VL_val in Hsp |- *.
  set (g := Z.gcd lam cap) in Hsp |- *.
  assert (Hg : 0 < g).
  { pose proof (Z.gcd_nonneg lam cap).
    assert (g <> 0) by (unfold g; intros H0; apply Z.gcd_eq_0_r in H0; lia).
    fold g in H. lia. }
  destruct (Z.gcd_bezout lam cap g eq_refl) as (u & v & Hbez).
  set (d0 := (w - r) mod cap).
  assert (Hd0 : 0 <= d0 < cap) by (apply Z.mod_pos_bound; lia).
  (* the number of spacings to walk back from [r] *)
  set (j := if d0 <? 1024 then (1024 - d0 + g - 1) / g else 0).
  assert (Hj : 0 <= j /\ 1024 <= d0 + j * g < cap).
  { unfold j. destruct (Z.ltb_spec d0 1024) as [Hlt | Hge]; [| lia].
    pose proof (Z.div_mod (1024 - d0 + g - 1) g ltac:(lia)) as Hdm.
    pose proof (Z.mod_pos_bound (1024 - d0 + g - 1) g Hg) as Hmb.
    set (q := (1024 - d0 + g - 1) / g) in *.
    assert (0 <= q) by (apply Z.div_pos; lia).
    nia. }
  set (k0 := (- j * u) mod cap).
  assert (Hk0 : 0 <= k0 < cap) by (apply Z.mod_pos_bound; lia).
  exists (k0 + cap). split; [lia |].
  rewrite dist_to_writer by (apply Z.mod_pos_bound; lia).
  rewrite Zminus_mod_idemp_r.
  assert (Heq : (w - (r + (k0 + cap) * lam)) mod cap = d0 + j * g).
  { symmetry.
    apply Z.mod_unique
      with (q := (w - r) / cap + (- j * u) / cap * lam - lam - j * v);
      [lia |].
    pose proof (Z.div_mod (w - r) cap ltac:(lia)) as H1.
    pose proof (Z.div_mod (- j * u) cap ltac:(lia)) as H2.
    fold d0 in H1. fold k0 in H2.
    set (q1 := (w - r) / cap) in *. set (q2 := (- j * u) / cap) in *.
    assert (Hw' : w = r + cap * q1 + d0) by lia.
    assert (Hk' : k0 = - j * u - cap * q2) by lia.
    rewrite Hk', <- Hbez. rewrite Hw' at 1. ring. }
  rewrite Heq. lia.
Qed.

(** Total correctness of [advance_index] on a wavelength [lam]. *)
Lemma advance_reaches_safe_point (r : Z) (freq : f32) :
  wave_length freq = lam -> 0 <= r < cap ->
  exists r' k,
    (forall fuel, (Z.to_nat (2 * cap) <= fuel)%nat ->
       advance_index fuel w r freq cap = Some r')
    /\ VL <= dist_forward r' w cap
    /\ 1 <= k
    /\ r' = (r + k * lam) mod cap.
Proof.
  intros Hlen Hr. pose proof cap_bounds as Hcb.
  destruct (safe_point_on_orbit r Hr) as (k & Hk & Hsafe).
  destruct (skip_discontinuity_finds (Z.to_nat (k - 1)) ((r + lam) mod cap))
    as (m & Hm & Hsafe' & Hrun).
  { apply Z.mod_pos_bound; lia. }
  { rewrite orbit_shift. replace (Z.of_nat (S (Z.to_nat (k - 1)))) with k by lia.
    exact Hsafe. }
  rewrite orbit_shift in Hsafe', Hrun.
  exists ((r + Z.of_nat (S m) * lam) mod cap), (Z.of_nat (S m)).
  split; [| split; [exact Hsafe' | split; [lia | reflexivity]]].
  intros fuel Hfuel. unfold advance_index. rewrite Hlen.
  rewrite move_by_wavelength by exact Hr. apply Hrun. lia.
Qed.

End ReaderAdvance.

(** A divisor of [cap] that is at most [lam < cap] is at most half of it. *)
Lemma gcd_below_half (lam cap : Z) :
  1 <= lam < cap -> 2 * Z.gcd lam cap <= cap.
Proof.
  intros Hlam.
  pose proof (Z.gcd_nonneg lam cap) as Hnn.
  destruct (Z.gcd_divide_r lam cap) as [q Hq].
  destruct (Z.gcd_divide_l lam cap) as [p Hp].
  set (g := Z.gcd lam cap) in *.
  assert (g <> 0) by (intros H0; rewrite H0 in Hq; lia).
  assert (0 < p) by nia.
  assert (g <= lam) by nia.
  assert (2 <= q) by nia.
  nia.
Qed.

(** C2, as the code has it.  For cursors [w] and [r] in [[0, capacity)] and a
    locked frequency whose wavelength [lam = int(SR / f + .5f)] satisfies
    [1 <= lam < capacity], [advance_index] returns provided the orbit of the
    reader is not confined to the [VL] positions ending at the writer, that is
    [gcd lam capacity <= capacity - VL]; the returned cursor [r'] then has
    [dist_forward r' w capacity >= VL] and is [(r + k * lam) mod capacity] for
    some [k >= 1]. *)
Theorem advance_index_safe (w r cap : Z) (freq : f32) :
  VL < cap <= 2 ^ 30 -> 0 <= w < cap -> 0 <= r < cap ->
  1 <= wave_length freq < cap ->
  Z.gcd (wave_length freq) cap <= cap - VL ->
  exists r' k,
    (forall fuel, (Z.to_nat (2 * cap) <= fuel)%nat ->
       advance_index fuel w r freq cap = Some r')
    /\ VL <= dist_forward r' w cap
    /\ 1 <= k
    /\ r' = (r + k * wave_length freq) mod cap.
Proof.
  intros Hcap Hw Hr Hlam Hgcd.
  exact (advance_reaches_safe_point cap w (wave_length freq)
           Hcap Hw Hlam Hgcd r freq eq_refl Hr).
Qed.

Lemma advance_index_safe_witness :
  exists r' k,
    (forall fuel, (Z.to_nat (2 * 8192) <= fuel)%nat ->
       advance_index fuel 512 0 F32.sixty 8192 = Some r')
    /\ VL <= dist_forward r' 512 8192
    /\ 1 <= k
    /\ r' = (0 + k * wave_length F32.sixty) mod 8192.
Proof.
  apply (advance_index_safe 512 0 8192 F32.sixty);
    [ rewrite VL_val; lia | lia | lia
    | change (wave_length F32.sixty) with 800; lia
    | vm_compute; intro; discriminate ].
Defined.

(** Every capacity of at least [2 * VL] satisfies the spacing condition. *)
Lemma double_window_always_safe (w r cap : Z) (freq : f32) :
  2 * VL <= cap <= 2 ^ 30 -> 0 <= w < cap -> 0 <= r < cap ->
  1 <= wave_length freq < cap ->
  exists r',
    (forall fuel, (Z.to_nat (2 * cap) <= fuel)%nat ->
       advance_index fuel w r freq cap = Some r')
    /\ VL <= dist_forward r' w cap.
Proof.
  intros Hcap Hw Hr Hlam.
  pose proof (gcd_below_half _ _ Hlam) as Hg.
  assert (Hv : VL = 1024) by reflexivity.
  destruct (advance_reaches_safe_point cap w (wave_length freq)
              ltac:(lia) Hw Hlam ltac:(lia) r freq eq_refl Hr)
    as (r' & k & Hrun & Hsafe & _).
  exists r'. split; assumption.
Qed.

(** C2, as the claim states it, fails at capacity 1500: the wavelength of
    96 Hz is 500, and the positions 500, 1000 and 0 that the reader visits
    from 0 all lie within [VL] of the writer at 1023, so the loop never
    stops. *)
Lemma advance_index_confined_orbit :
  VL < 1500
  /\ wave_length (F32.of_int 96) = 500
  /\ ~ (exists fuel r', advance_index fuel 1023 0 (F32.of_int 96) 1500 = Some r').
Proof.
  split; [reflexivity |]. split; [reflexivity |].
  assert (Hloop : forall fuel r, r = 0 \/ r = 500 \/ r = 1000 ->
            skip_discontinuity fuel 1023 r 500 1500 = None).
  { induction fuel as [| fuel IH]; intros r Hr; [reflexivity |].
    destruct Hr as [-> | [-> | ->]]; cbn [skip_discontinuity].
    - change (dist_forward 0 1023 1500 <? VL) with true. cbv iota.
      apply IH. right; left; reflexivity.
    - change (dist_forward 500 1023 1500 <? VL) with true. cbv iota.
      apply IH. right; right; reflexivity.
    - change (dist_forward 1000 1023 1500 <? VL) with true. cbv iota.
      apply IH. left; reflexivity. }
  intros (fuel & r' & H). unfold advance_index in H.
  change (wave_length (F32.of_int 96)) with 500 in H.
  change (move_index 0 500 1500) with 500 in H.
  rewrite Hloop in H by auto. discriminate.
Qed.

(** C10.  With the buffer of [TBL = 8192] samples and the window of
    [VL = 1024], for cursors in [[0, TBL)] and a frequency whose wavelength
    [lam] satisfies [1 <= lam < TBL], the loop of [advance_index] stops: every
    run with fuel for [2 * TBL] tests of its condition returns. *)
Theorem advance_index_terminates (w r : Z) (freq : f32) :
  0 <= w < TBL -> 0 <= r < TBL -> 1 <= wave_length freq < TBL ->
  exists r',
    forall fuel, (Z.to_nat (2 * TBL) <= fuel)%nat ->
      advance_index fuel w r freq TBL = Some r'.
Proof.
  intros Hw Hr Hlam.
  pose proof (gcd_below_half _ _ Hlam) as Hg.
  rewrite TBL_val in *.
  destruct (advance_reaches_safe_point 8192 w (wave_length freq)
              ltac:(rewrite VL_val; lia) Hw Hlam ltac:(rewrite VL_val; lia)
              r freq eq_refl Hr)
    as (r' & k & Hrun & _).
  exists r'. exact Hrun.
Qed.

Lemma advance_index_terminates_witness :
  exists r',
    forall fuel, (Z.to_nat (2 * TBL) <= fuel)%nat ->
      advance_index fuel 7000 6500 F32.sixty TBL = Some r'.
Proof.
  apply (advance_index_terminates 7000 6500 F32.sixty);
    [ rewrite TBL_val; lia | rewrite TBL_val; lia
    | change (wave_length F32.sixty) with 800; rewrite TBL_val; lia ].
Defined.

(** ** Loops *)

(** The invariant rule of the counted loop. *)
Lemma for_range_invariant {S : Type} (P : nat -> S -> Prop)
    (body : Z -> S -> S) (n : nat) :
  forall (start : Z) (s0 : S),
    P 0%nat s0 ->
    (forall k s, (k < n)%nat -> P k s ->
       P (Datatypes.S k) (body (start + Z.of_nat k) s)) ->
    P n (for_range start n body s0).
Proof.
  revert P. induction n as [| n IH]; intros P start s0 H0 Hstep.
  - exact H0.
  - simpl. apply (IH (fun k => P (Datatypes.S k))).
    + specialize (Hstep 0%nat s0). simpl in Hstep. rewrite Z.add_0_r in Hstep.
      apply Hstep; [lia | exact H0].
    + intros k s Hk HP.
      replace (start + 1 + Z.of_nat k) with (start + Z.of_nat (Datatypes.S k)) by lia.
      apply Hstep; [lia | exact HP].
Qed.

(** ** Cross-correlation synchroniser *)

Lemma mod_add_sub (a x c : Z) :
  0 < c -> ((a + x) mod c - a) mod c = x mod c.
Proof.
  intros Hc. rewrite Zminus_mod_idemp_l. f_equal. lia.
Qed.

Lemma mod_sub_add (a x c : Z) :
  0 < c -> (a - (a + x) mod c) mod c = (- x) mod c.
Proof.
  intros Hc. rewrite Zminus_mod_idemp_r. f_equal. lia.
Qed.

(** The candidate loop keeps the position under test and the best position
    on the stride of the scan. *)
Lemma xcorr_loop_candidates (prev_buff : list (list f32)) (frame_id : Z)
    (buff : list f32) (channel_max : f32) (r0 : Z) (n : nat) :
  0 <= r0 < TBL ->
  let v := for_range 0 n (xcorr_body prev_buff frame_id buff channel_max)
             {| xc_r := r0; xc_max_r := r0; xc_max_md := F32.neg_infinity |} in
  xc_r v = (r0 + 3 * Z.of_nat n) mod TBL
  /\ exists i, 0 <= i /\ (i = 0 \/ i < Z.of_nat n)
       /\ xc_max_r v = (r0 + 3 * i) mod TBL.
Proof.
  intros Hr0 v. subst v.
  apply (for_range_invariant
           (fun k v => xc_r v = (r0 + 3 * Z.of_nat k) mod TBL
                       /\ exists i, 0 <= i /\ (i = 0 \/ i < Z.of_nat k)
                            /\ xc_max_r v = (r0 + 3 * i) mod TBL)).
  - simpl. rewrite Z.add_0_r, Z.mod_small by exact Hr0.
    split; [reflexivity |]. exists 0. rewrite Z.add_0_r, Z.mod_small by exact Hr0.
    repeat split; auto; lia.
  - intros k v Hk (Hr & i & Hi0 & Hi & Hmax). unfold xcorr_body. cbn [xc_r xc_max_r].
    split.
    + rewrite Hr.
      change HISTORY_SEARCH_GRANULARITY with 3. rewrite TBL_val in *.
      rewrite move_index_mod.
      * rewrite Zplus_mod_idemp_l. f_equal. lia.
      * rewrite INT_MAX_val; lia.
      * pose proof (Z.mod_pos_bound (r0 + 3 * Z.of_nat k) 8192 ltac:(lia)).
        unfold is_int; rewrite INT_MIN_val, INT_MAX_val; lia.
      * pose proof (Z.mod_pos_bound (r0 + 3 * Z.of_nat k) 8192 ltac:(lia)). lia.
    + destruct (_ >? _)%f32.
      * exists (Z.of_nat k). rewrite Hr. repeat split; auto; lia.
      * exists i. repeat split; auto. lia.
Qed.

(** The scan starts half a search range behind the reader. *)
Lemma xcorr_start (r dist : Z) :
  0 <= r < TBL -> 0 <= dist <= TBL ->
  move_index r (Z.quot (- dist)%int 2) TBL = (r - Z.quot dist 2) mod TBL.
Proof.
  rewrite TBL_val. intros Hr Hd. int_exact.
  rewrite Z.quot_opp_l by lia.
  pose proof (Z.quot_pos dist 2 ltac:(lia) ltac:(lia)).
  assert (Z.quot dist 2 <= dist) by (apply Z.quot_le_upper_bound; lia).
  rewrite move_index_mod.
  - f_equal.
  - rewrite INT_MAX_val; lia.
  - unfold is_int; rewrite INT_MIN_val, INT_MAX_val; lia.
  - lia.
Qed.

(** The result of the scan, for any search range between the stride and the
    buffer length. *)
Lemma xcorr_result_in_window (w r dist frame_id : Z)
    (prev_buff : list (list f32)) (buff : list f32) (channel_max : f32) :
  0 <= r < TBL -> HISTORY_SEARCH_GRANULARITY <= dist <= TBL ->
  let r' := cross_correlation_sync w r dist prev_buff frame_id buff channel_max in
  exists i,
    0 <= i < Z.quot dist HISTORY_SEARCH_GRANULARITY
    /\ r' = (r - Z.quot dist 2 + i * HISTORY_SEARCH_GRANULARITY) mod TBL
    /\ dist_forward (move_index r (Z.quot (- dist)%int 2) TBL) r' TBL
       = i * HISTORY_SEARCH_GRANULARITY
    /\ i * HISTORY_SEARCH_GRANULARITY <= dist
    /\ (dist_forward r r' TBL <= Z.quot dist 2
        \/ dist_backward r r' TBL <= Z.quot dist 2).
Proof.
  change HISTORY_SEARCH_GRANULARITY with 3.
  intros Hr Hd r'. subst r'. unfold cross_correlation_sync, for_to.
  change HISTORY_SEARCH_GRANULARITY with 3.
  rewrite xcorr_start by lia.
  assert (Htbl : TBL = 8192) by reflexivity.
  set (r0 := (r - Z.quot dist 2) mod TBL).
  assert (Hr0 : 0 <= r0 < TBL) by (apply Z.mod_pos_bound; lia).
  destruct (xcorr_loop_candidates prev_buff frame_id buff channel_max r0
              (Z.to_nat (Z.quot dist 3)) Hr0) as (_ & i & Hi0 & Hi & Hmax).
  pose proof (Z.quot_pos dist 2 ltac:(lia) ltac:(lia)) as Hh0.
  assert (Hh1 : 2 * Z.quot dist 2 <= dist) by (apply Z.mul_quot_le; lia).
  assert (Hh2 : dist < 2 * Z.quot dist 2 + 2).
  { pose proof (Z.quot_rem dist 2 ltac:(lia)).
    pose proof (Z.rem_bound_pos dist 2 ltac:(lia) ltac:(lia)). lia. }
  assert (Hq1 : 3 * Z.quot dist 3 <= dist) by (apply Z.mul_quot_le; lia).
  assert (Hq0 : 1 <= Z.quot dist 3).
  { apply Z.quot_le_lower_bound; lia. }
  rewrite Z2Nat.id in Hi by lia.
  assert (Hi' : 0 <= i < Z.quot dist 3) by lia.
  exists i. rewrite Hmax. unfold r0.
  assert (Hcand : ((r - Z.quot dist 2) mod TBL + 3 * i) mod TBL
                  = (r - Z.quot dist 2 + i * 3) mod TBL).
  { rewrite Zplus_mod_idemp_l. f_equal. lia. }
  rewrite Hcand.
  pose proof (Z.mod_pos_bound (r - Z.quot dist 2 + i * 3) TBL ltac:(lia)) as Hb.
  split; [exact Hi' |]. split; [reflexivity |]. split; [| split].
  - rewrite dist_forward_mod; try (rewrite ?INT_MAX_val; lia).
    replace (r - Z.quot dist 2 + i * 3) with ((r - Z.quot dist 2) + i * 3) by lia.
    rewrite Zminus_mod_idemp_r.
    rewrite mod_add_sub by lia.
    apply Z.mod_small. lia.
  - lia.
  - unfold dist_backward.
    rewrite !dist_forward_mod; try (rewrite ?INT_MAX_val; lia).
    replace (r - Z.quot dist 2 + i * 3) with (r + (i * 3 - Z.quot dist 2)) by lia.
    rewrite mod_add_sub, mod_sub_add by lia.
    destruct (Z.le_gt_cases (Z.quot dist 2) (i * 3)) as [Hahead | Hbehind].
    + left. rewrite Z.mod_small by lia. lia.
    + right. rewrite Z.mod_small by lia. lia.
Qed.

(** C6.  The cursor returned by [cross_correlation_sync] is one of the
    scanned candidates [(r - D / 2 + i * G) mod TBL] with [0 <= i < D / G].
    It lies in the search window of [r]: its forward distance from the start
    of the window is [i * G], at most the search range [D], and it is within
    [D / 2] samples of [r], behind or ahead. *)
Theorem cross_correlation_sync_in_window (w r dist frame_id : Z)
    (prev_buff : list (list f32)) (buff : list f32) (channel_max : f32) :
  0 <= r < TBL -> HISTORY_SEARCH_GRANULARITY <= dist <= TBL ->
  let r' := cross_correlation_sync w r dist prev_buff frame_id buff channel_max in
  exists i,
    0 <= i < Z.quot dist HISTORY_SEARCH_GRANULARITY
    /\ r' = (r - Z.quot dist 2 + i * HISTORY_SEARCH_GRANULARITY) mod TBL
    /\ dist_forward (move_index r (Z.quot (- dist)%int 2) TBL) r' TBL
       = i * HISTORY_SEARCH_GRANULARITY
    /\ i * HISTORY_SEARCH_GRANULARITY <= dist
    /\ (dist_forward r r' TBL <= Z.quot dist 2
        \/ dist_backward r r' TBL <= Z.quot dist 2).
Proof.
  exact (xcorr_result_in_window w r dist frame_id prev_buff buff channel_max).
Qed.

Lemma cross_correlation_sync_in_window_witness :
  let r' := cross_correlation_sync 512 800 350 [] 0 [] F32.one in
  exists i,
    0 <= i < Z.quot 350 HISTORY_SEARCH_GRANULARITY
    /\ r' = (800 - Z.quot 350 2 + i * HISTORY_SEARCH_GRANULARITY) mod TBL
    /\ dist_forward (move_index 800 (Z.quot (- 350)%int 2) TBL) r' TBL
       = i * HISTORY_SEARCH_GRANULARITY
    /\ i * HISTORY_SEARCH_GRANULARITY <= 350
    /\ (dist_forward 800 r' TBL <= Z.quot 350 2
        \/ dist_backward 800 r' TBL <= Z.quot 350 2).
Proof.
  apply (cross_correlation_sync_in_window 512 800 350 0 [] [] F32.one);
    [ rewrite TBL_val; lia
    | change HISTORY_SEARCH_GRANULARITY with 3; rewrite TBL_val; lia ].
Defined.

(** ** The order of floats *)

Lemma SFcompare_refl (x : spec_float) :
  SFcompare x x = Some Eq \/ SFcompare x x = None.
Proof.
  destruct x as [s | s | | s m e]; simpl; auto.
  - destruct s; auto.
  - left. destruct s; rewrite Z.compare_refl;
      change (Pos.compare_cont Eq m m) with (Pos.compare m m);
      rewrite Pos.compare_refl; reflexivity.
Qed.

Lemma SFltb_irrefl (x : spec_float) : SFltb x x = false.
Proof.
  unfold SFltb. destruct (SFcompare_refl x) as [-> | ->]; reflexivity.
Qed.

Lemma SFcompare_antisym (x y : spec_float) :
  SFcompare y x = option_map CompOpp (SFcompare x y).
Proof.
  destruct x as [sx | sx | | sx mx ex], y as [sy | sy | | sy my ey];
    simpl; try reflexivity;
    try (destruct sx; reflexivity); try (destruct sy; reflexivity);
    try (destruct sx, sy; reflexivity).
  change (Pos.compare_cont Eq my mx) with (Pos.compare my mx).
  change (Pos.compare_cont Eq mx my) with (Pos.compare mx my).
  rewrite (Z.compare_antisym ex ey), (Pos.compare_antisym mx my).
  destruct sx, sy; simpl; try reflexivity;
    destruct (ex ?= ey); simpl; try reflexivity;
    destruct (mx ?= my)%positive; reflexivity.
Qed.

Lemma SFltb_trans (x y z : spec_float) :
  SFltb x y = true -> SFltb y z = true -> SFltb x z = true.
Proof.
  unfold SFltb.
  destruct x as [sx | sx | | sx mx ex], y as [sy | sy | | sy my ey],
    z as [sz | sz | | sz mz ez]; simpl;
    try discriminate; try reflexivity;
    try (destruct sx; simpl; try discriminate; try reflexivity;
         destruct sy; simpl; try discriminate; try reflexivity;
         destruct sz; simpl; try discriminate; reflexivity);
    try (destruct sx, sy; simpl; try discriminate; try reflexivity; fail);
    try (destruct sy, sz; simpl; try discriminate; try reflexivity; fail);
    try (destruct sx, sz; simpl; try discriminate; try reflexivity; fail).
  change (Pos.compare_cont Eq mx my) with (Pos.compare mx my).
  change (Pos.compare_cont Eq my mz) with (Pos.compare my mz).
  change (Pos.compare_cont Eq mx mz) with (Pos.compare mx mz).
  destruct sx, sy, sz; simpl; try discriminate; try reflexivity;
    destruct (Z.compare_spec ex ey); try discriminate;
    destruct (Z.compare_spec ey ez); try discriminate;
    destruct (Z.compare_spec ex ez); try lia; try reflexivity;
    destruct (Pos.compare_spec mx my); simpl; try discriminate;
    destruct (Pos.compare_spec my mz); simpl; try discriminate;
    destruct (Pos.compare_spec mx mz); simpl; try lia; try reflexivity;
    intros; try discriminate; try lia.
Qed.

(** ** Spectral peak *)

Lemma SFltb_asym (x y : spec_float) : SFltb x y = true -> SFltb y x = false.
Proof.
  intros H. destruct (SFltb y x) eqn:Hyx; [| reflexivity].
  pose proof (SFltb_trans x y x H Hyx) as Hxx.
  rewrite SFltb_irrefl in Hxx. discriminate.
Qed.

(** After the bins [1 .. n] the loop of [max_bin] holds the index of a bin of
    positive magnitude that none of them exceeds, or index 0 and the
    magnitude zero when none of them is positive. *)
Lemma max_bin_loop (E : Externals) (f : list complex32) (n : nat) :
  let st := for_range 1 n
              (fun i '(max, max_i) =>
                 let mmag := cabsf E (array_get czero f i) in
                 if (mmag >? max)%f32 then (mmag, i) else (max, max_i))
              (F32.zero, 0) in
  0 <= snd st <= Z.of_nat n
  /\ (snd st = 0 -> fst st = F32.zero)
  /\ (1 <= snd st ->
      fst st = magnitude E f (snd st) /\ SFltb F32.zero (fst st) = true)
  /\ (forall i, 1 <= i <= Z.of_nat n -> SFltb (fst st) (magnitude E f i) = false).
Proof.
  intros st. subst st.
  apply (for_range_invariant
           (fun k (st : f32 * Z) =>
              0 <= snd st <= Z.of_nat k
              /\ (snd st = 0 -> fst st = F32.zero)
              /\ (1 <= snd st ->
                  fst st = magnitude E f (snd st)
                  /\ SFltb F32.zero (fst st) = true)
              /\ (forall i, 1 <= i <= Z.of_nat k ->
                    SFltb (fst st) (magnitude E f i) = false))).
  - simpl. repeat split; try lia; auto; intros; lia.
  - intros k [max max_i] Hk (Hrange & Hzero & Hpos & Hbest).
    cbn [fst snd] in *. cbv zeta.
    fold (magnitude E f (1 + Z.of_nat k)).
    unfold F32.gt.
    destruct (SFltb max (magnitude E f (1 + Z.of_nat k))) eqn:Hhit;
      cbn [fst snd].
    + split; [lia |]. split; [lia |]. split.
      * intros _. split; [reflexivity |].
        destruct (Z.eq_dec max_i 0) as [H0 | H0].
        -- rewrite <- (Hzero H0). exact Hhit.
        -- destruct (Hpos ltac:(lia)) as [_ Hp].
           exact (SFltb_trans _ _ _ Hp Hhit).
      * intros i Hi. destruct (Z.eq_dec i (1 + Z.of_nat k)) as [-> | Hne].
        -- apply SFltb_irrefl.
        -- destruct (SFltb (magnitude E f (1 + Z.of_nat k)) (magnitude E f i))
             eqn:Hgt; [| reflexivity].
           rewrite <- (Hbest i ltac:(lia)).
           symmetry. exact (SFltb_trans _ _ _ Hhit Hgt).
    + split; [lia |]. split; [exact Hzero |]. split; [exact Hpos |].
      intros i Hi. destruct (Z.eq_dec i (1 + Z.of_nat k)) as [-> | Hne].
      * exact Hhit.
      * apply Hbest. lia.
Qed.

(** [max_bin] ignores bin 0: it returns the index of a bin among 1 .. 99
    whose magnitude is positive and that no bin among 1 .. 99 exceeds, or 0
    when none of them has a positive magnitude. *)
Lemma max_bin_selects (E : Externals) (f : list complex32) :
  let k := max_bin E f in
  0 <= k < 100
  /\ (k = 0 -> forall i, 1 <= i < 100 -> F32.gt (magnitude E f i) F32.zero = false)
  /\ (1 <= k ->
      F32.gt (magnitude E f k) F32.zero = true
      /\ forall i, 1 <= i < 100 ->
           F32.gt (magnitude E f i) (magnitude E f k) = false).
Proof.
  intros k. subst k. unfold max_bin, F32.gt.
  destruct (max_bin_loop E f 99) as (Hrange & Hzero & Hpos & Hbest).
  cbv zeta in *.
  set (st := for_range 1 99 _ _) in *.
  change (Z.of_nat 99) with 99 in *.
  split; [lia |]. split.
  - intros H0 i Hi. rewrite <- (Hzero H0). apply Hbest. lia.
  - intros H1. destruct (Hpos H1) as [Hmag Hp].
    rewrite <- Hmag. split; [exact Hp |].
    intros i Hi. apply Hbest. lia.
Qed.

Lemma max_floor (x : f32) :
  F32.is_nan x = false -> F32.le F32.ten (F32.max x F32.ten) = true.
Proof.
  intros Hnan. unfold F32.max, F32.lt, F32.le.
  destruct (SFltb x F32.ten) eqn:Hlt; [reflexivity |].
  unfold SFleb, SFltb in *. rewrite (SFcompare_antisym x F32.ten).
  destruct x as [s | s | | s m e]; try discriminate;
    destruct (SFcompare _ F32.ten) as [[ | | ] |] eqn:Hc;
    try discriminate; try reflexivity;
    simpl in Hc; try discriminate; destruct s; discriminate.
Qed.

Lemma max_nan (x : f32) : F32.is_nan x = true -> F32.max x F32.ten = F32.nan.
Proof.
  destruct x; try discriminate. reflexivity.
Qed.

(** C8, as the code has it.  On an array of [FFTLEN / 2 + 1] bins whose bin 0
    has magnitude zero ([step] zeroes it before the call), [max_bin] selects a
    bin [k0] that no bin among the first 100 exceeds in magnitude;
    [max_frequency] takes [k = 1] when [k0 = 0], refines [k] by
    [0.5 * (a - g) / (a - 2 * b + g + 0.001)] on the magnitudes [a], [b], [g]
    of the bins [k - 1], [k], [k + 1], converts by [SRF / FFTLEN] and returns
    the larger of the result [x] and 10: a value of at least 10 when [x] is
    not NaN, and NaN when [x] is NaN. *)
Theorem max_frequency_peak (E : Externals) (f : list complex32) :
  Z.of_nat (length f) = Z.quot FFTLEN 2 + 1 ->
  magnitude E f 0 = F32.zero ->
  let k0 := max_bin E f in
  let k := if k0 =? 0 then 1 else k0 in
  let a := magnitude E f (k - 1) in
  let b := magnitude E f k in
  let g := magnitude E f (k + 1) in
  let x := ((F32.of_int k
             + F32.half * (a - g) / (a - F32.of_int 2 * b + g + f_0_001))
            * F32.of_int 24000 / F32.of_int 4096)%f32 in
  0 <= k0 < 100
  /\ (forall i, 0 <= i < 100 ->
        F32.gt (magnitude E f i) (magnitude E f k0) = false)
  /\ 1 <= k < 100
  /\ max_frequency E f = F32.max x F32.ten
  /\ (F32.is_nan x = false -> F32.le F32.ten (max_frequency E f) = true)
  /\ (F32.is_nan x = true -> max_frequency E f = F32.nan).
Proof.
  intros Hlen Hdc k0 k a b g x.
  destruct (max_bin_selects E f) as (Hrange & Hnone & Hsome). fold k0 in Hrange, Hnone, Hsome.
  assert (Hk : 1 <= k < 100).
  { subst k. destruct (Z.eqb_spec k0 0); lia. }
  assert (Hx : max_frequency E f = F32.max x F32.ten).
  { unfold max_frequency, interpolated_peak. fold k0. fold k.
    unfold int_sub, int_add.
    rewrite !wrap_int_id
      by (unfold is_int; rewrite INT_MIN_val, INT_MAX_val; lia).
    reflexivity. }
  split; [exact Hrange |]. split; [| split; [exact Hk | split; [exact Hx |]]].
  - intros i Hi. unfold F32.gt.
    destruct (Z.eq_dec k0 0) as [H0 | H0].
    + rewrite H0, Hdc.
      destruct (Z.eq_dec i 0) as [-> | Hi0].
      * rewrite Hdc. apply SFltb_irrefl.
      * apply (Hnone H0 i). lia.
    + destruct (Hsome ltac:(lia)) as [Hpos Hbest].
      destruct (Z.eq_dec i 0) as [-> | Hi0].
      * rewrite Hdc. apply SFltb_asym. exact Hpos.
      * apply Hbest. lia.
  - rewrite Hx. split; [apply max_floor | apply max_nan].
Qed.

Lemma max_frequency_peak_witness :
  let E := stub_externals in
  let f := zeros czero 2049 in
  let k0 := max_bin E f in
  let k := if k0 =? 0 then 1 else k0 in
  let a := magnitude E f (k - 1) in
  let b := magnitude E f k in
  let g := magnitude E f (k + 1) in
  let x := ((F32.of_int k
             + F32.half * (a - g) / (a - F32.of_int 2 * b + g + f_0_001))
            * F32.of_int 24000 / F32.of_int 4096)%f32 in
  0 <= k0 < 100
  /\ (forall i, 0 <= i < 100 ->
        F32.gt (magnitude E f i) (magnitude E f k0) = false)
  /\ 1 <= k < 100
  /\ max_frequency E f = F32.max x F32.ten
  /\ (F32.is_nan x = false -> F32.le F32.ten (max_frequency E f) = true)
  /\ (F32.is_nan x = true -> max_frequency E f = F32.nan).
Proof.
  apply (max_frequency_peak stub_externals (zeros czero 2049));
    vm_compute; reflexivity.
Defined.

(** C8, as the claim states it, fails on two arrays.  With [0.0005] in bin 1
    and zero elsewhere, [a - 2 * b + g + 0.001] and [a - g] are both zero, the
    offset is [0 / 0] and [std::max(NaN, 10)] returns the NaN.  With magnitude
    1 in bin 0 and 0.5 in bin 1, bin 1 is selected though bin 0 is larger:
    the search starts at bin 1. *)
Lemma max_frequency_nan_and_dc :
  (Z.of_nat (length bins_lone_peak) = Z.quot FFTLEN 2 + 1
   /\ max_frequency stub_externals bins_lone_peak = F32.nan
   /\ F32.ge (max_frequency stub_externals bins_lone_peak) F32.ten = false)
  /\ (Z.of_nat (length bins_dc_dominant) = Z.quot FFTLEN 2 + 1
      /\ max_bin stub_externals bins_dc_dominant = 1
      /\ F32.gt (magnitude stub_externals bins_dc_dominant 0)
           (magnitude stub_externals bins_dc_dominant 1) = true).
Proof.
  vm_compute. repeat split.
Qed.

(** The run on the lone peak does not depend on the stand-in for [std::abs]:
    any magnitude function that is exact on [0] and on [0.0005 + 0i] gives
    it. *)
Lemma max_frequency_nan_any_abs (E : Externals) :
  cabsf E czero = F32.zero ->
  cabsf E (f_0_0005, F32.zero) = f_0_0005 ->
  max_frequency E bins_lone_peak = F32.nan.
Proof.
  intros H0 H1.
  assert (Hmag : forall i, 0 <= i < 2049 ->
            cabsf E (array_get czero bins_lone_peak i)
            = if i =? 1 then f_0_0005 else F32.zero).
  { intros i Hi. unfold array_get, bins_lone_peak.
    destruct (Z.eqb_spec i 1) as [-> | Hne]; [exact H1 |].
    destruct (Z.to_nat i) as [| [| n]] eqn:Hn; try lia; [exact H0 |].
    cbn [nth]. unfold zeros.
    destruct (Nat.lt_ge_cases n (Z.to_nat 2047)) as [Hlt | Hge].
    - rewrite nth_repeat. exact H0.
    - rewrite nth_overflow by (rewrite repeat_length; exact Hge). exact H0. }
  assert (Hbin : max_bin E bins_lone_peak = 1).
  { unfold max_bin.
    match goal with
    | |- snd (for_range _ _ ?b _) = _ => set (body := b)
    end.
    assert (Hhit : body 1 (F32.zero, 0) = (f_0_0005, 1)).
    { unfold body. cbv zeta. rewrite Hmag by lia. reflexivity. }
    assert (Hmiss : forall i max_i, 2 <= i < 2049 ->
              body i (f_0_0005, max_i) = (f_0_0005, max_i)).
    { intros i max_i Hi. unfold body. cbv zeta. rewrite Hmag by lia.
      destruct (Z.eqb_spec i 1); [lia | reflexivity]. }
    assert (Hloop : forall n start max_i,
              2 <= start -> start + Z.of_nat n <= 2049 ->
              for_range start n body (f_0_0005, max_i) = (f_0_0005, max_i)).
    { induction n as [| n IH]; intros start max_i Hs He; [reflexivity |].
      cbn [for_range]. rewrite Hmiss by lia. apply IH; lia. }
    change (for_range 1 99 body (F32.zero, 0))
      with (for_range (1 + 1) 98 body (body 1 (F32.zero, 0))).
    rewrite Hhit, Hloop by lia. reflexivity. }
  unfold max_frequency, interpolated_peak. rewrite Hbin.
  change (1 =? 0) with false. cbv iota zeta.
  change (1 - 1)%int with 0. change (1 + 1)%int with 2.
  rewrite !Hmag by lia.
  reflexivity.
Qed.

(** ** The pacer *)

Lemma snap_behind (now next : Z) :
  next < now -> 0 < now - snap now next <= milliseconds 60.
Proof.
  unfold snap, milliseconds. intros H.
  destruct (now - next >? 60 * 1000000) eqn:Hlate.
  - lia.
  - rewrite Z.gtb_ltb in Hlate. apply Z.ltb_ge in Hlate. lia.
Qed.

Lemma snap_ahead (now next : Z) : now <= next -> snap now next = next.
Proof.
  unfold snap, milliseconds. intros H.
  destruct (now - next >? 60 * 1000000) eqn:Hlate; [| reflexivity].
  rewrite Z.gtb_ltb in Hlate. apply Z.ltb_lt in Hlate. lia.
Qed.

Lemma snap_near (now next : Z) :
  now - next <= milliseconds 60 -> snap now next = next.
Proof.
  unfold snap, milliseconds. intros H.
  destruct (now - next >? 60 * 1000000) eqn:Hlate; [| reflexivity].
  rewrite Z.gtb_ltb in Hlate. apply Z.ltb_lt in Hlate. lia.
Qed.

(** A cycle runs exactly when the reading is strictly past the target. *)
Lemma cycle_runs_iff (now : Z) (s : AudioProcess) :
  cycle_runs now s = true <-> next_time s < now.
Proof.
  unfold cycle_runs. rewrite Z.gtb_ltb, Z.ltb_lt. split; intros H.
  - destruct (Z.le_gt_cases now (next_time s)) as [Hle | Hgt]; [| lia].
    rewrite snap_ahead in H by exact Hle. lia.
  - pose proof (snap_behind now (next_time s) H). lia.
Qed.

(** ** One call of [step] *)

Lemma frequency_ok_sixty : frequency_ok F32.sixty.
Proof. unfold frequency_ok. change (wave_length F32.sixty) with 800. rewrite TBL_val. lia. Qed.

Lemma writer_advances (w : Z) :
  0 <= w < TBL -> 0 <= move_index w ABL TBL < TBL.
Proof.
  rewrite TBL_val, ABL_val. intros Hw.
  rewrite move_index_mod;
    [ apply Z.mod_pos_bound; lia | rewrite INT_MAX_val; lia
    | unfold is_int; rewrite INT_MIN_val, INT_MAX_val; lia | lia ].
Qed.

Lemma xcorr_result_range (w r frame_id : Z) (prev_buff : list (list f32))
    (buff : list f32) (channel_max : f32) :
  0 <= r < TBL ->
  0 <= cross_correlation_sync w r HISTORY_SEARCH_RANGE prev_buff frame_id buff
         channel_max < TBL.
Proof.
  intros Hr.
  destruct (xcorr_result_in_window w r HISTORY_SEARCH_RANGE frame_id prev_buff
              buff channel_max Hr) as (i & _ & -> & _).
  { change HISTORY_SEARCH_GRANULARITY with 3.
    change HISTORY_SEARCH_RANGE with 350. rewrite TBL_val. lia. }
  apply Z.mod_pos_bound. rewrite TBL_val. lia.
Qed.

(** The reader advance of a cycle returns on a well-formed state. *)
Lemma advance_in_cycle (w r : Z) (freq : f32) (fuel : nat) :
  0 <= w < TBL -> 0 <= r < TBL -> frequency_ok freq ->
  (Z.to_nat (2 * TBL) <= fuel)%nat ->
  exists r',
    advance_index fuel w r freq TBL = Some r'
    /\ 0 <= r' < TBL
    /\ VL <= dist_forward r' w TBL.
Proof.
  intros Hw Hr Hf Hfuel. unfold frequency_ok in Hf.
  pose proof (gcd_below_half _ _ Hf) as Hg.
  assert (Ht : TBL = 8192) by reflexivity.
  assert (Hv : VL = 1024) by reflexivity.
  destruct (advance_reaches_safe_point TBL w (wave_length freq)
              ltac:(lia) Hw Hf ltac:(lia) r freq eq_refl Hr)
    as (r' & k & Hrun & Hsafe & _ & Heq).
  exists r'. split; [apply Hrun; exact Hfuel |]. split; [| exact Hsafe].
  rewrite Heq. apply Z.mod_pos_bound. lia.
Qed.

Lemma step_never_exits (E : Externals) (fuel : nat) (pcm_l pcm_r : list f32)
    (now : Z) (s : AudioProcess) (code : Z) :
  step E fuel pcm_l pcm_r now s <> Exited code.
Proof.
  unfold step.
  destruct (now >? snap now (next_time s)); [| discriminate].
  destruct (advance_index fuel _ (reader_l s) _ _); [| discriminate].
  destruct (advance_index fuel _ (reader_r s) _ _); discriminate.
Qed.

Lemma steps_never_exit (E : Externals) (fuel : nat)
    (inputs : list (list f32 * list f32 * Z)) :
  forall (s : AudioProcess) (code : Z), steps E fuel inputs s <> Exited code.
Proof.
  induction inputs as [| [[pcm_l pcm_r] now] rest IH]; intros s code.
  - discriminate.
  - cbn [steps].
    destruct (step E fuel pcm_l pcm_r now s) as [s' | c |] eqn:Hstep.
    + apply IH.
    + exfalso. exact (step_never_exits _ _ _ _ _ _ _ Hstep).
    + discriminate.
Qed.

(** A call that finds the clock at or before the target: no cycle. *)
Lemma step_idle (E : Externals) (fuel : nat) (pcm_l pcm_r : list f32)
    (now : Z) (s : AudioProcess) :
  now <= next_time s ->
  exists s',
    step E fuel pcm_l pcm_r now s = Returned s'
    /\ writer s' = move_index (writer s) ABL TBL
    /\ frame_id s' = frame_id s
    /\ next_time s' = next_time s
    /\ _60fpsDura s' = _60fpsDura s
    /\ reader_l s' = reader_l s
    /\ reader_r s' = reader_r s
    /\ audio_sink s' = audio_sink s
    /\ (well_formed E s -> well_formed E s').
Proof.
  intros Hle. unfold step.
  rewrite (snap_ahead _ _ Hle).
  assert (Hcmp : (now >? next_time s) = false).
  { rewrite Z.gtb_ltb. apply Z.ltb_ge. exact Hle. }
  rewrite Hcmp. eexists. split; [reflexivity |]. cbn.
  repeat (split; [reflexivity |]).
  intros (Hw & Hl & Hr & Hfl & Hfr & Hlock).
  unfold well_formed. cbn.
  split; [apply writer_advances; exact Hw |].
  repeat (split; [assumption |]). assumption.
Qed.

(** A call that finds the clock past the target: one cycle. *)
Lemma step_cycle (E : Externals) (fuel : nat) (pcm_l pcm_r : list f32)
    (now : Z) (s : AudioProcess) :
  well_formed E s -> (Z.to_nat (2 * TBL) <= fuel)%nat ->
  next_time s < now ->
  exists r_l r_r s',
    advance_index fuel (move_index (writer s) ABL TBL) (reader_l s) (freq_l s) TBL
    = Some r_l
    /\ advance_index fuel (move_index (writer s) ABL TBL) (reader_r s) (freq_r s) TBL
       = Some r_r
    /\ VL <= dist_forward r_l (move_index (writer s) ABL TBL) TBL
    /\ VL <= dist_forward r_r (move_index (writer s) ABL TBL) TBL
    /\ step E fuel pcm_l pcm_r now s = Returned s'
    /\ writer s' = move_index (writer s) ABL TBL
    /\ reader_l s'
       = (if xcorr_sync s
          then cross_correlation_sync (writer s') r_l HISTORY_SEARCH_RANGE
                 (prev_buff_l s) (frame_id s)
                 (store_chunk (audio_buff_l s) (writer s) pcm_l) (channel_max_l s)
          else r_l)
    /\ reader_r s'
       = (if xcorr_sync s
          then cross_correlation_sync (writer s') r_r HISTORY_SEARCH_RANGE
                 (prev_buff_r s) (frame_id s)
                 (store_chunk (audio_buff_r s) (writer s) pcm_r) (channel_max_r s)
          else r_r)
    /\ frame_id s' = (frame_id s + 1)%int
    /\ next_time s' = snap now (next_time s) + _60fpsDura s
    /\ _60fpsDura s' = _60fpsDura s
    /\ well_formed E s'.
Proof.
  intros (Hw & Hl & Hr & Hfl & Hfr & Hlock) Hfuel Hlate.
  pose proof (writer_advances _ Hw) as Hw'.
  destruct (advance_in_cycle _ _ _ fuel Hw' Hl Hfl Hfuel) as (r_l & Hal & Hrl & Hsl).
  destruct (advance_in_cycle _ _ _ fuel Hw' Hr Hfr Hfuel) as (r_r & Har & Hrr & Hsr).
  assert (Hcmp : (now >? snap now (next_time s)) = true).
  { rewrite Z.gtb_ltb. apply Z.ltb_lt.
    pose proof (snap_behind _ _ Hlate). lia. }
  exists r_l, r_r. unfold step.
  rewrite Hcmp, Hal, Har. cbn [of_loop bind].
  eexists. do 2 (split; [reflexivity |]). do 2 (split; [assumption |]).
  split; [reflexivity |].
  unfold well_formed.
  cbn [writer reader_l reader_r frame_id next_time _60fpsDura freq_l freq_r
       fft_sync xcorr_sync].
  do 6 (split; [reflexivity |]).
  split; [exact Hw' |]. split; [| split].
  - destruct (xcorr_sync s); [apply xcorr_result_range |]; exact Hrl.
  - destruct (xcorr_sync s); [apply xcorr_result_range |]; exact Hrr.
  - destruct (fft_sync s) eqn:Hsync.
    + split; [apply (Hlock eq_refl) |]. split; [apply (Hlock eq_refl) | exact Hlock].
    + split; [apply frequency_ok_sixty |]. split; [apply frequency_ok_sixty |].
      intros; discriminate.
Qed.

(** Without cross-correlation the reader that a cycle leaves is at least
    [VL] behind the writer. *)
Lemma step_margin_without_xcorr (E : Externals) (fuel : nat)
    (pcm_l pcm_r : list f32) (now : Z) (s : AudioProcess) :
  well_formed E s -> (Z.to_nat (2 * TBL) <= fuel)%nat ->
  next_time s < now -> xcorr_sync s = false ->
  exists s',
    step E fuel pcm_l pcm_r now s = Returned s'
    /\ VL <= dist_forward (reader_l s') (writer s') TBL
    /\ VL <= dist_forward (reader_r s') (writer s') TBL.
Proof.
  intros Hwf Hfuel Hlate Hx.
  destruct (step_cycle E fuel pcm_l pcm_r now s Hwf Hfuel Hlate)
    as (r_l & r_r & s' & _ & _ & Hsl & Hsr & Hstep & Hw & Hl & Hr & _).
  exists s'. rewrite Hx in Hl, Hr. rewrite Hl, Hr, Hw. auto.
Qed.

(** Calls at readings one period apart, the first one past the target: one
    cycle per call, and the target moves by one period per call after the
    backlog test of the first call. *)
Lemma paced_run (E : Externals) (fuel : nat) :
  (Z.to_nat (2 * TBL) <= fuel)%nat ->
  forall (pcms : list (list f32 * list f32)) (s : AudioProcess) (now : Z),
    well_formed E s -> next_time s < now ->
    INT_MIN <= frame_id s ->
    frame_id s + Z.of_nat (length pcms) <= INT_MAX ->
    exists s',
      steps E fuel (paced_inputs pcms now (_60fpsDura s)) s = Returned s'
      /\ frame_id s' = frame_id s + Z.of_nat (length pcms)
      /\ (pcms <> [] ->
          next_time s'
          = snap now (next_time s) + Z.of_nat (length pcms) * _60fpsDura s).
Proof.
  intros Hfuel. induction pcms as [| [pcm_l pcm_r] rest IH];
    intros s now Hwf Hlate Hlo Hhi.
  - exists s. cbn. split; [reflexivity |]. split; [lia | congruence].
  - cbn [paced_inputs steps length] in *.
    destruct (step_cycle E fuel pcm_l pcm_r now s Hwf Hfuel Hlate)
      as (r_l & r_r & s1 & _ & _ & _ & _ & Hstep & _ & _ & _ & Hfid & Hnext & Hp & Hwf1).
    rewrite Hstep. cbn [bind].
    unfold int_add in Hfid.
    rewrite wrap_int_id in Hfid by (unfold is_int; lia).
    pose proof (snap_behind _ _ Hlate) as Hsnap.
    destruct (IH s1 (now + _60fpsDura s) Hwf1) as (s' & Hrun & Hfid' & Hnext').
    { lia. }
    { lia. }
    { lia. }
    exists s'. rewrite Hp in Hrun. split; [exact Hrun |]. split; [lia |].
    intros _. destruct rest as [| p rest'].
    + cbn in Hrun. injection Hrun as <-. rewrite Hnext. cbn [length]. lia.
    + rewrite Hnext' by discriminate.
      rewrite snap_near by lia. rewrite Hnext, Hp. cbn [length]. lia.
Qed.

(** C4, as the code has it.  A call of [step] runs a processing cycle exactly
    when the clock reading is strictly past the target.  A call at or before
    the target leaves the frame counter, the target, the readers and the sink
    as they are.  A call past the target adds one to the frame counter and
    sets the target to one period after the old target, or after [now - 1 ms]
    when the reading was more than 60 ms past it.  Calls at readings exactly
    one period apart, the first of them past the target, run one cycle each:
    after [n] calls the counter has advanced by [n] and the target by [n]
    periods. *)
Theorem step_pacing (E : Externals) (fuel : nat) (s : AudioProcess) :
  well_formed E s -> (Z.to_nat (2 * TBL) <= fuel)%nat ->
  INT_MIN <= frame_id s ->
  (forall now, cycle_runs now s = true <-> next_time s < now)
  /\ (forall pcm_l pcm_r now, now <= next_time s ->
        exists s',
          step E fuel pcm_l pcm_r now s = Returned s'
          /\ frame_id s' = frame_id s
          /\ next_time s' = next_time s
          /\ reader_l s' = reader_l s
          /\ reader_r s' = reader_r s
          /\ audio_sink s' = audio_sink s)
  /\ (forall pcm_l pcm_r now, next_time s < now -> frame_id s < INT_MAX ->
        exists s',
          step E fuel pcm_l pcm_r now s = Returned s'
          /\ frame_id s' = frame_id s + 1
          /\ next_time s'
             = (if now - next_time s >? milliseconds 60
                then now - milliseconds 1
                else next_time s) + _60fpsDura s)
  /\ (forall pcms now, next_time s < now ->
        frame_id s + Z.of_nat (length pcms) <= INT_MAX ->
        exists s',
          steps E fuel (paced_inputs pcms now (_60fpsDura s)) s = Returned s'
          /\ frame_id s' = frame_id s + Z.of_nat (length pcms)
          /\ (pcms <> [] ->
              next_time s'
              = snap now (next_time s)
                + Z.of_nat (length pcms) * _60fpsDura s)).
Proof.
  intros Hwf Hfuel Hlo. split; [| split; [| split]].
  - intros now. apply cycle_runs_iff.
  - intros pcm_l pcm_r now Hle.
    destruct (step_idle E fuel pcm_l pcm_r now s Hle)
      as (s' & Hstep & _ & Hfid & Hnext & _ & Hl & Hr & Hsink & _).
    exists s'. repeat split; assumption.
  - intros pcm_l pcm_r now Hlate Hhi.
    destruct (step_cycle E fuel pcm_l pcm_r now s Hwf Hfuel Hlate)
      as (r_l & r_r & s' & _ & _ & _ & _ & Hstep & _ & _ & _ & Hfid & Hnext & _).
    exists s'. split; [exact Hstep |]. split.
    + rewrite Hfid. unfold int_add. apply wrap_int_id. unfold is_int. lia.
    + exact Hnext.
  - intros pcms now Hlate Hhi.
    exact (paced_run E fuel Hfuel pcms s now Hwf Hlate Hlo Hhi).
Qed.

Lemma initial_state_well_formed (E : Externals) (opts : AudioOptions) :
  opt_fft_sync opts = false -> well_formed E (initial_state E opts).
Proof.
  intros Hsync. unfold well_formed. cbn [initial_state writer reader_l reader_r freq_l freq_r fft_sync].
  rewrite TBL_val.
  repeat (split; [first [lia | apply frequency_ok_sixty] |]).
  rewrite Hsync. discriminate.
Qed.

Lemma step_pacing_witness :
  let E := stub_externals in
  let fuel := Z.to_nat (2 * TBL) in
  let s := initial_state stub_externals options_plain in
  (forall now, cycle_runs now s = true <-> next_time s < now)
  /\ (forall pcm_l pcm_r now, now <= next_time s ->
        exists s',
          step E fuel pcm_l pcm_r now s = Returned s'
          /\ frame_id s' = frame_id s
          /\ next_time s' = next_time s
          /\ reader_l s' = reader_l s
          /\ reader_r s' = reader_r s
          /\ audio_sink s' = audio_sink s)
  /\ (forall pcm_l pcm_r now, next_time s < now -> frame_id s < INT_MAX ->
        exists s',
          step E fuel pcm_l pcm_r now s = Returned s'
          /\ frame_id s' = frame_id s + 1
          /\ next_time s'
             = (if now - next_time s >? milliseconds 60
                then now - milliseconds 1
                else next_time s) + _60fpsDura s)
  /\ (forall pcms now, next_time s < now ->
        frame_id s + Z.of_nat (length pcms) <= INT_MAX ->
        exists s',
          steps E fuel (paced_inputs pcms now (_60fpsDura s)) s = Returned s'
          /\ frame_id s' = frame_id s + Z.of_nat (length pcms)
          /\ (pcms <> [] ->
              next_time s'
              = snap now (next_time s)
                + Z.of_nat (length pcms) * _60fpsDura s)).
Proof.
  apply (step_pacing stub_externals (Z.to_nat (2 * TBL))
           (initial_state stub_externals options_plain)).
  - apply initial_state_well_formed. reflexivity.
  - apply Nat.le_refl.
  - cbn [initial_state frame_id]. rewrite INT_MIN_val. lia.
Defined.

(** C4, as the claim states it, fails when the reading equals the target.
    The constructor sets the target one period (16666668 ns) after the epoch;
    a first call of [step] at exactly that reading has reached the target and
    runs no cycle: the frame counter stays at 0 and the target is not
    advanced. *)
Lemma step_at_target_idles :
  next_time (initial_state stub_externals options_plain) = 16666668
  /\ cycle_runs 16666668 (initial_state stub_externals options_plain) = false
  /\ returned_with
       (fun s' => frame_id s' = 0 /\ next_time s' = 16666668)
       (step stub_externals (Z.to_nat (2 * TBL)) silence silence 16666668
          (initial_state stub_externals options_plain)).
Proof.
  assert (Hnext : next_time (initial_state stub_externals options_plain) = 16666668)
    by reflexivity.
  split; [exact Hnext |]. split; [reflexivity |].
  destruct (step_idle stub_externals (Z.to_nat (2 * TBL)) silence silence 16666668
              (initial_state stub_externals options_plain))
    as (s' & Hstep & _ & Hfid & Hn & _).
  { rewrite Hnext. lia. }
  rewrite Hstep. cbn [returned_with]. rewrite Hfid, Hn. split; reflexivity.
Qed.

(** ** Construction *)

(** C7.  A stream whose sample rate is not 48000 or whose maximal chunk is
    shorter than [ABL] makes the constructor exit with status 1: no state is
    returned, so no cycle can run.  With a conforming stream the constructor
    returns the initial state, in which no frame has been emitted, and no run
    of [step] from it exits. *)
Theorem constructor_contract (E : Externals) (audio_stream : AudioStream)
    (audio_options : AudioOptions) :
  ((get_sample_rate audio_stream <> 48000
    \/ get_max_buff_size audio_stream < ABL) ->
   AudioProcess_new E audio_stream audio_options = Exited 1)
  /\ (get_sample_rate audio_stream = 48000 ->
      ABL <= get_max_buff_size audio_stream ->
      AudioProcess_new E audio_stream audio_options
      = Returned (initial_state E audio_options)
      /\ frame_id (initial_state E audio_options) = 0
      /\ forall fuel inputs code,
           steps E fuel inputs (initial_state E audio_options) <> Exited code).
Proof.
  unfold AudioProcess_new. split.
  - intros [Hrate | Hsize].
    + destruct (Z.eqb_spec (get_sample_rate audio_stream) 48000); [contradiction |].
      reflexivity.
    + destruct (get_sample_rate audio_stream =? 48000); [| reflexivity].
      cbn [negb]. destruct (Z.ltb_spec (get_max_buff_size audio_stream) ABL);
        [reflexivity | lia].
  - intros Hrate Hsize. rewrite Hrate. cbn [Z.eqb Pos.eqb negb].
    destruct (Z.ltb_spec (get_max_buff_size audio_stream) ABL); [lia |].
    split; [reflexivity |]. split; [reflexivity |].
    intros fuel inputs code. apply steps_never_exit.
Qed.

Lemma constructor_contract_witness :
  AudioProcess_new stub_externals stream_44k options_plain = Exited 1
  /\ (AudioProcess_new stub_externals stream_48k options_plain
      = Returned (initial_state stub_externals options_plain)
      /\ frame_id (initial_state stub_externals options_plain) = 0
      /\ forall fuel inputs code,
           steps stub_externals fuel inputs
             (initial_state stub_externals options_plain) <> Exited code).
Proof.
  split.
  - apply (proj1 (constructor_contract stub_externals stream_44k options_plain)).
    left. cbn. discriminate.
  - apply (proj2 (constructor_contract stub_externals stream_48k options_plain)).
    + reflexivity.
    + cbn. rewrite ABL_val. lia.
Defined.

(** ** A run on a silent stream *)

Lemma for_range_ext {S : Type} (body1 body2 : Z -> S -> S) (n : nat) :
  (forall i s, body1 i s = body2 i s) ->
  forall start s, for_range start n body1 s = for_range start n body2 s.
Proof.
  intros Hext. induction n as [| n IH]; intros start s; [reflexivity |].
  cbn [for_range]. rewrite Hext. apply IH.
Qed.

Lemma silent_get (buff : list f32) (i : Z) :
  silent buff -> array_get F32.zero buff i = F32.zero.
Proof.
  unfold silent, array_get. intros Hs.
  destruct (nth_in_or_default (Z.to_nat i) buff F32.zero) as [Hin | Hd];
    [| exact Hd].
  rewrite Forall_forall in Hs. apply Hs. exact Hin.
Qed.

Lemma zeros_silent (n : Z) : silent (zeros F32.zero n).
Proof.
  unfold silent, zeros. induction (Z.to_nat n); cbn; constructor; auto.
Qed.

Lemma list_set_silent (buff : list f32) :
  silent buff -> forall n, silent (list_set buff n F32.zero).
Proof.
  unfold silent. induction 1 as [| x l Hx Hl IH]; intros n.
  - destruct n; constructor.
  - destruct n; cbn; constructor; auto.
Qed.

Lemma array_set_silent (buff : list f32) (i : Z) :
  silent buff -> silent (array_set buff i F32.zero).
Proof.
  intros Hs. unfold array_set. destruct (i <? 0); [exact Hs |].
  apply list_set_silent. exact Hs.
Qed.

Lemma store_chunk_silent (buff : list f32) (w : Z) :
  silent buff -> silent (store_chunk buff w silence).
Proof.
  intros Hs. unfold store_chunk, for_to.
  apply (for_range_invariant (fun _ b => silent b)); [exact Hs |].
  intros k b _ Hb.
  rewrite (silent_get silence) by apply zeros_silent.
  apply array_set_silent. exact Hb.
Qed.

(** On a silent buffer the score does not depend on the candidate. *)
Lemma history_score_on_silence (prev_buff : list (list f32)) (frame_id : Z)
    (buff : list f32) (channel_max : f32) (r r' : Z) :
  silent buff ->
  history_score prev_buff frame_id buff channel_max r
  = history_score prev_buff frame_id buff channel_max r'.
Proof.
  intros Hs. unfold history_score, for_to.
  apply for_range_ext. intros b md. cbv zeta. f_equal.
  unfold reverse_dot_prod, for_to.
  apply for_range_ext. intros i acc. cbv zeta.
  rewrite !(silent_get buff) by exact Hs. reflexivity.
Qed.

(** On a silent buffer the synchroniser returns the first candidate. *)
Lemma xcorr_on_silence (w r dist frame_id : Z) (prev_buff : list (list f32))
    (buff : list f32) (channel_max : f32) :
  silent buff ->
  cross_correlation_sync w r dist prev_buff frame_id buff channel_max
  = move_index r (Z.quot (- dist)%int 2) TBL.
Proof.
  intros Hs. unfold cross_correlation_sync, for_to.
  set (r0 := move_index r (Z.quot (- dist)%int 2) TBL).
  set (c := history_score prev_buff frame_id buff channel_max r0).
  refine (proj1 (for_range_invariant
            (fun k v =>
               xc_max_r v = r0
               /\ ((k = 0%nat /\ xc_r v = r0 /\ xc_max_md v = F32.neg_infinity)
                   \/ xc_max_md v = c
                   \/ (xc_max_md v = F32.neg_infinity
                       /\ F32.gt c F32.neg_infinity = false)))
            _ _ 0 _ _ _)).
  - cbn. auto.
  - intros k v _ (Hmax & Hcases). unfold xcorr_body.
    rewrite (history_score_on_silence _ _ _ _ (xc_r v) r0 Hs). fold c.
    cbn [xc_r xc_max_r xc_max_md].
    destruct Hcases as [(_ & Hr & Hmd) | [Hmd | (Hmd & Hno)]].
    + rewrite Hmd, Hr. destruct (c >? F32.neg_infinity)%f32 eqn:Hhit; auto.
    + rewrite Hmd. unfold F32.gt. rewrite SFltb_irrefl. auto.
    + rewrite Hmd, Hno. auto.
Qed.

(** On a silent run [step] moves the cursors as [silent_step] does. *)
Lemma step_on_silence (E : Externals) (fuel : nat) (now : Z) (s : AudioProcess)
    (c' : cursors) :
  silent_state s ->
  silent_step fuel (_60fpsDura s) now (cursors_of s) = Some c' ->
  exists s',
    step E fuel silence silence now s = Returned s'
    /\ silent_state s'
    /\ cursors_of s' = c'
    /\ _60fpsDura s' = _60fpsDura s.
Proof.
  intros (Hx & Hf & Hfl & Hfr & Hbl & Hbr) Hstep.
  pose proof (store_chunk_silent _ (writer s) Hbl) as Hbl'.
  pose proof (store_chunk_silent _ (writer s) Hbr) as Hbr'.
  unfold silent_step in Hstep.
  cbn [cursors_of cur_writer cur_reader_l cur_reader_r cur_next_time cur_frame_id]
    in Hstep.
  unfold step. rewrite Hfl, Hfr.
  destruct (now >? snap now (next_time s)).
  - destruct (advance_index fuel _ (reader_l s) _ _) as [r_l |]; [| discriminate].
    destruct (advance_index fuel _ (reader_r s) _ _) as [r_r |]; [| discriminate].
    injection Hstep as <-. cbn [of_loop bind].
    eexists. split; [reflexivity |]. unfold silent_state, cursors_of.
    cbn [xcorr_sync fft_sync freq_l freq_r audio_buff_l audio_buff_r writer
         reader_l reader_r next_time frame_id _60fpsDura].
    rewrite Hx, Hf, !xcorr_on_silence by assumption.
    repeat split; assumption.
  - injection Hstep as <-.
    eexists. split; [reflexivity |]. unfold silent_state, cursors_of.
    cbn [xcorr_sync fft_sync freq_l freq_r audio_buff_l audio_buff_r writer
         reader_l reader_r next_time frame_id _60fpsDura].
    repeat split; assumption.
Qed.

Lemma steps_on_silence (E : Externals) (fuel : nat) (nows : list Z) :
  forall (s : AudioProcess) (c' : cursors),
    silent_state s ->
    silent_steps fuel (_60fpsDura s) nows (cursors_of s) = Some c' ->
    exists s',
      steps E fuel (map (fun now => (silence, silence, now)) nows) s = Returned s'
      /\ silent_state s'
      /\ cursors_of s' = c'
      /\ _60fpsDura s' = _60fpsDura s.
Proof.
  induction nows as [| now rest IH]; intros s c' Hs Hrun.
  - cbn in *. injection Hrun as <-. exists s. auto.
  - cbn [silent_steps map steps] in *.
    destruct (silent_step fuel (_60fpsDura s) now (cursors_of s)) as [c1 |] eqn:H1;
      [| discriminate].
    destruct (step_on_silence E fuel now s c1 Hs H1) as (s1 & Hstep & Hs1 & Hc1 & Hp1).
    rewrite Hstep. cbn [bind].
    rewrite <- Hc1, <- Hp1 in Hrun.
    destruct (IH s1 c' Hs1 Hrun) as (s' & Hrest & Hs' & Hc' & Hp').
    exists s'. split; [exact Hrest |]. split; [exact Hs' |].
    split; [exact Hc' |]. rewrite Hp'. exact Hp1.
Qed.

Lemma initial_state_silent (E : Externals) (wave_smooth : f32) :
  silent_state (initial_state E (options_xcorr wave_smooth)).
Proof.
  unfold silent_state.
  cbn [initial_state options_xcorr xcorr_sync fft_sync freq_l freq_r
       audio_buff_l audio_buff_r opt_xcorr_sync opt_fft_sync].
  repeat split; apply zeros_silent.
Qed.

(** C1 fails on the code when cross-correlation is enabled.  The core is
    constructed with cross-correlation on and harmonic lock off and fed a
    silent stream in real time.  After twelve calls of [step] seven frames
    have been emitted; the thirteenth call runs the eighth cycle:
    [advance_index] moves the reader from 5975 to 6775, which is 8073 before
    the writer at 6656, and [cross_correlation_sync] then moves it back by
    175 to 6600, only 56 before the writer.  The window of [VL] samples
    emitted from 6600 crosses the write cursor. *)
Theorem xcorr_sync_breaks_margin (E : Externals) (wave_smooth : f32) :
  AudioProcess_new E stream_48k (options_xcorr wave_smooth)
  = Returned (initial_state E (options_xcorr wave_smooth))
  /\ returned_with
       (fun s12 =>
          frame_id s12 = 7 /\ writer s12 = 6144 /\ reader_l s12 = 5975
          /\ advance_index (Z.to_nat (2 * TBL)) 6656 (reader_l s12) (freq_l s12) TBL
             = Some 6775
          /\ dist_forward 6775 6656 TBL = 8073
          /\ returned_with
               (fun s13 =>
                  frame_id s13 = 8
                  /\ writer s13 = 6656
                  /\ reader_l s13 = 6600
                  /\ reader_r s13 = 6600
                  /\ dist_forward (reader_l s13) (writer s13) TBL = 56
                  /\ 56 < VL)
               (step E (Z.to_nat (2 * TBL)) silence silence (13 * chunk_time) s12))
       (steps E (Z.to_nat (2 * TBL)) (silent_inputs 12)
          (initial_state E (options_xcorr wave_smooth))).
Proof.
  split; [reflexivity |].
  set (s0 := initial_state E (options_xcorr wave_smooth)).
  set (fuel := Z.to_nat (2 * TBL)).
  assert (Hs0 : silent_state s0) by apply initial_state_silent.
  assert (Hin : silent_inputs 12
                = map (fun now => (silence, silence, now))
                    (map (fun k => k * chunk_time) [1; 2; 3; 4; 5; 6; 7; 8; 9; 10; 11; 12]))
    by reflexivity.
  rewrite Hin.
  destruct (steps_on_silence E fuel
              (map (fun k => k * chunk_time) [1; 2; 3; 4; 5; 6; 7; 8; 9; 10; 11; 12])
              s0
              {| cur_writer := 6144; cur_reader_l := 5975; cur_reader_r := 5975;
                 cur_next_time := 133333344; cur_frame_id := 7 |} Hs0)
    as (s12 & Hrun & Hs12 & Hc12 & Hp12).
  { change (_60fpsDura s0) with 16666668.
    change (cursors_of s0)
      with {| cur_writer := 0; cur_reader_l := 0; cur_reader_r := 0;
              cur_next_time := 16666668; cur_frame_id := 0 |}.
    vm_compute. reflexivity. }
  rewrite Hrun. cbn [returned_with].
  assert (Hfields : frame_id s12 = 7 /\ writer s12 = 6144 /\ reader_l s12 = 5975
                    /\ reader_r s12 = 5975 /\ next_time s12 = 133333344).
  { unfold cursors_of in Hc12. injection Hc12 as Hw Hl Hr Hn Hf. auto. }
  destruct Hfields as (Hf12 & Hw12 & Hl12 & Hr12 & Hn12).
  destruct Hs12 as (Hx & Hsync & Hfl & Hfr & Hbl & Hbr).
  split; [exact Hf12 |]. split; [exact Hw12 |]. split; [exact Hl12 |].
  rewrite Hl12, Hfl. split; [vm_compute; reflexivity |].
  split; [reflexivity |].
  destruct (step_on_silence E fuel (13 * chunk_time) s12
              {| cur_writer := 6656; cur_reader_l := 6600; cur_reader_r := 6600;
                 cur_next_time := 150000012; cur_frame_id := 8 |})
    as (s13 & Hstep & _ & Hc13 & _).
  { repeat split; assumption. }
  { unfold cursors_of. rewrite Hf12, Hw12, Hl12, Hr12, Hn12, Hp12.
    change (_60fpsDura s0) with 16666668.
    vm_compute. reflexivity. }
  rewrite Hstep. cbn [returned_with].
  unfold cursors_of in Hc13. injection Hc13 as Hw Hl Hr Hn Hf.
  rewrite Hf, Hw, Hl, Hr. repeat split.
Qed.

(** * Further properties of the code *)

(** ** Harmonic fold *)


(** ** Index arithmetic: round trips *)

(** X2.  In a buffer of capacity [c], moving a position forward by [d] with
    [0 <= d < c] lands at forward distance [d]; moving back by [d] undoes it,
    in either order. *)
Theorem move_index_round_trip (p d c : Z) :
  0 < c <= 2 ^ 30 -> 0 <= p < c -> 0 <= d < c ->
  dist_forward p (move_index p d c) c = d
  /\ move_index (move_index p d c) (- d)%int c = p
  /\ move_index (move_index p (- d)%int c) d c = p.
Proof.
  change (2 ^ 30) with 1073741824. intros Hc Hp Hd.
  assert (Hfwd : move_index p d c = (p + d) mod c).
  { apply move_index_mod; unfold is_int; rewrite ?INT_MAX_val, ?INT_MIN_val; lia. }
  assert (Hneg : (- d)%int = - d).
  { unfold int_neg. apply wrap_int_id. unfold is_int.
    rewrite INT_MIN_val, INT_MAX_val. lia. }
  assert (Hbwd : move_index p (- d) c = (p - d) mod c).
  { rewrite move_index_mod;
      [ f_equal; lia | rewrite INT_MAX_val; lia
      | unfold is_int; rewrite INT_MIN_val, INT_MAX_val; lia | lia ]. }
  pose proof (Z.mod_pos_bound (p + d) c ltac:(lia)) as Hb1.
  pose proof (Z.mod_pos_bound (p - d) c ltac:(lia)) as Hb2.
  rewrite Hneg, Hbwd, Hfwd. split; [| split].
  - rewrite dist_forward_mod by (rewrite ?INT_MAX_val; lia).
    rewrite mod_add_sub by lia. apply Z.mod_small. lia.
  - rewrite move_index_mod;
      [ | rewrite INT_MAX_val; lia
        | unfold is_int; rewrite INT_MIN_val, INT_MAX_val; lia | lia ].
    rewrite Zplus_mod_idemp_l.
    replace (p + d + - d) with p by lia. apply Z.mod_small. lia.
  - rewrite move_index_mod;
      [ | rewrite INT_MAX_val; lia
        | unfold is_int; rewrite INT_MIN_val, INT_MAX_val; lia | lia ].
    rewrite Zplus_mod_idemp_l.
    replace (p - d + d) with p by lia. apply Z.mod_small. lia.
Qed.

Lemma move_index_round_trip_witness :
  dist_forward 8000 (move_index 8000 800 8192) 8192 = 800
  /\ move_index (move_index 8000 800 8192) (- 800)%int 8192 = 8000
  /\ move_index (move_index 8000 (- 800)%int 8192) 800 8192 = 8000.
Proof.
  apply (move_index_round_trip 8000 800 8192);
    change (2 ^ 30) with 1073741824; lia.
Defined.

(** X3.  Forward distances add up around the buffer: for positions [a], [b],
    [e] of a buffer of capacity [c], the distance from [a] to [e] is the sum
    of the distances from [a] to [b] and from [b] to [e], reduced modulo
    [c]. *)
Theorem dist_forward_chain (a b e c : Z) :
  0 < c <= INT_MAX -> 0 <= a < c -> 0 <= b < c -> 0 <= e < c ->
  dist_forward a e c = (dist_forward a b c + dist_forward b e c) mod c.
Proof.
  intros Hc Ha Hb He.
  rewrite !dist_forward_mod by assumption.
  rewrite <- Zplus_mod. f_equal. lia.
Qed.

Lemma dist_forward_chain_witness :
  dist_forward 7000 100 8192
  = (dist_forward 7000 8000 8192 + dist_forward 8000 100 8192) mod 8192.
Proof.
  apply (dist_forward_chain 7000 8000 100 8192); rewrite ?INT_MAX_val; lia.
Defined.

(** ** Reader advance: the zero wavelength *)

(** X4.  A frequency so high that [int(SR / freq + .5f)] is 0 makes
    [advance_index] a no-op on a reader that is at least [VL] before the
    writer, and an endless loop on a reader that is closer: the loop moves the
    reader by 0 and tests the same distance again. *)
Theorem advance_index_zero_wavelength (w r tbl : Z) (freq : f32) :
  wave_length freq = 0 -> 0 < tbl <= INT_MAX -> 0 <= r < tbl ->
  (VL <= dist_forward r w tbl ->
   forall fuel, (0 < fuel)%nat -> advance_index fuel w r freq tbl = Some r)
  /\ (dist_forward r w tbl < VL ->
      forall fuel, advance_index fuel w r freq tbl = None).
Proof.
  intros Hlen Hc Hr. rewrite INT_MAX_val in Hc.
  assert (Hstay : move_index r 0 tbl = r).
  { rewrite move_index_mod;
      [ rewrite Z.add_0_r; apply Z.mod_small; lia | rewrite INT_MAX_val; lia
      | unfold is_int; rewrite INT_MIN_val, INT_MAX_val; lia | lia ]. }
  unfold advance_index. rewrite Hlen, Hstay. split.
  - intros Hsafe fuel Hfuel. destruct fuel as [| fuel]; [lia |].
    cbn [skip_discontinuity].
    destruct (Z.ltb_spec (dist_forward r w tbl) VL); [lia | reflexivity].
  - intros Hnear fuel. induction fuel as [| fuel IH]; [reflexivity |].
    cbn [skip_discontinuity].
    destruct (Z.ltb_spec (dist_forward r w tbl) VL); [| lia].
    rewrite Hstay. exact IH.
Qed.

Lemma advance_index_zero_wavelength_witness :
  (VL <= dist_forward 100 4096 8192 ->
   forall fuel, (0 < fuel)%nat ->
     advance_index fuel 4096 100 (F32.of_int 200000) 8192 = Some 100)
  /\ (dist_forward 100 4096 8192 < VL ->
      forall fuel, advance_index fuel 4096 100 (F32.of_int 200000) 8192 = None).
Proof.
  apply (advance_index_zero_wavelength 4096 100 8192 (F32.of_int 200000));
    [ reflexivity | rewrite INT_MAX_val; lia | lia ].
Defined.

(** ** Arrays *)

Lemma list_set_length {A : Type} (a : list A) (n : nat) (v : A) :
  length (list_set a n v) = length a.
Proof.
  revert n. induction a as [| h t IH]; intros n; [reflexivity |].
  destruct n; cbn; [reflexivity | rewrite IH; reflexivity].
Qed.

Lemma array_set_length {A : Type} (a : list A) (i : Z) (v : A) :
  length (array_set a i v) = length a.
Proof.
  unfold array_set. destruct (i <? 0); [reflexivity | apply list_set_length].
Qed.

Lemma nth_list_set_same {A : Type} (a : list A) (n : nat) (v d : A) :
  (n < length a)%nat -> nth n (list_set a n v) d = v.
Proof.
  revert n. induction a as [| h t IH]; intros n Hn; cbn in Hn; [lia |].
  destruct n; cbn; [reflexivity | apply IH; lia].
Qed.

Lemma nth_list_set_other {A : Type} (a : list A) (n m : nat) (v d : A) :
  n <> m -> nth m (list_set a n v) d = nth m a d.
Proof.
  revert n m. induction a as [| h t IH]; intros n m Hne.
  - destruct n; reflexivity.
  - destruct n, m; cbn; try reflexivity; [lia | apply IH; lia].
Qed.

Lemma array_get_set_same {A : Type} (a : list A) (i : Z) (v d : A) :
  0 <= i < Z.of_nat (length a) -> array_get d (array_set a i v) i = v.
Proof.
  intros Hi. unfold array_get, array_set.
  destruct (Z.ltb_spec i 0); [lia |]. apply nth_list_set_same. lia.
Qed.

Lemma array_get_set_other {A : Type} (a : list A) (i j : Z) (v d : A) :
  0 <= j -> i <> j -> array_get d (array_set a i v) j = array_get d a j.
Proof.
  intros Hj Hne. unfold array_get, array_set.
  destruct (Z.ltb_spec i 0); [reflexivity |]. apply nth_list_set_other. lia.
Qed.

(** A loop that writes [g i] at index [i] for [i] from 0 to [n - 1] fills the
    first [n] entries and leaves the others and the length as they are. *)
Lemma fill_loop {A : Type} (g : Z -> A) (d : A) (n : nat) (a0 : list A) :
  (n <= length a0)%nat ->
  let a := for_range 0 n (fun i a => array_set a i (g i)) a0 in
  length a = length a0
  /\ forall j, 0 <= j ->
       array_get d a j = if j <? Z.of_nat n then g j else array_get d a0 j.
Proof.
  intros Hn a. subst a.
  apply (for_range_invariant
           (fun k a =>
              length a = length a0
              /\ forall j, 0 <= j ->
                   array_get d a j
                   = if j <? Z.of_nat k then g j else array_get d a0 j)).
  - split; [reflexivity |]. intros j Hj.
    destruct (Z.ltb_spec j (Z.of_nat 0)); [lia | reflexivity].
  - intros k a Hk (Hlen & Hget). rewrite Z.add_0_l.
    split; [rewrite array_set_length; exact Hlen |].
    intros j Hj. destruct (Z.eq_dec j (Z.of_nat k)) as [-> | Hne].
    + rewrite array_get_set_same by lia.
      destruct (Z.ltb_spec (Z.of_nat k) (Z.of_nat (S k))); [reflexivity | lia].
    + rewrite array_get_set_other by lia. rewrite Hget by exact Hj.
      destruct (Z.ltb_spec j (Z.of_nat k)), (Z.ltb_spec j (Z.of_nat (S k)));
        try reflexivity; lia.
Qed.

Lemma array_get_nth {A : Type} (d : A) (a : list A) (n : nat) :
  array_get d a (Z.of_nat n) = nth n a d.
Proof. unfold array_get. rewrite Nat2Z.id. reflexivity. Qed.

(** ** History ring *)

(** What [remember] writes and what it leaves. *)
Lemma remember_slot (prev_buff : list (list f32)) (frame_id : Z)
    (audio : list f32) :
  0 <= frame_id ->
  Z.of_nat (length prev_buff) = HISTORY_NUM_FRAMES ->
  Z.of_nat (length (array_get [] prev_buff (Z.rem frame_id HISTORY_NUM_FRAMES))) = VL ->
  Z.of_nat (length audio) = VL ->
  let ring := remember prev_buff frame_id audio in
  array_get [] ring (Z.rem frame_id HISTORY_NUM_FRAMES) = audio
  /\ (forall slot, 0 <= slot -> slot <> Z.rem frame_id HISTORY_NUM_FRAMES ->
        array_get [] ring slot = array_get [] prev_buff slot)
  /\ length ring = length prev_buff.
Proof.
  change HISTORY_NUM_FRAMES with 7. rewrite VL_val.
  intros Hfid Hring Hrow Haudio ring. subst ring. unfold remember.
  change HISTORY_NUM_FRAMES with 7.
  set (slot := Z.rem frame_id 7) in *.
  assert (Hslot : 0 <= slot < 7) by (apply Z.rem_bound_pos; lia).
  set (row := array_get [] prev_buff slot) in *.
  clearbody row. clearbody slot. unfold f32 in *.
  destruct (fill_loop (fun i => array_get F32.zero audio i) F32.zero
              (Z.to_nat VL) row) as (Hlen & Hget).
  { rewrite VL_val. lia. }
  unfold for_to. split; [| split].
  - rewrite array_get_set_same by lia.
    apply nth_ext with (d := F32.zero) (d' := F32.zero).
    + rewrite Hlen. lia.
    + intros n Hn. rewrite <- !array_get_nth. rewrite Hget by lia.
      rewrite Hlen in Hn.
      destruct (Z.ltb_spec (Z.of_nat n) (Z.of_nat (Z.to_nat VL)));
        [reflexivity | rewrite VL_val in *; lia].
  - intros s Hs Hne. apply array_get_set_other; [exact Hs | congruence].
  - apply array_set_length.
Qed.

(** X5.  [remember] stores the waveform of frame [frame_id] in slot
    [frame_id % 7] of the history ring and touches no other slot: reading
    that slot back gives the waveform, every other slot reads as before and
    the ring keeps its length. *)
Theorem remember_round_trip (prev_buff : list (list f32)) (frame_id : Z)
    (audio : list f32) :
  0 <= frame_id ->
  Z.of_nat (length prev_buff) = HISTORY_NUM_FRAMES ->
  Z.of_nat (length (array_get [] prev_buff (Z.rem frame_id HISTORY_NUM_FRAMES))) = VL ->
  Z.of_nat (length audio) = VL ->
  let ring := remember prev_buff frame_id audio in
  array_get [] ring (Z.rem frame_id HISTORY_NUM_FRAMES) = audio
  /\ (forall slot, 0 <= slot -> slot <> Z.rem frame_id HISTORY_NUM_FRAMES ->
        array_get [] ring slot = array_get [] prev_buff slot)
  /\ length ring = length prev_buff.
Proof.
  exact (remember_slot prev_buff frame_id audio).
Qed.

Lemma remember_round_trip_witness :
  let prev := repeat (zeros F32.zero 1024) 7 in
  let audio := zeros F32.one 1024 in
  let ring := remember prev 9 audio in
  array_get [] ring (Z.rem 9 HISTORY_NUM_FRAMES) = audio
  /\ (forall slot, 0 <= slot -> slot <> Z.rem 9 HISTORY_NUM_FRAMES ->
        array_get [] ring slot = array_get [] prev slot)
  /\ length ring = length prev.
Proof.
  apply (remember_round_trip (repeat (zeros F32.zero 1024) 7) 9
           (zeros F32.one 1024));
    [ lia | reflexivity | reflexivity | reflexivity ].
Defined.

(** ** Emission loop *)

(** The sample of the sink that the emission loop writes at position [i]. *)
Lemma emit_loop (E : Externals) (audio_buff : list f32) (reader : Z)
    (channel_max wave_smoother : f32) (fft_out : list complex32)
    (audio freq : list f32) (n : nat) :
  (n <= length audio)%nat -> (n <= length freq)%nat ->
  let e := for_range 0 n
             (emit_body E audio_buff reader channel_max wave_smoother fft_out)
             {| ev_max_amplitude := F32.neg_infinity;
                ev_audio := audio; ev_freq := freq |} in
  length (ev_audio e) = length audio
  /\ length (ev_freq e) = length freq
  /\ (forall i, 0 <= i ->
        array_get F32.zero (ev_audio e) i
        = if i <? Z.of_nat n
          then mix (array_get F32.zero audio i)
                 (f_0_66 * window_sample audio_buff reader i
                  / (channel_max + f_0_0001))%f32 wave_smoother
          else array_get F32.zero audio i)
  /\ (forall i, 0 <= i ->
        array_get F32.zero (ev_freq e) i
        = if i <? Z.of_nat n
          then (cabsf E (array_get czero fft_out i)
                / F32.sqrt (F32.of_int FFTLEN))%f32
          else array_get F32.zero freq i)
  /\ (ev_max_amplitude e = F32.neg_infinity
      \/ exists j, 0 <= j < Z.of_nat n
           /\ ev_max_amplitude e = F32.abs (window_sample audio_buff reader j))
  /\ (forall j, 0 <= j < Z.of_nat n ->
        F32.gt (F32.abs (window_sample audio_buff reader j))
          (ev_max_amplitude e) = false).
Proof.
  intros Ha Hf e. subst e.
  apply (for_range_invariant
           (fun k e =>
              length (ev_audio e) = length audio
              /\ length (ev_freq e) = length freq
              /\ (forall i, 0 <= i ->
                    array_get F32.zero (ev_audio e) i
                    = if i <? Z.of_nat k
                      then mix (array_get F32.zero audio i)
                             (f_0_66 * window_sample audio_buff reader i
                              / (channel_max + f_0_0001))%f32 wave_smoother
                      else array_get F32.zero audio i)
              /\ (forall i, 0 <= i ->
                    array_get F32.zero (ev_freq e) i
                    = if i <? Z.of_nat k
                      then (cabsf E (array_get czero fft_out i)
                            / F32.sqrt (F32.of_int FFTLEN))%f32
                      else array_get F32.zero freq i)
              /\ (ev_max_amplitude e = F32.neg_infinity
                  \/ exists j, 0 <= j < Z.of_nat k
                       /\ ev_max_amplitude e
                          = F32.abs (window_sample audio_buff reader j))
              /\ (forall j, 0 <= j < Z.of_nat k ->
                    F32.gt (F32.abs (window_sample audio_buff reader j))
                      (ev_max_amplitude e) = false))).
  - cbn [ev_audio ev_freq ev_max_amplitude].
    repeat split; auto; intros i Hi; try lia.
    + destruct (Z.ltb_spec i (Z.of_nat 0)); [lia | reflexivity].
    + destruct (Z.ltb_spec i (Z.of_nat 0)); [lia | reflexivity].
  - intros k e Hk (Hla & Hlf & Hga & Hgf & Hpeak & Hbest).
    unfold f32 in *.
    rewrite Z.add_0_l. unfold emit_body.
    fold (window_sample audio_buff reader (Z.of_nat k)).
    cbn [ev_audio ev_freq ev_max_amplitude].
    split; [rewrite array_set_length; exact Hla |].
    split; [rewrite array_set_length; exact Hlf |].
    split; [| split; [| split]].
    + intros i Hi. destruct (Z.eq_dec i (Z.of_nat k)) as [-> | Hne].
      * rewrite array_get_set_same by lia.
        rewrite (Hga (Z.of_nat k)) by lia.
        destruct (Z.ltb_spec (Z.of_nat k) (Z.of_nat k)); [lia |].
        destruct (Z.ltb_spec (Z.of_nat k) (Z.of_nat (S k))); [reflexivity | lia].
      * rewrite array_get_set_other by lia. rewrite Hga by exact Hi.
        destruct (Z.ltb_spec i (Z.of_nat k)), (Z.ltb_spec i (Z.of_nat (S k)));
          try reflexivity; lia.
    + intros i Hi. destruct (Z.eq_dec i (Z.of_nat k)) as [-> | Hne].
      * rewrite array_get_set_same by lia.
        destruct (Z.ltb_spec (Z.of_nat k) (Z.of_nat (S k))); [reflexivity | lia].
      * rewrite array_get_set_other by lia. rewrite Hgf by exact Hi.
        destruct (Z.ltb_spec i (Z.of_nat k)), (Z.ltb_spec i (Z.of_nat (S k)));
          try reflexivity; lia.
    + destruct (_ >? _)%f32.
      * right. exists (Z.of_nat k). split; [lia | reflexivity].
      * destruct Hpeak as [Hinf | (j & Hj & Hm)]; [left; exact Hinf |].
        right. exists j. split; [lia | exact Hm].
    + intros j Hj. unfold F32.gt in *.
      destruct (SFltb (ev_max_amplitude e)
                  (F32.abs (window_sample audio_buff reader (Z.of_nat k))))
        eqn:Hhit.
      * destruct (Z.eq_dec j (Z.of_nat k)) as [-> | Hne];
          [apply SFltb_irrefl |].
        destruct (SFltb (F32.abs (window_sample audio_buff reader (Z.of_nat k)))
                    (F32.abs (window_sample audio_buff reader j))) eqn:Hgt;
          [| reflexivity].
        rewrite <- (Hbest j ltac:(lia)). symmetry.
        exact (SFltb_trans _ _ _ Hhit Hgt).
      * destruct (Z.eq_dec j (Z.of_nat k)) as [-> | Hne]; [exact Hhit |].
        apply Hbest. lia.
Qed.

(** X6.  The emission loop writes each of the [VL] entries of the waveform
    and of the spectrum once and keeps both arrays at their length: entry [i]
    of the waveform is the blend, by [wave_smoother], of its previous value
    with [.66 * sample / (channel_max + .0001)] for the sample at [i] of the
    window, and entry [i] of the spectrum is the magnitude of bin [i] divided
    by [sqrt(FFTLEN)]. *)
Theorem emit_writes_window (E : Externals) (audio_buff : list f32) (reader : Z)
    (channel_max wave_smoother : f32) (fft_out : list complex32)
    (audio freq : list f32) :
  Z.of_nat (length audio) = VL -> Z.of_nat (length freq) = VL ->
  let e := emit E audio_buff reader channel_max wave_smoother fft_out audio freq in
  Z.of_nat (length (ev_audio e)) = VL
  /\ Z.of_nat (length (ev_freq e)) = VL
  /\ forall i, 0 <= i < VL ->
       array_get F32.zero (ev_audio e) i
       = mix (array_get F32.zero audio i)
           (f_0_66 * window_sample audio_buff reader i
            / (channel_max + f_0_0001))%f32 wave_smoother
       /\ array_get F32.zero (ev_freq e) i
          = (cabsf E (array_get czero fft_out i) / F32.of_int 64)%f32.
Proof.
  intros Ha Hf e. subst e. unfold emit, for_to.
  destruct (emit_loop E audio_buff reader channel_max wave_smoother fft_out
              audio freq (Z.to_nat VL))
    as (Hla & Hlf & Hga & Hgf & _); try lia.
  cbv zeta in *. rewrite Hla, Hlf.
  split; [exact Ha |]. split; [exact Hf |].
  intros i Hi. rewrite Hga, Hgf by lia.
  destruct (Z.ltb_spec i (Z.of_nat (Z.to_nat VL))); [| lia].
  split; reflexivity.
Qed.

Lemma emit_writes_window_witness :
  let e := emit stub_externals [] 0 F32.one F32.half []
             (zeros F32.zero 1024) (zeros F32.zero 1024) in
  Z.of_nat (length (ev_audio e)) = VL
  /\ Z.of_nat (length (ev_freq e)) = VL
  /\ forall i, 0 <= i < VL ->
       array_get F32.zero (ev_audio e) i
       = mix (array_get F32.zero (zeros F32.zero 1024) i)
           (f_0_66 * window_sample [] 0 i / (F32.one + f_0_0001))%f32 F32.half
       /\ array_get F32.zero (ev_freq e) i
          = (cabsf stub_externals (array_get czero [] i) / F32.of_int 64)%f32.
Proof.
  apply (emit_writes_window stub_externals [] 0 F32.one F32.half []
           (zeros F32.zero 1024) (zeros F32.zero 1024)); reflexivity.
Defined.

(** X7.  The peak that the emission loop hands to the envelope is the
    magnitude of one of the [VL] samples of the window, and none of them
    exceeds it; it is minus infinity only when no sample compares greater
    than minus infinity (all samples are NaN). *)
Theorem emit_tracks_peak (E : Externals) (audio_buff : list f32) (reader : Z)
    (channel_max wave_smoother : f32) (fft_out : list complex32)
    (audio freq : list f32) :
  Z.of_nat (length audio) = VL -> Z.of_nat (length freq) = VL ->
  let peak :=
    ev_max_amplitude
      (emit E audio_buff reader channel_max wave_smoother fft_out audio freq) in
  (peak = F32.neg_infinity
   \/ exists j, 0 <= j < VL /\ peak = F32.abs (window_sample audio_buff reader j))
  /\ forall j, 0 <= j < VL ->
       F32.gt (F32.abs (window_sample audio_buff reader j)) peak = false.
Proof.
  intros Ha Hf peak. subst peak. unfold emit, for_to.
  destruct (emit_loop E audio_buff reader channel_max wave_smoother fft_out
              audio freq (Z.to_nat VL))
    as (_ & _ & _ & _ & Hpeak & Hbest); try lia.
  cbv zeta in *. rewrite Z2Nat.id in * by (rewrite VL_val; lia).
  split; assumption.
Qed.

Lemma emit_tracks_peak_witness :
  let peak :=
    ev_max_amplitude
      (emit stub_externals [] 0 F32.one F32.half []
         (zeros F32.zero 1024) (zeros F32.zero 1024)) in
  (peak = F32.neg_infinity
   \/ exists j, 0 <= j < VL /\ peak = F32.abs (window_sample [] 0 j))
  /\ forall j, 0 <= j < VL ->
       F32.gt (F32.abs (window_sample [] 0 j)) peak = false.
Proof.
  apply (emit_tracks_peak stub_externals [] 0 F32.one F32.half []
           (zeros F32.zero 1024) (zeros F32.zero 1024)); reflexivity.
Defined.

(** ** Spectral peak on an empty spectrum *)

(** X8.  When none of the first 101 bins has energy (every magnitude is
    [+0], as on silence), no bin is selected, the search falls back to bin 1,
    whose interpolated frequency is below the floor, and [max_frequency]
    returns exactly 10 Hz. *)
Theorem max_frequency_on_flat_spectrum (E : Externals) (f : list complex32) :
  (forall i, 0 <= i <= 100 -> magnitude E f i = F32.zero) ->
  max_bin E f = 0 /\ max_frequency E f = F32.ten.
Proof.
  intros Hflat.
  assert (Hbin : max_bin E f = 0).
  { unfold max_bin.
    match goal with
    | |- snd (for_range _ _ ?b _) = _ => set (body := b)
    end.
    assert (Hloop : forall n start,
              1 <= start -> start + Z.of_nat n <= 101 ->
              for_range start n body (F32.zero, 0) = (F32.zero, 0)).
    { induction n as [| n IH]; intros start Hs He; [reflexivity |].
      cbn [for_range].
      assert (Hb : body start (F32.zero, 0) = (F32.zero, 0)).
      { unfold body. cbv zeta. fold (magnitude E f start).
        rewrite Hflat by lia. reflexivity. }
      rewrite Hb. apply IH; lia. }
    rewrite Hloop by (cbn; lia). reflexivity. }
  split; [exact Hbin |].
  unfold max_frequency, interpolated_peak. rewrite Hbin.
  change (0 =? 0) with true. cbv iota zeta.
  change (1 - 1)%int with 0. change (1 + 1)%int with 2.
  fold (magnitude E f 0) (magnitude E f 1) (magnitude E f 2).
  rewrite !Hflat by lia. reflexivity.
Qed.

Lemma max_frequency_on_flat_spectrum_witness :
  max_bin stub_externals (zeros czero 2049) = 0
  /\ max_frequency stub_externals (zeros czero 2049) = F32.ten.
Proof.
  apply (max_frequency_on_flat_spectrum stub_externals (zeros czero 2049)).
  intros i Hi. unfold magnitude, array_get, zeros.
  destruct (Nat.lt_ge_cases (Z.to_nat i) (Z.to_nat 2049)) as [Hlt | Hge].
  - rewrite nth_repeat. reflexivity.
  - rewrite nth_overflow by (rewrite repeat_length; exact Hge). reflexivity.
Defined.

(** ** Cross-correlation: equal scores *)

Lemma xcorr_constant_score (w r dist frame_id : Z) (prev_buff : list (list f32))
    (buff : list f32) (channel_max : f32) :
  (forall r1 r2,
     history_score prev_buff frame_id buff channel_max r1
     = history_score prev_buff frame_id buff channel_max r2) ->
  cross_correlation_sync w r dist prev_buff frame_id buff channel_max
  = move_index r (Z.quot (- dist)%int 2) TBL.
Proof.
  intros Hconst. unfold cross_correlation_sync, for_to.
  set (r0 := move_index r (Z.quot (- dist)%int 2) TBL).
  set (c := history_score prev_buff frame_id buff channel_max r0).
  refine (proj1 (for_range_invariant
            (fun k v =>
               xc_max_r v = r0
               /\ ((k = 0%nat /\ xc_r v = r0 /\ xc_max_md v = F32.neg_infinity)
                   \/ xc_max_md v = c
                   \/ (xc_max_md v = F32.neg_infinity
                       /\ F32.gt c F32.neg_infinity = false)))
            _ _ 0 _ _ _)).
  - cbn. auto.
  - intros k v _ (Hmax & Hcases). unfold xcorr_body.
    rewrite (Hconst (xc_r v) r0). fold c.
    cbn [xc_r xc_max_r xc_max_md].
    destruct Hcases as [(_ & Hr & Hmd) | [Hmd | (Hmd & Hno)]].
    + rewrite Hmd, Hr. destruct (c >? F32.neg_infinity)%f32 eqn:Hhit; auto.
    + rewrite Hmd. unfold F32.gt. rewrite SFltb_irrefl. auto.
    + rewrite Hmd, Hno. auto.
Qed.

(** X9.  The scan of [cross_correlation_sync] replaces its best candidate
    only on a strictly greater score, so when all candidates score the same
    (or all scores are NaN) it returns the first one, half a search range
    behind the reader.  A silent capture buffer is such a case, whatever the
    history and the envelope hold. *)
Theorem xcorr_ties_return_first (w r dist frame_id : Z)
    (prev_buff : list (list f32)) (buff : list f32) (channel_max : f32) :
  ((forall r1 r2,
      history_score prev_buff frame_id buff channel_max r1
      = history_score prev_buff frame_id buff channel_max r2)
   \/ silent buff) ->
  cross_correlation_sync w r dist prev_buff frame_id buff channel_max
  = move_index r (Z.quot (- dist)%int 2) TBL.
Proof.
  intros [Hconst | Hs].
  - apply xcorr_constant_score. exact Hconst.
  - apply xcorr_constant_score. intros r1 r2.
    apply history_score_on_silence. exact Hs.
Qed.

Lemma xcorr_ties_return_first_witness :
  cross_correlation_sync 512 800 350
    (repeat (zeros F32.one 1024) 7) 3 (zeros F32.zero 8192) F32.half
  = move_index 800 (Z.quot (- 350)%int 2) TBL.
Proof.
  apply (xcorr_ties_return_first 512 800 350 3 (repeat (zeros F32.one 1024) 7)
           (zeros F32.zero 8192) F32.half).
  right. unfold silent, zeros. apply Forall_forall. intros x Hx.
  apply repeat_spec in Hx. exact Hx.
Defined.

(** ** The pacer: how far the target can lag *)

(** A call on a well-formed state, with or without a cycle. *)
Lemma step_any (E : Externals) (fuel : nat) (pcm_l pcm_r : list f32) (now : Z)
    (s : AudioProcess) :
  well_formed E s -> (Z.to_nat (2 * TBL) <= fuel)%nat ->
  exists s',
    step E fuel pcm_l pcm_r now s = Returned s'
    /\ well_formed E s'
    /\ writer s' = move_index (writer s) ABL TBL
    /\ _60fpsDura s' = _60fpsDura s
    /\ ((now <= next_time s /\ frame_id s' = frame_id s
         /\ next_time s' = next_time s /\ audio_sink s' = audio_sink s
         /\ reader_l s' = reader_l s /\ reader_r s' = reader_r s)
        \/ (next_time s < now /\ frame_id s' = (frame_id s + 1)%int
            /\ next_time s' = snap now (next_time s) + _60fpsDura s)).
Proof.
  intros Hwf Hfuel.
  destruct (Z.le_gt_cases now (next_time s)) as [Hle | Hgt].
  - destruct (step_idle E fuel pcm_l pcm_r now s Hle)
      as (s' & Hstep & Hw & Hfid & Hnext & Hp & Hl & Hr & Hsink & Hwf').
    exists s'. split; [exact Hstep |]. split; [exact (Hwf' Hwf) |].
    split; [exact Hw |]. split; [exact Hp |]. left. auto 10.
  - destruct (step_cycle E fuel pcm_l pcm_r now s Hwf Hfuel ltac:(lia))
      as (r_l & r_r & s' & _ & _ & _ & _ & Hstep & Hw & _ & _ & Hfid & Hnext & Hp & Hwf').
    exists s'. split; [exact Hstep |]. split; [exact Hwf' |].
    split; [exact Hw |]. split; [exact Hp |]. right.
    split; [lia |]. split; assumption.
Qed.

(** X10.  A call that finds the clock at or before the target leaves the
    target alone.  After a call that runs a cycle the target lies between
    [now - 60 ms + period] and [now + period]: however long the caller was
    away, the pacer never owes more than 60 ms of frames. *)
Theorem target_lag_bounded (E : Externals) (fuel : nat)
    (pcm_l pcm_r : list f32) (now : Z) (s : AudioProcess) :
  well_formed E s -> (Z.to_nat (2 * TBL) <= fuel)%nat ->
  exists s',
    step E fuel pcm_l pcm_r now s = Returned s'
    /\ (now <= next_time s -> next_time s' = next_time s)
    /\ (next_time s < now ->
        now - milliseconds 60 + _60fpsDura s <= next_time s'
        /\ next_time s' < now + _60fpsDura s).
Proof.
  intros Hwf Hfuel.
  destruct (step_any E fuel pcm_l pcm_r now s Hwf Hfuel)
    as (s' & Hstep & _ & _ & _ & Hcases).
  exists s'. split; [exact Hstep |].
  destruct Hcases as [(Hle & _ & Hnext & _) | (Hgt & _ & Hnext)].
  - split; [intros _; exact Hnext | lia].
  - split; [lia |]. intros _. rewrite Hnext.
    pose proof (snap_behind _ _ Hgt). lia.
Qed.

Lemma target_lag_bounded_witness :
  exists s',
    step stub_externals (Z.to_nat (2 * TBL)) silence silence 5000000000
      (initial_state stub_externals options_plain) = Returned s'
    /\ (5000000000 <= next_time (initial_state stub_externals options_plain) ->
        next_time s' = next_time (initial_state stub_externals options_plain))
    /\ (next_time (initial_state stub_externals options_plain) < 5000000000 ->
        5000000000 - milliseconds 60
        + _60fpsDura (initial_state stub_externals options_plain)
        <= next_time s'
        /\ next_time s'
           < 5000000000 + _60fpsDura (initial_state stub_externals options_plain)).
Proof.
  apply (target_lag_bounded stub_externals (Z.to_nat (2 * TBL)) silence silence
           5000000000 (initial_state stub_externals options_plain)).
  - apply initial_state_well_formed. reflexivity.
  - apply Nat.le_refl.
Defined.

(** Calls at one reading, on a state that is at most [m] periods and at most
    60 ms late: at most [m] cycles run, and after [m] calls none is due. *)
Lemma burst_at_most (E : Externals) (fuel : nat) (now : Z) :
  (Z.to_nat (2 * TBL) <= fuel)%nat ->
  forall (pcms : list (list f32 * list f32)) (m : nat) (s : AudioProcess),
    well_formed E s -> _60fpsDura s = 16666668 ->
    now - next_time s <= Z.of_nat m * 16666668 ->
    now - next_time s <= milliseconds 60 ->
    INT_MIN <= frame_id s -> frame_id s + Z.of_nat m <= INT_MAX ->
    exists s' k,
      steps E fuel (paced_inputs pcms now 0) s = Returned s'
      /\ 0 <= k <= Z.of_nat m
      /\ frame_id s' = frame_id s + k
      /\ ((m <= length pcms)%nat -> now <= next_time s').
Proof.
  intros Hfuel. induction pcms as [| [pcm_l pcm_r] rest IH];
    intros m s Hwf Hp Hlate Hnear Hlo Hhi.
  - exists s, 0. cbn [paced_inputs steps length].
    split; [reflexivity |]. split; [lia |]. split; [lia |]. intros Hm. lia.
  - cbn [paced_inputs steps length]. rewrite Z.add_0_r.
    destruct (step_any E fuel pcm_l pcm_r now s Hwf Hfuel)
      as (s1 & Hstep & Hwf1 & _ & Hp1 & Hcases).
    rewrite Hstep. cbn [bind].
    destruct Hcases as [(Hle & Hfid & Hnext & _) | (Hgt & Hfid & Hnext)].
    + assert (Hp1' : _60fpsDura s1 = 16666668) by congruence.
      assert (Hl1 : now - next_time s1 <= Z.of_nat 0 * 16666668) by lia.
      assert (Hn1 : now - next_time s1 <= milliseconds 60)
        by (unfold milliseconds; lia).
      destruct (IH 0%nat s1 Hwf1 Hp1' Hl1 Hn1 ltac:(lia) ltac:(lia))
        as (s' & k & Hrun & Hk & Hfid' & Hdone).
      exists s', k. split; [exact Hrun |]. split; [lia |].
      split; [lia |]. intros _. apply Hdone. lia.
    + destruct m as [| m]; [lia |].
      rewrite snap_near in Hnext by exact Hnear.
      unfold int_add in Hfid.
      rewrite wrap_int_id in Hfid by (unfold is_int; lia).
      assert (Hp1' : _60fpsDura s1 = 16666668) by congruence.
      assert (Hl1 : now - next_time s1 <= Z.of_nat m * 16666668) by lia.
      assert (Hn1 : now - next_time s1 <= milliseconds 60)
        by (unfold milliseconds in *; lia).
      destruct (IH m s1 Hwf1 Hp1' Hl1 Hn1 ltac:(lia) ltac:(lia))
        as (s' & k & Hrun & Hk & Hfid' & Hdone).
      exists s', (k + 1). split; [exact Hrun |]. split; [lia |].
      split; [lia |]. intros Hm. apply Hdone. lia.
Qed.

(** X11.  Repeated calls of [step] at one and the same clock reading run at
    most four cycles, whatever the state of the pacer: a backlog of more than
    60 ms is dropped to 1 ms by the first call, and a backlog of up to 60 ms
    is less than four periods.  After four calls the target is at or past the
    reading and no further cycle is due. *)
Theorem catch_up_burst_bounded (E : Externals) (fuel : nat) (now : Z)
    (pcms : list (list f32 * list f32)) (s : AudioProcess) :
  well_formed E s -> (Z.to_nat (2 * TBL) <= fuel)%nat ->
  _60fpsDura s = 16666668 ->
  INT_MIN <= frame_id s -> frame_id s + 4 <= INT_MAX ->
  (4 <= length pcms)%nat ->
  exists s' k,
    steps E fuel (paced_inputs pcms now 0) s = Returned s'
    /\ 0 <= k <= 4
    /\ frame_id s' = frame_id s + k
    /\ now <= next_time s'
    /\ cycle_runs now s' = false.
Proof.
  intros Hwf Hfuel Hp Hlo Hhi Hlen.
  assert (Hgoal : exists s' k,
            steps E fuel (paced_inputs pcms now 0) s = Returned s'
            /\ 0 <= k <= 4 /\ frame_id s' = frame_id s + k
            /\ now <= next_time s').
  { destruct (Z.le_gt_cases (now - next_time s) (milliseconds 60)) as [Hnear | Hfar].
    - assert (Hl0 : now - next_time s <= Z.of_nat 4 * 16666668)
        by (unfold milliseconds in *; lia).
      destruct (burst_at_most E fuel now Hfuel pcms 4%nat s Hwf Hp Hl0 Hnear
                  Hlo ltac:(lia))
        as (s' & k & Hrun & Hk & Hfid & Hdone).
      exists s', k. split; [exact Hrun |]. split; [lia |].
      split; [exact Hfid |]. apply Hdone. exact Hlen.
    - destruct pcms as [| [pcm_l pcm_r] rest]; [cbn in Hlen; lia |].
      cbn [paced_inputs steps]. rewrite Z.add_0_r.
      destruct (step_any E fuel pcm_l pcm_r now s Hwf Hfuel)
        as (s1 & Hstep & Hwf1 & _ & Hp1 & Hcases).
      rewrite Hstep. cbn [bind].
      destruct Hcases as [(Hle & _) | (Hgt & Hfid & Hnext)];
        [unfold milliseconds in *; lia |].
      unfold int_add in Hfid.
      rewrite wrap_int_id in Hfid by (unfold is_int; lia).
      assert (Hsnap : snap now (next_time s) = now - milliseconds 1).
      { unfold snap. rewrite Z.gtb_ltb.
        destruct (Z.ltb_spec (milliseconds 60) (now - next_time s)); [reflexivity | lia]. }
      rewrite Hsnap, Hp in Hnext.
      assert (Hp1' : _60fpsDura s1 = 16666668) by congruence.
      assert (Hl1 : now - next_time s1 <= Z.of_nat 0 * 16666668)
        by (unfold milliseconds in *; lia).
      assert (Hn1 : now - next_time s1 <= milliseconds 60)
        by (unfold milliseconds in *; lia).
      destruct (burst_at_most E fuel now Hfuel rest 0%nat s1 Hwf1 Hp1' Hl1 Hn1
                  ltac:(lia) ltac:(lia))
        as (s' & k & Hrun & Hk & Hfid' & Hdone).
      exists s', (k + 1). split; [exact Hrun |]. split; [lia |].
      split; [lia |]. apply Hdone. lia. }
  destruct Hgoal as (s' & k & Hrun & Hk & Hfid & Hdone).
  exists s', k. split; [exact Hrun |]. split; [exact Hk |].
  split; [exact Hfid |]. split; [exact Hdone |].
  destruct (cycle_runs now s') eqn:Hc; [| reflexivity].
  apply cycle_runs_iff in Hc. lia.
Qed.

Lemma catch_up_burst_bounded_witness :
  exists s' k,
    steps stub_externals (Z.to_nat (2 * TBL))
      (paced_inputs (repeat (silence, silence) 6) 50000000 0)
      (initial_state stub_externals options_plain) = Returned s'
    /\ 0 <= k <= 4
    /\ frame_id s' = frame_id (initial_state stub_externals options_plain) + k
    /\ 50000000 <= next_time s'
    /\ cycle_runs 50000000 s' = false.
Proof.
  apply (catch_up_burst_bounded stub_externals (Z.to_nat (2 * TBL)) 50000000
           (repeat (silence, silence) 6)
           (initial_state stub_externals options_plain)).
  - apply initial_state_well_formed. reflexivity.
  - apply Nat.le_refl.
  - reflexivity.
  - cbn [initial_state frame_id]. rewrite INT_MIN_val. lia.
  - cbn [initial_state frame_id]. rewrite INT_MAX_val. lia.
  - cbn [repeat length]. lia.
Defined.

(** ** Runs *)

Lemma writer_step (w : Z) :
  0 <= w < TBL -> move_index w ABL TBL = (w + ABL) mod TBL.
Proof.
  rewrite TBL_val, ABL_val. intros Hw.
  apply move_index_mod;
    [ rewrite INT_MAX_val; lia
    | unfold is_int; rewrite INT_MIN_val, INT_MAX_val; lia | lia ].
Qed.

Lemma run_on_well_formed (E : Externals) (fuel : nat) :
  (Z.to_nat (2 * TBL) <= fuel)%nat ->
  forall (inputs : list (list f32 * list f32 * Z)) (s : AudioProcess),
    well_formed E s ->
    INT_MIN <= frame_id s ->
    frame_id s + Z.of_nat (length inputs) <= INT_MAX ->
    exists s',
      steps E fuel inputs s = Returned s'
      /\ well_formed E s'
      /\ writer s' = (writer s + ABL * Z.of_nat (length inputs)) mod TBL
      /\ frame_id s <= frame_id s' <= frame_id s + Z.of_nat (length inputs)
      /\ _60fpsDura s' = _60fpsDura s.
Proof.
  intros Hfuel. induction inputs as [| [[pcm_l pcm_r] now] rest IH];
    intros s Hwf Hlo Hhi.
  - exists s. cbn [steps length]. split; [reflexivity |]. split; [exact Hwf |].
    split; [| split; [lia | reflexivity]].
    rewrite Z.mul_0_r, Z.add_0_r. symmetry. apply Z.mod_small. apply Hwf.
  - cbn [steps length] in *.
    destruct (step_any E fuel pcm_l pcm_r now s Hwf Hfuel)
      as (s1 & Hstep & Hwf1 & Hw1 & Hp1 & Hcases).
    rewrite Hstep. cbn [bind].
    assert (Hfid : frame_id s <= frame_id s1 <= frame_id s + 1).
    { destruct Hcases as [(_ & Hf & _) | (_ & Hf & _)]; [lia |].
      unfold int_add in Hf. rewrite wrap_int_id in Hf by (unfold is_int; lia). lia. }
    destruct (IH s1 Hwf1 ltac:(lia) ltac:(lia))
      as (s' & Hrun & Hwf' & Hw' & Hfid' & Hp').
    exists s'. split; [exact Hrun |]. split; [exact Hwf' |].
    split; [| split; [lia | congruence]].
    rewrite Hw', Hw1, writer_step by apply Hwf.
    rewrite Zplus_mod_idemp_l. f_equal. lia.
Qed.


(** X13.  Without harmonic lock the core needs nothing from libm or from the
    transform to keep running: from the constructed state every run of
    [step] returns, on any audio and any clock.  The writer is then a
    multiple of the chunk length with a whole chunk of room before the end of
    the buffer, so the chunk that the next call stores at [audio_buff +
    writer] stays inside it; both readers are positions of the buffer. *)
Theorem free_running_never_hangs (E : Externals) (fuel : nat)
    (audio_options : AudioOptions)
    (inputs : list (list f32 * list f32 * Z)) :
  opt_fft_sync audio_options = false ->
  (Z.to_nat (2 * TBL) <= fuel)%nat ->
  Z.of_nat (length inputs) <= INT_MAX ->
  exists s',
    steps E fuel inputs (initial_state E audio_options) = Returned s'
    /\ writer s' = ABL * (Z.of_nat (length inputs) mod ABN)
    /\ 0 <= writer s' /\ writer s' + ABL <= TBL
    /\ 0 <= reader_l s' < TBL
    /\ 0 <= reader_r s' < TBL
    /\ 0 <= frame_id s' <= Z.of_nat (length inputs).
Proof.
  intros Hsync Hfuel Hlen.
  destruct (run_on_well_formed E fuel Hfuel inputs (initial_state E audio_options))
    as (s' & Hrun & Hwf' & Hw & Hfid & _).
  - apply initial_state_well_formed. exact Hsync.
  - cbn [initial_state frame_id]. rewrite INT_MIN_val. lia.
  - cbn [initial_state frame_id]. lia.
  - cbn [initial_state frame_id writer] in Hw, Hfid.
    assert (Hw2 : writer s' = ABL * (Z.of_nat (length inputs) mod ABN)).
    { rewrite Hw, Z.add_0_l. change TBL with (ABL * ABN).
      apply Z.mul_mod_distr_l; discriminate. }
    pose proof (Z.mod_pos_bound (Z.of_nat (length inputs)) ABN ltac:(reflexivity)) as Hb.
    change ABN with 16 in *. rewrite ABL_val, TBL_val in *.
    destruct Hwf' as (_ & Hl & Hr & _). rewrite TBL_val in Hl, Hr.
    exists s'. repeat split; try assumption; try lia.
Qed.

Lemma free_running_never_hangs_witness :
  exists s',
    steps stub_externals (Z.to_nat (2 * TBL)) (silent_inputs 20)
      (initial_state stub_externals (options_xcorr F32.half)) = Returned s'
    /\ writer s' = ABL * (Z.of_nat (length (silent_inputs 20)) mod ABN)
    /\ 0 <= writer s' /\ writer s' + ABL <= TBL
    /\ 0 <= reader_l s' < TBL
    /\ 0 <= reader_r s' < TBL
    /\ 0 <= frame_id s' <= Z.of_nat (length (silent_inputs 20)).
Proof.
  apply (free_running_never_hangs stub_externals (Z.to_nat (2 * TBL))
           (options_xcorr F32.half) (silent_inputs 20)).
  - reflexivity.
  - apply Nat.le_refl.
  - change (Z.of_nat (length (silent_inputs 20))) with 20. rewrite INT_MAX_val. lia.
Defined.

(** X14.  The sink reads as zeros until the first frame is emitted: after
    construction, calls of [step] whose clock readings have not passed the
    first target (one period after the epoch) emit nothing, leave the frame
    counter at 0 and leave all four arrays of the sink as the constructor
    zeroed them. *)
Theorem sink_zero_until_first_frame (E : Externals) (fuel : nat)
    (audio_options : AudioOptions)
    (inputs : list (list f32 * list f32 * Z)) :
  Forall (fun input => snd input <= 16666668) inputs ->
  exists s',
    steps E fuel inputs (initial_state E audio_options) = Returned s'
    /\ frame_id s' = 0
    /\ next_time s' = 16666668
    /\ audio_sink s'
       = {| Sink.audio_l := zeros F32.zero VL;
            Sink.audio_r := zeros F32.zero VL;
            Sink.freq_l := zeros F32.zero VL;
            Sink.freq_r := zeros F32.zero VL |}.
Proof.
  intros Hearly.
  assert (Hgen : forall s,
            next_time s = 16666668 ->
            exists s',
              steps E fuel inputs s = Returned s'
              /\ frame_id s' = frame_id s
              /\ next_time s' = 16666668
              /\ audio_sink s' = audio_sink s).
  { induction Hearly as [| [[pcm_l pcm_r] now] rest Hnow Hrest IH]; intros s Hnext.
    - exists s. auto.
    - cbn [steps]. cbn [snd] in Hnow.
      destruct (step_idle E fuel pcm_l pcm_r now s ltac:(lia))
        as (s1 & Hstep & _ & Hfid & Hn & _ & _ & _ & Hsink & _).
      rewrite Hstep. cbn [bind].
      destruct (IH s1 ltac:(congruence)) as (s' & Hrun & Hfid' & Hn' & Hsink').
      exists s'. split; [exact Hrun |].
      split; [congruence |]. split; [exact Hn' | congruence]. }
  destruct (Hgen (initial_state E audio_options) eq_refl)
    as (s' & Hrun & Hfid & Hn & Hsink).
  exists s'. split; [exact Hrun |]. split; [exact Hfid |].
  split; [exact Hn | exact Hsink].
Qed.

Lemma sink_zero_until_first_frame_witness :
  exists s',
    steps stub_externals 0
      [(silence, silence, 10666667); (silence, silence, 16666668)]
      (initial_state stub_externals options_plain) = Returned s'
    /\ frame_id s' = 0
    /\ next_time s' = 16666668
    /\ audio_sink s'
       = {| Sink.audio_l := zeros F32.zero VL;
            Sink.audio_r := zeros F32.zero VL;
            Sink.freq_l := zeros F32.zero VL;
            Sink.freq_r := zeros F32.zero VL |}.
Proof.
  apply (sink_zero_until_first_frame stub_externals 0 options_plain
           [(silence, silence, 10666667); (silence, silence, 16666668)]).
  repeat constructor; cbn [snd]; lia.
Defined.

(** ** What a cycle leaves behind *)

Lemma dc_bin_zeroed (bins : list complex32) :
  array_get czero (array_set bins 0 czero) 0 = czero.
Proof.
  destruct bins as [| b rest]; reflexivity.
Qed.

(** The options, the locked frequencies and the spectrum of the sink after a
    cycle. *)
Lemma step_cycle_outputs (E : Externals) (fuel : nat) (pcm_l pcm_r : list f32)
    (now : Z) (s : AudioProcess) :
  well_formed E s -> (Z.to_nat (2 * TBL) <= fuel)%nat ->
  next_time s < now ->
  exists s' bins_l bins_r a_l a_r r_l r_r,
    step E fuel pcm_l pcm_r now s = Returned s'
    /\ fft_sync s' = fft_sync s
    /\ xcorr_sync s' = xcorr_sync s
    /\ wave_smoother s' = wave_smoother s
    /\ (fft_sync s = false -> freq_l s' = F32.sixty /\ freq_r s' = F32.sixty)
    /\ array_get czero bins_l 0 = czero
    /\ array_get czero bins_r 0 = czero
    /\ Sink.freq_l (audio_sink s')
       = ev_freq (emit E a_l r_l (channel_max_l s) (wave_smoother s) bins_l
                    (Sink.audio_l (audio_sink s)) (Sink.freq_l (audio_sink s)))
    /\ Sink.freq_r (audio_sink s')
       = ev_freq (emit E a_r r_r (channel_max_r s) (wave_smoother s) bins_r
                    (Sink.audio_r (audio_sink s)) (Sink.freq_r (audio_sink s))).
Proof.
  intros (Hw & Hl & Hr & Hfl & Hfr & Hlock) Hfuel Hlate.
  pose proof (writer_advances _ Hw) as Hw'.
  destruct (advance_in_cycle _ _ _ fuel Hw' Hl Hfl Hfuel) as (r_l & Hal & _).
  destruct (advance_in_cycle _ _ _ fuel Hw' Hr Hfr Hfuel) as (r_r & Har & _).
  assert (Hcmp : (now >? snap now (next_time s)) = true).
  { rewrite Z.gtb_ltb. apply Z.ltb_lt.
    pose proof (snap_behind _ _ Hlate). lia. }
  unfold step. rewrite Hcmp, Hal, Har. cbn [of_loop bind].
  eexists. eexists. eexists. eexists. eexists. eexists. eexists.
  split; [reflexivity |].
  cbn [fft_sync xcorr_sync wave_smoother freq_l freq_r audio_sink
       Sink.freq_l Sink.freq_r].
  do 3 (split; [reflexivity |]).
  split; [intros Hoff; rewrite Hoff; split; reflexivity |].
  split; [apply dc_bin_zeroed |]. split; [apply dc_bin_zeroed |].
  split; reflexivity.
Qed.

(** X15.  With cross-correlation off, the window that a cycle emits stays
    clear of the write cursor on both channels: the reader it leaves is at
    least [VL] before the writer, every index [(i + reader) % TBL] of the
    window is a position of the buffer, and none of them is the position the
    next chunk is written at. *)
Theorem cycle_window_avoids_writer (E : Externals) (fuel : nat)
    (pcm_l pcm_r : list f32) (now : Z) (s : AudioProcess) :
  well_formed E s -> (Z.to_nat (2 * TBL) <= fuel)%nat ->
  next_time s < now -> xcorr_sync s = false ->
  exists s',
    step E fuel pcm_l pcm_r now s = Returned s'
    /\ VL <= dist_forward (reader_l s') (writer s') TBL
    /\ VL <= dist_forward (reader_r s') (writer s') TBL
    /\ forall i, 0 <= i < VL ->
         0 <= Z.rem (i + reader_l s')%int TBL < TBL
         /\ Z.rem (i + reader_l s')%int TBL <> writer s'
         /\ 0 <= Z.rem (i + reader_r s')%int TBL < TBL
         /\ Z.rem (i + reader_r s')%int TBL <> writer s'.
Proof.
  intros Hwf Hfuel Hlate Hx.
  destruct (step_cycle E fuel pcm_l pcm_r now s Hwf Hfuel Hlate)
    as (r_l & r_r & s' & _ & _ & Hsl & Hsr & Hstep & Hw & Hl & Hr & _ & _ & _ & Hwf').
  rewrite Hx in Hl, Hr. rewrite <- Hw, <- Hl in Hsl. rewrite <- Hw, <- Hr in Hsr.
  exists s'. split; [exact Hstep |]. split; [exact Hsl |]. split; [exact Hsr |].
  destruct Hwf' as (Hwr & Hlr & Hrr & _).
  assert (Hclear : forall r i,
            0 <= r < TBL -> VL <= dist_forward r (writer s') TBL -> 0 <= i < VL ->
            0 <= Z.rem (i + r)%int TBL < TBL
            /\ Z.rem (i + r)%int TBL <> writer s').
  { intros r i Hrange Hsafe Hi.
    rewrite TBL_val, VL_val in *.
    rewrite dist_forward_mod in Hsafe by (rewrite ?INT_MAX_val; lia).
    unfold int_add.
    rewrite wrap_int_id by (unfold is_int; rewrite INT_MIN_val, INT_MAX_val; lia).
    rewrite Z.rem_mod_nonneg by lia.
    pose proof (Z.mod_pos_bound (i + r) 8192 ltac:(lia)) as Hb.
    split; [exact Hb |]. intros Heq. rewrite <- Heq in Hsafe.
    replace (i + r) with (r + i) in Hsafe by lia.
    rewrite mod_add_sub in Hsafe by lia.
    rewrite Z.mod_small in Hsafe by lia. lia. }
  intros i Hi.
  destruct (Hclear (reader_l s') i Hlr Hsl Hi) as [H1 H2].
  destruct (Hclear (reader_r s') i Hrr Hsr Hi) as [H3 H4].
  auto.
Qed.

Lemma cycle_window_avoids_writer_witness :
  exists s',
    step stub_externals (Z.to_nat (2 * TBL)) silence silence 20000000
      (initial_state stub_externals options_plain) = Returned s'
    /\ VL <= dist_forward (reader_l s') (writer s') TBL
    /\ VL <= dist_forward (reader_r s') (writer s') TBL
    /\ forall i, 0 <= i < VL ->
         0 <= Z.rem (i + reader_l s')%int TBL < TBL
         /\ Z.rem (i + reader_l s')%int TBL <> writer s'
         /\ 0 <= Z.rem (i + reader_r s')%int TBL < TBL
         /\ Z.rem (i + reader_r s')%int TBL <> writer s'.
Proof.
  apply (cycle_window_avoids_writer stub_externals (Z.to_nat (2 * TBL))
           silence silence 20000000 (initial_state stub_externals options_plain)).
  - apply initial_state_well_formed. reflexivity.
  - apply Nat.le_refl.
  - change (next_time (initial_state stub_externals options_plain)) with 16666668.
    lia.
  - reflexivity.
Defined.

Lemma set_audio_options_well_formed (E : Externals) (ao : AudioOptions)
    (s : AudioProcess) :
  well_formed E s -> opt_fft_sync ao = false ->
  well_formed E (set_audio_options ao s).
Proof.
  intros (Hw & Hl & Hr & Hfl & Hfr & _) Hoff. unfold well_formed.
  cbn [set_audio_options writer reader_l reader_r freq_l freq_r fft_sync].
  repeat (split; [assumption |]). rewrite Hoff. discriminate.
Qed.

(** X16.  Options set through [set_audio_options] take effect at the next
    cycle and stay.  Switching the harmonic lock off resets both locked
    frequencies to 60 Hz at that cycle, whatever they were; switching
    cross-correlation off as well puts both readers at least [VL] before the
    writer again, wherever cross-correlation had left them. *)
Theorem options_take_effect (E : Externals) (fuel : nat)
    (pcm_l pcm_r : list f32) (now : Z) (ao : AudioOptions) (s : AudioProcess) :
  well_formed E s -> (Z.to_nat (2 * TBL) <= fuel)%nat ->
  next_time s < now -> opt_fft_sync ao = false ->
  exists s',
    step E fuel pcm_l pcm_r now (set_audio_options ao s) = Returned s'
    /\ fft_sync s' = false
    /\ xcorr_sync s' = opt_xcorr_sync ao
    /\ wave_smoother s' = opt_wave_smooth ao
    /\ freq_l s' = F32.sixty
    /\ freq_r s' = F32.sixty
    /\ (opt_xcorr_sync ao = false ->
        VL <= dist_forward (reader_l s') (writer s') TBL
        /\ VL <= dist_forward (reader_r s') (writer s') TBL).
Proof.
  intros Hwf Hfuel Hlate Hoff.
  pose proof (set_audio_options_well_formed E ao s Hwf Hoff) as Hwf1.
  set (s1 := set_audio_options ao s) in *.
  assert (Hlate1 : next_time s1 < now) by exact Hlate.
  destruct (step_cycle_outputs E fuel pcm_l pcm_r now s1 Hwf1 Hfuel Hlate1)
    as (s' & bl & br & al & ar & ql & qr & Hstep & Hf & Hx & Hs & Hfreq & _).
  destruct (step_cycle E fuel pcm_l pcm_r now s1 Hwf1 Hfuel Hlate1)
    as (r_l & r_r & s'' & _ & _ & Hsl & Hsr & Hstep' & Hw & Hl & Hr & _).
  assert (s'' = s') by congruence. subst s''.
  exists s'. split; [exact Hstep |].
  split; [rewrite Hf; exact Hoff |]. split; [exact Hx |]. split; [exact Hs |].
  destruct (Hfreq Hoff) as [H1 H2]. split; [exact H1 |]. split; [exact H2 |].
  intros Hxoff.
  change (xcorr_sync s1) with (opt_xcorr_sync ao) in Hl, Hr.
  rewrite Hxoff in Hl, Hr. rewrite Hl, Hr, Hw. split; assumption.
Qed.

Lemma options_take_effect_witness :
  exists s',
    step stub_externals (Z.to_nat (2 * TBL)) silence silence 20000000
      (set_audio_options options_plain
         (initial_state stub_externals (options_xcorr F32.one))) = Returned s'
    /\ fft_sync s' = false
    /\ xcorr_sync s' = opt_xcorr_sync options_plain
    /\ wave_smoother s' = opt_wave_smooth options_plain
    /\ freq_l s' = F32.sixty
    /\ freq_r s' = F32.sixty
    /\ (opt_xcorr_sync options_plain = false ->
        VL <= dist_forward (reader_l s') (writer s') TBL
        /\ VL <= dist_forward (reader_r s') (writer s') TBL).
Proof.
  apply (options_take_effect stub_externals (Z.to_nat (2 * TBL)) silence silence
           20000000 options_plain
           (initial_state stub_externals (options_xcorr F32.one))).
  - apply initial_state_well_formed. reflexivity.
  - apply Nat.le_refl.
  - change (next_time (initial_state stub_externals (options_xcorr F32.one)))
      with 16666668. lia.
  - reflexivity.
Defined.

(** X17.  [step] zeroes bin 0 of both transforms before it emits, so after
    every cycle entry 0 of both spectrum arrays of the sink is the magnitude
    of zero divided by [sqrt(FFTLEN)]: exactly [+0] for a [std::abs] that maps
    0 to [+0], whatever the audio was. *)
Theorem spectrum_dc_is_zero (E : Externals) (fuel : nat)
    (pcm_l pcm_r : list f32) (now : Z) (s : AudioProcess) :
  well_formed E s -> (Z.to_nat (2 * TBL) <= fuel)%nat ->
  next_time s < now ->
  cabsf E czero = F32.zero ->
  Z.of_nat (length (Sink.audio_l (audio_sink s))) = VL ->
  Z.of_nat (length (Sink.freq_l (audio_sink s))) = VL ->
  Z.of_nat (length (Sink.audio_r (audio_sink s))) = VL ->
  Z.of_nat (length (Sink.freq_r (audio_sink s))) = VL ->
  exists s',
    step E fuel pcm_l pcm_r now s = Returned s'
    /\ array_get F32.zero (Sink.freq_l (audio_sink s')) 0 = F32.zero
    /\ array_get F32.zero (Sink.freq_r (audio_sink s')) 0 = F32.zero.
Proof.
  intros Hwf Hfuel Hlate Habs Hal Hfl Har Hfr.
  destruct (step_cycle_outputs E fuel pcm_l pcm_r now s Hwf Hfuel Hlate)
    as (s' & bl & br & al & ar & ql & qr & Hstep & _ & _ & _ & _ & Hdl & Hdr & Hsl & Hsr).
  exists s'. split; [exact Hstep |].
  rewrite Hsl, Hsr. unfold emit, for_to.
  rewrite VL_val in *.
  destruct (emit_loop E al ql (channel_max_l s) (wave_smoother s) bl
              (Sink.audio_l (audio_sink s)) (Sink.freq_l (audio_sink s))
              (Z.to_nat 1024)) as (_ & _ & _ & Hgl & _); try lia.
  destruct (emit_loop E ar qr (channel_max_r s) (wave_smoother s) br
              (Sink.audio_r (audio_sink s)) (Sink.freq_r (audio_sink s))
              (Z.to_nat 1024)) as (_ & _ & _ & Hgr & _); try lia.
  cbv zeta in Hgl, Hgr.
  rewrite (Hgl 0 ltac:(lia)), (Hgr 0 ltac:(lia)).
  change (0 <? Z.of_nat (Z.to_nat 1024)) with true. cbv iota.
  rewrite Hdl, Hdr, Habs. split; reflexivity.
Qed.

Lemma spectrum_dc_is_zero_witness :
  exists s',
    step stub_externals (Z.to_nat (2 * TBL)) silence silence 20000000
      (initial_state stub_externals options_plain) = Returned s'
    /\ array_get F32.zero (Sink.freq_l (audio_sink s')) 0 = F32.zero
    /\ array_get F32.zero (Sink.freq_r (audio_sink s')) 0 = F32.zero.
Proof.
  apply (spectrum_dc_is_zero stub_externals (Z.to_nat (2 * TBL)) silence silence
           20000000 (initial_state stub_externals options_plain)).
  - apply initial_state_well_formed. reflexivity.
  - apply Nat.le_refl.
  - change (next_time (initial_state stub_externals options_plain)) with 16666668.
    lia.
  - reflexivity.
  - reflexivity.
  - reflexivity.
  - reflexivity.
  - reflexivity.
Defined.

(** ** Cross-correlation: the best candidate *)

Lemma xcorr_loop_best (prev_buff : list (list f32)) (frame_id : Z)
    (buff : list f32) (channel_max : f32) (r0 : Z) (n : nat) :
  0 <= r0 < TBL ->
  let score := history_score prev_buff frame_id buff channel_max in
  let cand := fun j => (r0 + 3 * j) mod TBL in
  let v := for_range 0 n (xcorr_body prev_buff frame_id buff channel_max)
             {| xc_r := r0; xc_max_r := r0; xc_max_md := F32.neg_infinity |} in
  (xc_max_r v = r0
   /\ forall j, 0 <= j < Z.of_nat n ->
        F32.gt (score (cand j)) F32.neg_infinity = false)
  \/ (exists i, 0 <= i < Z.of_nat n
        /\ xc_max_r v = cand i
        /\ forall j, 0 <= j < Z.of_nat n ->
             F32.gt (score (cand j)) (score (cand i)) = false).
Proof.
  intros Hr0 score cand v. subst v.
  enough (H : let v := for_range 0 n
                         (xcorr_body prev_buff frame_id buff channel_max)
                         {| xc_r := r0; xc_max_r := r0;
                            xc_max_md := F32.neg_infinity |} in
              xc_r v = cand (Z.of_nat n)
              /\ ((xc_max_md v = F32.neg_infinity /\ xc_max_r v = r0
                   /\ forall j, 0 <= j < Z.of_nat n ->
                        F32.gt (score (cand j)) F32.neg_infinity = false)
                  \/ (exists i, 0 <= i < Z.of_nat n
                        /\ xc_max_r v = cand i
                        /\ xc_max_md v = score (cand i)
                        /\ forall j, 0 <= j < Z.of_nat n ->
                             F32.gt (score (cand j)) (score (cand i)) = false))).
  { cbv zeta in H. destruct H as (_ & [(_ & Hr & Hn) | (i & Hi & Hr & _ & Hb)]).
    - left. split; assumption.
    - right. exists i. auto. }
  apply (for_range_invariant
           (fun k v =>
              xc_r v = cand (Z.of_nat k)
              /\ ((xc_max_md v = F32.neg_infinity /\ xc_max_r v = r0
                   /\ forall j, 0 <= j < Z.of_nat k ->
                        F32.gt (score (cand j)) F32.neg_infinity = false)
                  \/ (exists i, 0 <= i < Z.of_nat k
                        /\ xc_max_r v = cand i
                        /\ xc_max_md v = score (cand i)
                        /\ forall j, 0 <= j < Z.of_nat k ->
                             F32.gt (score (cand j)) (score (cand i)) = false)))).
  - cbn [xc_r xc_max_r xc_max_md]. split.
    + unfold cand. rewrite Z.mul_0_r, Z.add_0_r, Z.mod_small by exact Hr0.
      reflexivity.
    + left. split; [reflexivity |]. split; [reflexivity |]. intros j Hj. lia.
  - intros k v Hk (Hr & Hcases). unfold xcorr_body.
    cbn [xc_r xc_max_r xc_max_md]. fold score. rewrite Hr.
    split.
    + unfold cand. change HISTORY_SEARCH_GRANULARITY with 3. rewrite TBL_val in *.
      pose proof (Z.mod_pos_bound (r0 + 3 * Z.of_nat k) 8192 ltac:(lia)) as Hb.
      rewrite move_index_mod;
        [ rewrite Zplus_mod_idemp_l; f_equal; lia | rewrite INT_MAX_val; lia
        | unfold is_int; rewrite INT_MIN_val, INT_MAX_val; lia | lia ].
    + unfold F32.gt in *.
      destruct Hcases as [(Hmd & Hmr & Hnone) | (i & Hi & Hmr & Hmd & Hbest)];
        rewrite Hmd.
      * destruct (SFltb F32.neg_infinity (score (cand (Z.of_nat k)))) eqn:Hhit.
        -- right. exists (Z.of_nat k). split; [lia |].
           split; [reflexivity |]. split; [reflexivity |].
           intros j Hj. destruct (Z.eq_dec j (Z.of_nat k)) as [-> | Hne];
             [apply SFltb_irrefl |].
           destruct (SFltb (score (cand (Z.of_nat k))) (score (cand j))) eqn:Hgt;
             [| reflexivity].
           rewrite <- (Hnone j ltac:(lia)). symmetry.
           exact (SFltb_trans _ _ _ Hhit Hgt).
        -- left. split; [reflexivity |]. split; [exact Hmr |].
           intros j Hj. destruct (Z.eq_dec j (Z.of_nat k)) as [-> | Hne];
             [exact Hhit | apply Hnone; lia].
      * destruct (SFltb (score (cand i)) (score (cand (Z.of_nat k)))) eqn:Hhit.
        -- right. exists (Z.of_nat k). split; [lia |].
           split; [reflexivity |]. split; [reflexivity |].
           intros j Hj. destruct (Z.eq_dec j (Z.of_nat k)) as [-> | Hne];
             [apply SFltb_irrefl |].
           destruct (SFltb (score (cand (Z.of_nat k))) (score (cand j))) eqn:Hgt;
             [| reflexivity].
           rewrite <- (Hbest j ltac:(lia)). symmetry.
           exact (SFltb_trans _ _ _ Hhit Hgt).
        -- right. exists i. split; [lia |]. split; [exact Hmr |].
           split; [reflexivity |].
           intros j Hj. destruct (Z.eq_dec j (Z.of_nat k)) as [-> | Hne];
             [exact Hhit | apply Hbest; lia].
Qed.

(** X18.  [cross_correlation_sync] returns a candidate of maximal score: no
    scanned candidate has a score that compares greater than the score of the
    one it returns.  Only when no candidate scores above minus infinity (all
    scores are NaN or minus infinity) does it return the first candidate
    instead. *)
Theorem xcorr_selects_best (w r dist frame_id : Z)
    (prev_buff : list (list f32)) (buff : list f32) (channel_max : f32) :
  0 <= r < TBL -> HISTORY_SEARCH_GRANULARITY <= dist <= TBL ->
  let score := history_score prev_buff frame_id buff channel_max in
  let cand := fun j => (r - Z.quot dist 2 + j * HISTORY_SEARCH_GRANULARITY) mod TBL in
  let count := Z.quot dist HISTORY_SEARCH_GRANULARITY in
  let r' := cross_correlation_sync w r dist prev_buff frame_id buff channel_max in
  (exists i, 0 <= i < count /\ r' = cand i
     /\ forall j, 0 <= j < count -> F32.gt (score (cand j)) (score r') = false)
  \/ (r' = cand 0
      /\ forall j, 0 <= j < count ->
           F32.gt (score (cand j)) F32.neg_infinity = false).
Proof.
  change HISTORY_SEARCH_GRANULARITY with 3.
  intros Hr Hd score cand count r'. subst r'.
  unfold cross_correlation_sync, for_to.
  change HISTORY_SEARCH_GRANULARITY with 3.
  rewrite xcorr_start by lia.
  assert (Htbl : TBL = 8192) by reflexivity.
  set (r0 := (r - Z.quot dist 2) mod TBL).
  assert (Hr0 : 0 <= r0 < TBL) by (apply Z.mod_pos_bound; lia).
  assert (Hcand : forall j, (r0 + 3 * j) mod TBL = cand j).
  { intros j. unfold r0, cand. rewrite Zplus_mod_idemp_l. f_equal. lia. }
  assert (Hcount : Z.of_nat (Z.to_nat (Z.quot dist 3)) = count).
  { apply Z2Nat.id. apply Z.quot_pos; lia. }
  destruct (xcorr_loop_best prev_buff frame_id buff channel_max r0
              (Z.to_nat (Z.quot dist 3)) Hr0)
    as [(Hmr & Hnone) | (i & Hi & Hmr & Hbest)].
  - right. rewrite Hmr. split.
    + rewrite <- Hcand. rewrite Z.mul_0_r, Z.add_0_r. symmetry.
      apply Z.mod_small. exact Hr0.
    + intros j Hj. rewrite <- Hcand. apply Hnone. lia.
  - left. exists i. rewrite Hmr, Hcand. split; [lia |]. split; [reflexivity |].
    intros j Hj. rewrite <- !Hcand. apply Hbest. lia.
Qed.

Lemma xcorr_selects_best_witness :
  let score := history_score [] 0 [] F32.one in
  let cand := fun j => (800 - Z.quot 350 2 + j * HISTORY_SEARCH_GRANULARITY) mod TBL in
  let count := Z.quot 350 HISTORY_SEARCH_GRANULARITY in
  let r' := cross_correlation_sync 512 800 350 [] 0 [] F32.one in
  (exists i, 0 <= i < count /\ r' = cand i
     /\ forall j, 0 <= j < count -> F32.gt (score (cand j)) (score r') = false)
  \/ (r' = cand 0
      /\ forall j, 0 <= j < count ->
           F32.gt (score (cand j)) F32.neg_infinity = false).
Proof.
  apply (xcorr_selects_best 512 800 350 0 [] [] F32.one);
    [ rewrite TBL_val; lia
    | change HISTORY_SEARCH_GRANULARITY with 3; rewrite TBL_val; lia ].
Defined.

(** ** Reader advance: the fewest wavelengths *)

(** When the loop of [advance_index] returns, it has rejected every earlier
    position of the orbit. *)
Lemma skip_discontinuity_first (cap w lam : Z) :
  VL < cap <= 2 ^ 30 -> 1 <= lam < cap ->
  forall (fuel : nat) (r r' : Z),
    0 <= r < cap ->
    skip_discontinuity fuel w r lam cap = Some r' ->
    exists m : nat,
      r' = (r + Z.of_nat m * lam) mod cap
      /\ VL <= dist_forward r' w cap
      /\ forall j : nat, (j < m)%nat ->
           dist_forward ((r + Z.of_nat j * lam) mod cap) w cap < VL.
Proof.
  intros Hcap Hlam. change (2 ^ 30) with 1073741824 in Hcap.
  assert (Hv : VL = 1024) by reflexivity.
  induction fuel as [| fuel IH]; intros r r' Hr Hrun; [discriminate |].
  cbn [skip_discontinuity] in Hrun.
  destruct (Z.ltb_spec (dist_forward r w cap) VL) as [Hnear | Hfar].
  - assert (Hmove : move_index r lam cap = (r + lam) mod cap).
    { apply move_index_mod; unfold is_int;
        rewrite ?INT_MAX_val, ?INT_MIN_val; lia. }
    rewrite Hmove in Hrun.
    destruct (IH _ _ ltac:(apply Z.mod_pos_bound; lia) Hrun)
      as (m & Heq & Hsafe & Hfirst).
    assert (Hshift : forall n : nat,
              ((r + lam) mod cap + Z.of_nat n * lam) mod cap
              = (r + Z.of_nat (S n) * lam) mod cap).
    { intros n. rewrite Zplus_mod_idemp_l. f_equal. lia. }
    exists (S m). rewrite <- Hshift. split; [exact Heq |]. split; [exact Hsafe |].
    intros j Hj. destruct j as [| j].
    + cbn [Z.of_nat]. rewrite Z.mul_0_l, Z.add_0_r, Z.mod_small by lia. exact Hnear.
    + rewrite <- Hshift. apply Hfirst. lia.
  - injection Hrun as <-. exists 0%nat.
    cbn [Z.of_nat]. rewrite Z.mul_0_l, Z.add_0_r, Z.mod_small by lia.
    split; [reflexivity |]. split; [exact Hfar |]. intros j Hj. lia.
Qed.

(** X19.  In the buffer of the core, [advance_index] moves the reader by the
    fewest whole wavelengths that make it safe: the cursor it returns is
    [(r + k * lam) mod TBL] with [k >= 1], at least [VL] before the writer,
    and every position [(r + j * lam) mod TBL] with [1 <= j < k] is closer
    than [VL] to the writer.  When the position one wavelength ahead is safe
    the reader moves by exactly one wavelength. *)
Theorem advance_index_fewest_steps (w r : Z) (freq : f32) (fuel : nat) :
  0 <= w < TBL -> 0 <= r < TBL -> 1 <= wave_length freq < TBL ->
  (Z.to_nat (2 * TBL) <= fuel)%nat ->
  exists r' k,
    advance_index fuel w r freq TBL = Some r'
    /\ 1 <= k
    /\ r' = (r + k * wave_length freq) mod TBL
    /\ VL <= dist_forward r' w TBL
    /\ (forall j, 1 <= j < k ->
          dist_forward ((r + j * wave_length freq) mod TBL) w TBL < VL)
    /\ (VL <= dist_forward ((r + wave_length freq) mod TBL) w TBL -> k = 1).
Proof.
  intros Hw Hr Hlam Hfuel.
  destruct (advance_in_cycle w r freq fuel Hw Hr Hlam Hfuel) as (r' & Hrun & _ & _).
  assert (Ht : TBL = 8192) by reflexivity.
  assert (Hv : VL = 1024) by reflexivity.
  set (lam := wave_length freq) in *.
  assert (Hmove : move_index r lam TBL = (r + lam) mod TBL).
  { apply move_index_mod; unfold is_int;
      rewrite ?INT_MAX_val, ?INT_MIN_val; lia. }
  pose proof Hrun as Hrun'. unfold advance_index in Hrun'. fold lam in Hrun'.
  cbv zeta in Hrun'. rewrite Hmove in Hrun'.
  destruct (skip_discontinuity_first TBL w lam ltac:(change (2 ^ 30) with 1073741824; lia)
              Hlam fuel _ r' ltac:(apply Z.mod_pos_bound; lia) Hrun')
    as (m & Heq & Hsafe & Hfirst).
  assert (Hshift : forall n : nat,
            ((r + lam) mod TBL + Z.of_nat n * lam) mod TBL
            = (r + Z.of_nat (S n) * lam) mod TBL).
  { intros n. rewrite Zplus_mod_idemp_l. f_equal. lia. }
  exists r', (Z.of_nat (S m)). split; [exact Hrun |]. split; [lia |].
  split; [rewrite <- Hshift; exact Heq |]. split; [exact Hsafe |]. split.
  - intros j Hj.
    replace j with (Z.of_nat (S (Z.to_nat (j - 1)))) by lia.
    rewrite <- Hshift. apply Hfirst. lia.
  - intros Hone. destruct m as [| m]; [reflexivity |].
    specialize (Hfirst 0%nat ltac:(lia)).
    cbn [Z.of_nat] in Hfirst. rewrite Z.mul_0_l, Z.add_0_r in Hfirst.
    rewrite Z.mod_mod in Hfirst by lia. lia.
Qed.

Lemma advance_index_fewest_steps_witness :
  exists r' k,
    advance_index (Z.to_nat (2 * TBL)) 6656 5975 F32.sixty TBL = Some r'
    /\ 1 <= k
    /\ r' = (5975 + k * wave_length F32.sixty) mod TBL
    /\ VL <= dist_forward r' 6656 TBL
    /\ (forall j, 1 <= j < k ->
          dist_forward ((5975 + j * wave_length F32.sixty) mod TBL) 6656 TBL < VL)
    /\ (VL <= dist_forward ((5975 + wave_length F32.sixty) mod TBL) 6656 TBL ->
        k = 1).
Proof.
  apply (advance_index_fewest_steps 6656 5975 F32.sixty (Z.to_nat (2 * TBL)));
    [ rewrite TBL_val; lia | rewrite TBL_val; lia
    | change (wave_length F32.sixty) with 800; rewrite TBL_val; lia
    | apply Nat.le_refl ].
Defined.

(** ** The history ring across a cycle *)

Lemma step_cycle_history (E : Externals) (fuel : nat) (pcm_l pcm_r : list f32)
    (now : Z) (s : AudioProcess) :
  well_formed E s -> (Z.to_nat (2 * TBL) <= fuel)%nat ->
  next_time s < now ->
  Z.of_nat (length (Sink.audio_l (audio_sink s))) = VL ->
  Z.of_nat (length (Sink.freq_l (audio_sink s))) = VL ->
  Z.of_nat (length (Sink.audio_r (audio_sink s))) = VL ->
  Z.of_nat (length (Sink.freq_r (audio_sink s))) = VL ->
  exists s',
    step E fuel pcm_l pcm_r now s = Returned s'
    /\ prev_buff_l s'
       = (if xcorr_sync s
          then remember (prev_buff_l s) (frame_id s) (Sink.audio_l (audio_sink s'))
          else prev_buff_l s)
    /\ prev_buff_r s'
       = (if xcorr_sync s
          then remember (prev_buff_r s) (frame_id s) (Sink.audio_r (audio_sink s'))
          else prev_buff_r s)
    /\ Z.of_nat (length (Sink.audio_l (audio_sink s'))) = VL
    /\ Z.of_nat (length (Sink.audio_r (audio_sink s'))) = VL.
Proof.
  intros (Hw & Hl & Hr & Hfl & Hfr & Hlock) Hfuel Hlate Hal Hsl Har Hsr.
  pose proof (writer_advances _ Hw) as Hw'.
  destruct (advance_in_cycle _ _ _ fuel Hw' Hl Hfl Hfuel) as (r_l & Hadl & _).
  destruct (advance_in_cycle _ _ _ fuel Hw' Hr Hfr Hfuel) as (r_r & Hadr & _).
  assert (Hcmp : (now >? snap now (next_time s)) = true).
  { rewrite Z.gtb_ltb. apply Z.ltb_lt.
    pose proof (snap_behind _ _ Hlate). lia. }
  unfold step. rewrite Hcmp, Hadl, Hadr. cbn [of_loop bind].
  eexists. split; [reflexivity |].
  cbn [prev_buff_l prev_buff_r audio_sink Sink.audio_l Sink.audio_r].
  do 2 (split; [reflexivity |]).
  unfold emit, for_to. rewrite VL_val in *.
  assert (Hnl : (Z.to_nat 1024 <= length (Sink.audio_l (audio_sink s)))%nat) by lia.
  assert (Hnfl : (Z.to_nat 1024 <= length (Sink.freq_l (audio_sink s)))%nat) by lia.
  assert (Hnr : (Z.to_nat 1024 <= length (Sink.audio_r (audio_sink s)))%nat) by lia.
  assert (Hnfr : (Z.to_nat 1024 <= length (Sink.freq_r (audio_sink s)))%nat) by lia.
  split.
  - match goal with
    | |- Z.of_nat (length (ev_audio (for_range 0 _
                     (emit_body E ?a ?r ?c ?ws ?b) _))) = _ =>
        destruct (emit_loop E a r c ws b (Sink.audio_l (audio_sink s))
                    (Sink.freq_l (audio_sink s)) (Z.to_nat 1024) Hnl Hnfl)
          as (Hlen & _)
    end.
    cbv zeta in Hlen. rewrite Hlen. exact Hal.
  - match goal with
    | |- Z.of_nat (length (ev_audio (for_range 0 _
                     (emit_body E ?a ?r ?c ?ws ?b) _))) = _ =>
        destruct (emit_loop E a r c ws b (Sink.audio_r (audio_sink s))
                    (Sink.freq_r (audio_sink s)) (Z.to_nat 1024) Hnr Hnfr)
          as (Hlen & _)
    end.
    cbv zeta in Hlen. rewrite Hlen. exact Har.
Qed.

(** X20.  With cross-correlation on, a cycle files the waveform it has just
    emitted in slot [frame_id % 7] of the history ring, on both channels, and
    leaves the other six slots as they are: what the synchroniser compares
    against is what the sink showed.  With cross-correlation off the ring is
    not touched. *)
Theorem history_holds_emitted_frame (E : Externals) (fuel : nat)
    (pcm_l pcm_r : list f32) (now : Z) (s : AudioProcess) :
  well_formed E s -> (Z.to_nat (2 * TBL) <= fuel)%nat ->
  next_time s < now -> 0 <= frame_id s ->
  Z.of_nat (length (prev_buff_l s)) = HISTORY_NUM_FRAMES ->
  Z.of_nat (length (prev_buff_r s)) = HISTORY_NUM_FRAMES ->
  Z.of_nat (length (array_get [] (prev_buff_l s)
                      (Z.rem (frame_id s) HISTORY_NUM_FRAMES))) = VL ->
  Z.of_nat (length (array_get [] (prev_buff_r s)
                      (Z.rem (frame_id s) HISTORY_NUM_FRAMES))) = VL ->
  Z.of_nat (length (Sink.audio_l (audio_sink s))) = VL ->
  Z.of_nat (length (Sink.freq_l (audio_sink s))) = VL ->
  Z.of_nat (length (Sink.audio_r (audio_sink s))) = VL ->
  Z.of_nat (length (Sink.freq_r (audio_sink s))) = VL ->
  exists s',
    step E fuel pcm_l pcm_r now s = Returned s'
    /\ (xcorr_sync s = true ->
        array_get [] (prev_buff_l s') (Z.rem (frame_id s) HISTORY_NUM_FRAMES)
        = Sink.audio_l (audio_sink s')
        /\ array_get [] (prev_buff_r s') (Z.rem (frame_id s) HISTORY_NUM_FRAMES)
           = Sink.audio_r (audio_sink s')
        /\ forall slot, 0 <= slot ->
             slot <> Z.rem (frame_id s) HISTORY_NUM_FRAMES ->
             array_get [] (prev_buff_l s') slot = array_get [] (prev_buff_l s) slot
             /\ array_get [] (prev_buff_r s') slot
                = array_get [] (prev_buff_r s) slot)
    /\ (xcorr_sync s = false ->
        prev_buff_l s' = prev_buff_l s /\ prev_buff_r s' = prev_buff_r s).
Proof.
  intros Hwf Hfuel Hlate Hfid Hrl Hrr Hrowl Hrowr Hal Hsl Har Hsr.
  destruct (step_cycle_history E fuel pcm_l pcm_r now s Hwf Hfuel Hlate
              Hal Hsl Har Hsr)
    as (s' & Hstep & Hpl & Hpr & Hal' & Har').
  exists s'. split; [exact Hstep |]. split.
  - intros Hx. rewrite Hx in Hpl, Hpr. rewrite Hpl, Hpr.
    destruct (remember_slot (prev_buff_l s) (frame_id s)
                (Sink.audio_l (audio_sink s')) Hfid Hrl Hrowl Hal')
      as (Hgl & Hol & _).
    destruct (remember_slot (prev_buff_r s) (frame_id s)
                (Sink.audio_r (audio_sink s')) Hfid Hrr Hrowr Har')
      as (Hgr & Hor & _).
    split; [exact Hgl |]. split; [exact Hgr |].
    intros slot Hs Hne. split; [apply Hol | apply Hor]; assumption.
  - intros Hx. rewrite Hx in Hpl, Hpr. split; assumption.
Qed.

Lemma history_holds_emitted_frame_witness :
  let s := initial_state stub_externals (options_xcorr F32.half) in
  exists s',
    step stub_externals (Z.to_nat (2 * TBL)) silence silence 20000000 s
    = Returned s'
    /\ (xcorr_sync s = true ->
        array_get [] (prev_buff_l s') (Z.rem (frame_id s) HISTORY_NUM_FRAMES)
        = Sink.audio_l (audio_sink s')
        /\ array_get [] (prev_buff_r s') (Z.rem (frame_id s) HISTORY_NUM_FRAMES)
           = Sink.audio_r (audio_sink s')
        /\ forall slot, 0 <= slot ->
             slot <> Z.rem (frame_id s) HISTORY_NUM_FRAMES ->
             array_get [] (prev_buff_l s') slot = array_get [] (prev_buff_l s) slot
             /\ array_get [] (prev_buff_r s') slot
                = array_get [] (prev_buff_r s) slot)
    /\ (xcorr_sync s = false ->
        prev_buff_l s' = prev_buff_l s /\ prev_buff_r s' = prev_buff_r s).
Proof.
  apply (history_holds_emitted_frame stub_externals (Z.to_nat (2 * TBL))
           silence silence 20000000
           (initial_state stub_externals (options_xcorr F32.half)));
    [ apply initial_state_well_formed; reflexivity
    | apply Nat.le_refl
    | change (next_time (initial_state stub_externals (options_xcorr F32.half)))
        with 16666668; lia
    | cbn [initial_state frame_id]; lia
    | reflexivity | reflexivity | reflexivity | reflexivity
    | reflexivity | reflexivity | reflexivity | reflexivity ].
Defined.

(** * Rounding to binary32 *)

(** ** Digits *)

Lemma digits2_bounds (p : positive) :
  2 ^ (Z.pos (digits2_pos p) - 1) <= Z.pos p < 2 ^ Z.pos (digits2_pos p).
Proof.
  induction p as [p IH | p IH |]; cbn [digits2_pos].
  - rewrite Pos2Z.inj_succ.
    replace (Z.succ (Z.pos (digits2_pos p)) - 1) with (Z.succ (Z.pos (digits2_pos p) - 1)) by lia.
    rewrite !Z.pow_succ_r by lia. lia.
  - rewrite Pos2Z.inj_succ.
    replace (Z.succ (Z.pos (digits2_pos p)) - 1) with (Z.succ (Z.pos (digits2_pos p) - 1)) by lia.
    rewrite !Z.pow_succ_r by lia. lia.
  - cbn. lia.
Qed.

Lemma Zdigits2_bounds (m : Z) :
  0 < m -> 2 ^ (Zdigits2 m - 1) <= m < 2 ^ Zdigits2 m.
Proof.
  destruct m as [| p | p]; try lia. intros _. apply digits2_bounds.
Qed.

Lemma Zdigits2_pos (m : Z) : 0 < m -> 0 < Zdigits2 m.
Proof. destruct m; cbn; lia. Qed.

Lemma Zdigits2_nonneg (m : Z) : 0 <= Zdigits2 m.
Proof. destruct m; cbn; lia. Qed.

Lemma Zdigits2_unique (m d : Z) :
  2 ^ (d - 1) <= m < 2 ^ d -> 0 < m -> Zdigits2 m = d.
Proof.
  intros [Hlo Hhi] Hm.
  destruct (Zdigits2_bounds m Hm) as [Hlo' Hhi'].
  pose proof (Zdigits2_pos m Hm) as Hd.
  assert (Hdpos : 0 < d).
  { destruct (Z_lt_le_dec 0 d) as [H | H]; [exact H |].
    exfalso. destruct (Z.eq_dec d 0) as [-> | Hne].
    - cbn in Hhi. lia.
    - rewrite (Z.pow_neg_r 2 d) in Hhi by lia. lia. }
  destruct (Z.lt_trichotomy (Zdigits2 m) d) as [H | [H | H]]; [| exact H |].
  - exfalso.
    assert (2 ^ Zdigits2 m <= 2 ^ (d - 1)) by (apply Z.pow_le_mono_r; lia).
    lia.
  - exfalso.
    assert (2 ^ d <= 2 ^ (Zdigits2 m - 1)) by (apply Z.pow_le_mono_r; lia).
    lia.
Qed.

Lemma Zdigits2_le (m d : Z) : 0 <= d -> 0 <= m < 2 ^ d -> Zdigits2 m <= d.
Proof.
  intros Hd [Hm Hhi].
  destruct (Z.eq_dec m 0) as [-> | Hne]; [cbn; lia |].
  destruct (Zdigits2_bounds m ltac:(lia)) as [Hlo' _].
  destruct (Z_le_gt_dec (Zdigits2 m) d) as [H | H]; [exact H |].
  exfalso.
  assert (2 ^ d <= 2 ^ (Zdigits2 m - 1)) by (apply Z.pow_le_mono_r; lia).
  lia.
Qed.

Lemma Zdigits2_ge (m d : Z) : 2 ^ (d - 1) <= m -> 0 < m -> d <= Zdigits2 m.
Proof.
  intros Hlo Hm.
  destruct (Zdigits2_bounds m Hm) as [_ Hhi'].
  destruct (Z_le_gt_dec d (Zdigits2 m)) as [H | H]; [exact H |].
  exfalso.
  assert (2 ^ Zdigits2 m <= 2 ^ (d - 1)) by (apply Z.pow_le_mono_r; [lia |]; lia).
  lia.
Qed.

Lemma Zdigits2_mono (a b : Z) : 0 <= a <= b -> Zdigits2 a <= Zdigits2 b.
Proof.
  intros [Ha Hab].
  destruct (Z.eq_dec a 0) as [-> | Hne]; [apply Zdigits2_nonneg |].
  apply Zdigits2_ge; [| lia].
  destruct (Zdigits2_bounds a ltac:(lia)) as [Hlo _]. lia.
Qed.

(** Shifting a mantissa left. *)
Lemma Zdigits2_shiftl (m n : Z) :
  0 < m -> 0 <= n -> Zdigits2 (m * 2 ^ n) = Zdigits2 m + n.
Proof.
  intros Hm Hn.
  destruct (Zdigits2_bounds m Hm) as [Hlo Hhi].
  pose proof (Zdigits2_pos m Hm) as Hd.
  assert (0 < 2 ^ n) by (apply Z.pow_pos_nonneg; lia).
  apply Zdigits2_unique; [| nia].
  replace (Zdigits2 m + n - 1) with ((Zdigits2 m - 1) + n) by lia.
  rewrite !Z.pow_add_r by lia. nia.
Qed.

(** Shifting a mantissa right. *)
Lemma Zdigits2_shiftr (m n : Z) :
  0 <= n -> 2 ^ n <= m -> Zdigits2 (m / 2 ^ n) = Zdigits2 m - n.
Proof.
  intros Hn Hm.
  assert (Hp : 0 < 2 ^ n) by (apply Z.pow_pos_nonneg; lia).
  assert (Hm0 : 0 < m) by lia.
  destruct (Zdigits2_bounds m Hm0) as [Hlo Hhi].
  assert (Hq : 0 < m / 2 ^ n) by (apply Z.div_str_pos; lia).
  assert (Hdn : n < Zdigits2 m).
  { destruct (Z_lt_le_dec n (Zdigits2 m)) as [H | H]; [exact H |].
    exfalso. assert (2 ^ Zdigits2 m <= 2 ^ n) by (apply Z.pow_le_mono_r; lia). lia. }
  apply Zdigits2_unique; [| exact Hq].
  split.
  - apply Z.div_le_lower_bound; [lia |].
    rewrite <- Z.pow_add_r by lia.
    replace (n + (Zdigits2 m - n - 1)) with (Zdigits2 m - 1) by lia. exact Hlo.
  - apply Z.div_lt_upper_bound; [lia |].
    rewrite <- Z.pow_add_r by lia.
    replace (n + (Zdigits2 m - n)) with (Zdigits2 m) by lia. exact Hhi.
Qed.

(** ** Shifting right with a sticky bit *)

Lemma shr_1_spec (mrs : shr_record) :
  0 <= shr_m mrs ->
  shr_m (shr_1 mrs) = shr_m mrs / 2
  /\ (shr_exact (shr_1 mrs) <-> shr_exact mrs /\ shr_m mrs mod 2 = 0).
Proof.
  destruct mrs as [m r s]. cbn [shr_m]. intros Hm.
  unfold shr_exact.
  destruct m as [| [p | p |] | p]; try lia; cbn [shr_1 shr_m shr_r shr_s].
  - split; [reflexivity |]. destruct r, s; cbn; intuition congruence.
  - split.
    + rewrite Pos2Z.inj_xI. apply Z.div_unique with (r := 1); lia.
    + rewrite Pos2Z.inj_xI.
      replace ((2 * Z.pos p + 1) mod 2) with 1
        by (apply Z.mod_unique with (q := Z.pos p); lia).
      intuition (try congruence; try lia).
  - split.
    + rewrite Pos2Z.inj_xO. apply Z.div_unique with (r := 0); lia.
    + rewrite Pos2Z.inj_xO.
      replace ((2 * Z.pos p) mod 2) with 0
        by (apply Z.mod_unique with (q := Z.pos p); lia).
      destruct r, s; cbn; intuition congruence.
  - split; [reflexivity |].
    change (1 mod 2) with 1. intuition (try congruence; try lia).
Qed.

Lemma mod_mul_zero (m a b : Z) :
  0 < a -> 0 < b ->
  (m mod (a * b) = 0 <-> m mod a = 0 /\ (m / a) mod b = 0).
Proof.
  intros Ha Hb. rewrite Z.rem_mul_r by lia.
  pose proof (Z.mod_pos_bound m a Ha).
  pose proof (Z.mod_pos_bound (m / a) b Hb).
  split; [intros H1; split; nia | intros [-> ->]; lia].
Qed.

Lemma iter_shr_spec (p : positive) :
  forall mrs, 0 <= shr_m mrs ->
    shr_m (iter_pos shr_1 p mrs) = shr_m mrs / 2 ^ Z.pos p
    /\ (shr_exact (iter_pos shr_1 p mrs)
        <-> shr_exact mrs /\ shr_m mrs mod 2 ^ Z.pos p = 0).
Proof.
  induction p as [p IH | p IH |]; intros mrs Hm; cbn [iter_pos].
  - destruct (shr_1_spec mrs Hm) as [H1 E1].
    assert (Hm1 : 0 <= shr_m (shr_1 mrs)) by (rewrite H1; apply Z.div_pos; lia).
    destruct (IH (shr_1 mrs) Hm1) as [H2 E2].
    assert (Hm2 : 0 <= shr_m (iter_pos shr_1 p (shr_1 mrs))).
    { rewrite H2. apply Z.div_pos; [lia | apply Z.pow_pos_nonneg; lia]. }
    destruct (IH _ Hm2) as [H3 E3].
    assert (Hp : 0 < 2 ^ Z.pos p) by (apply Z.pow_pos_nonneg; lia).
    assert (Hpow : 2 ^ Z.pos p~1 = 2 * (2 ^ Z.pos p * 2 ^ Z.pos p)).
    { rewrite <- Z.pow_add_r by lia.
      replace (Z.pos p~1) with (Z.succ (Z.pos p + Z.pos p)) by lia.
      apply Z.pow_succ_r. lia. }
    split.
    + rewrite H3, H2, H1, Hpow. rewrite !Z.div_div by lia. reflexivity.
    + rewrite E3, E2, E1, H2, H1, Hpow.
      rewrite (mod_mul_zero (shr_m mrs) 2 (2 ^ Z.pos p * 2 ^ Z.pos p)) by lia.
      rewrite (mod_mul_zero (shr_m mrs / 2) (2 ^ Z.pos p) (2 ^ Z.pos p)) by lia.
      tauto.
  - destruct (IH mrs Hm) as [H2 E2].
    assert (Hm2 : 0 <= shr_m (iter_pos shr_1 p mrs)).
    { rewrite H2. apply Z.div_pos; [lia | apply Z.pow_pos_nonneg; lia]. }
    destruct (IH _ Hm2) as [H3 E3].
    assert (Hp : 0 < 2 ^ Z.pos p) by (apply Z.pow_pos_nonneg; lia).
    assert (Hpow : 2 ^ Z.pos p~0 = 2 ^ Z.pos p * 2 ^ Z.pos p).
    { rewrite <- Z.pow_add_r by lia. f_equal. lia. }
    split.
    + rewrite H3, H2, Hpow. rewrite !Z.div_div by lia. reflexivity.
    + rewrite E3, E2, H2, Hpow.
      rewrite (mod_mul_zero (shr_m mrs) (2 ^ Z.pos p) (2 ^ Z.pos p)) by lia.
      tauto.
  - change (2 ^ 1) with 2. apply shr_1_spec. exact Hm.
Qed.

Lemma shr_m_record_of_loc (m : Z) (l : location) :
  shr_m (shr_record_of_loc m l) = m.
Proof. destruct l as [| []]; reflexivity. Qed.

Lemma shr_exact_record_of_loc (m : Z) (l : location) :
  shr_exact (shr_record_of_loc m l) <-> l = loc_Exact.
Proof.
  unfold shr_exact. destruct l as [| []]; cbn; intuition congruence.
Qed.

Lemma loc_exact_iff (mrs : shr_record) :
  loc_of_shr_record mrs = loc_Exact <-> shr_exact mrs.
Proof.
  unfold shr_exact. destruct mrs as [m [] []]; cbn; intuition congruence.
Qed.

(** The first pass of a rounding: the mantissa is cut down to the grid of
    its binade. *)
Lemma shr_fexp_spec (mx ex : Z) (lx : location) :
  0 <= mx ->
  let s := Z.max 0 (fexp F32.prec F32.emax (Zdigits2 mx + ex) - ex) in
  exists mrs,
    shr_fexp F32.prec F32.emax mx ex lx = (mrs, ex + s)
    /\ shr_m mrs = mx / 2 ^ s
    /\ (shr_exact mrs <-> lx = loc_Exact /\ mx mod 2 ^ s = 0).
Proof.
  intros Hm s. unfold shr_fexp, shr. subst s.
  destruct (fexp F32.prec F32.emax (Zdigits2 mx + ex) - ex) as [| p | p] eqn:Hn.
  - exists (shr_record_of_loc mx lx). cbn [Z.max Z.compare].
    rewrite Z.add_0_r, Z.div_1_r, Z.mod_1_r, shr_m_record_of_loc, shr_exact_record_of_loc.
    intuition.
  - exists (iter_pos shr_1 p (shr_record_of_loc mx lx)).
    replace (Z.max 0 (Z.pos p)) with (Z.pos p) by lia.
    destruct (iter_shr_spec p (shr_record_of_loc mx lx)) as [H1 E1].
    { rewrite shr_m_record_of_loc. exact Hm. }
    rewrite shr_m_record_of_loc in H1, E1. rewrite shr_exact_record_of_loc in E1.
    intuition.
  - exists (shr_record_of_loc mx lx).
    replace (Z.max 0 (Z.neg p)) with 0 by lia.
    rewrite Z.add_0_r, Z.div_1_r, Z.mod_1_r, shr_m_record_of_loc, shr_exact_record_of_loc.
    intuition.
Qed.

Lemma round_nearest_even_spec (m : Z) (l : location) :
  m <= round_nearest_even m l <= m + 1
  /\ (l = loc_Exact -> round_nearest_even m l = m).
Proof.
  destruct l as [| []]; cbn [round_nearest_even];
    try destruct (Z.even m); split; try lia; try reflexivity; discriminate.
Qed.

Lemma fexp_val (e : Z) : fexp F32.prec F32.emax e = Z.max (e - 24) (-149).
Proof. reflexivity. Qed.

Lemma emax_prec_val : F32.emax - F32.prec = 104.
Proof. reflexivity. Qed.

(** What one rounding does: the mantissa [mx] at exponent [ex] is cut down
    to [m1] at the exponent [e1] of its binade, moved up by at most one unit,
    and renormalised. *)
Lemma binary_round_aux_spec (sx : bool) (mx ex : Z) (lx : location) :
  0 <= mx ->
  let s := Z.max 0 (fexp F32.prec F32.emax (Zdigits2 mx + ex) - ex) in
  let e1 := ex + s in
  let m1 := mx / 2 ^ s in
  exists m2,
    m1 <= m2 <= m1 + 1
    /\ (lx = loc_Exact -> mx mod 2 ^ s = 0 -> m2 = m1)
    /\ ((m2 = 0 /\ binary_round_aux F32.prec F32.emax sx mx ex lx = S754_zero sx)
        \/ exists m3 e3,
             e1 <= e3 <= e1 + 1
             /\ Z.pos m3 * 2 ^ (e3 - e1) = m2
             /\ (ex <= fexp F32.prec F32.emax (Zdigits2 mx + ex) ->
                 canonical_mantissa F32.prec F32.emax m3 e3 = true)
             /\ binary_round_aux F32.prec F32.emax sx mx ex lx
                = if e3 <=? F32.emax - F32.prec then S754_finite sx m3 e3
                  else S754_infinity sx).
Proof.
  intros Hm s e1 m1.
  destruct (shr_fexp_spec mx ex lx Hm) as (mrs & Hshr & Hm1 & Hex).
  fold s in Hshr, Hm1, Hex. fold e1 in Hshr. fold m1 in Hm1.
  unfold binary_round_aux. rewrite Hshr.
  destruct (round_nearest_even_spec (shr_m mrs) (loc_of_shr_record mrs)) as [Hr1 Hr2].
  remember (round_nearest_even (shr_m mrs) (loc_of_shr_record mrs)) as m2 eqn:Hm2def.
  clear Hm2def. rewrite Hm1 in Hr1.
  assert (Hs0 : 0 <= s) by (unfold s; lia).
  assert (Hps : 0 < 2 ^ s) by (apply Z.pow_pos_nonneg; lia).
  assert (Hm1nn : 0 <= m1) by (unfold m1; apply Z.div_pos; lia).
  assert (He1 : -149 <= e1 /\ fexp F32.prec F32.emax (Zdigits2 mx + ex) <= e1).
  { unfold e1, s. rewrite fexp_val. lia. }
  exists m2. split; [exact Hr1 |]. split.
  { intros Hl Hmod. rewrite <- Hm1. apply Hr2. apply loc_exact_iff, Hex. auto. }
  (* the binade of the cut mantissa *)
  assert (Hmu : 0 < m1 -> Zdigits2 m1 + e1 = Zdigits2 mx + ex).
  { intros Hpos. unfold m1, e1.
    rewrite Zdigits2_shiftr; [lia | exact Hs0 |].
    destruct (Z_le_gt_dec (2 ^ s) mx) as [H | H]; [exact H |].
    exfalso. unfold m1 in Hpos. rewrite Z.div_small in Hpos by lia. lia. }
  assert (Hsmall : m1 = 0 -> Zdigits2 mx + ex <= e1).
  { intros H0. unfold e1.
    assert (Zdigits2 mx <= s); [| lia].
    apply Zdigits2_le; [exact Hs0 |]. split; [exact Hm |].
    destruct (Z_lt_le_dec mx (2 ^ s)) as [H | H]; [exact H |].
    exfalso. assert (0 < mx / 2 ^ s) by (apply Z.div_str_pos; lia).
    unfold m1 in H0. lia. }
  destruct (Z.eq_dec m2 0) as [Hz | Hnz].
  - left. split; [exact Hz |].
    rewrite Hz. unfold shr_fexp, shr. cbn [Zdigits2 shr_record_of_loc].
    rewrite Z.add_0_l, fexp_val.
    destruct (Z.max (e1 - 24) (-149) - e1) as [| p | p] eqn:Hn; try reflexivity.
    exfalso. lia.
  - right.
    assert (Hm2 : 0 < m2) by lia.
    remember (fexp F32.prec F32.emax (Zdigits2 m2 + e1) - e1) as n2 eqn:Hn.
    assert (Hn2 : n2 <= 1 /\ (n2 = 1 -> exists p, m2 = Z.pos p~0)
                  /\ (ex <= fexp F32.prec F32.emax (Zdigits2 mx + ex) -> 0 <= n2)).
    { destruct (Z.eq_dec m1 0) as [H0 | Hne].
      - assert (m2 = 1) by lia. subst n2. rewrite H. cbn [Zdigits2 digits2_pos].
        rewrite fexp_val. split; [lia |]. split; [lia |].
        intros Hal. specialize (Hsmall H0). rewrite fexp_val in He1, Hal.
        unfold e1, s in *. rewrite fexp_val in *. lia.
      - assert (Hpos : 0 < m1) by lia. specialize (Hmu Hpos).
        destruct (Zdigits2_bounds m1 Hpos) as [Hlo Hhi].
        pose proof (Zdigits2_pos m1 Hpos) as Hd1.
        assert (Hd2 : Zdigits2 m1 <= Zdigits2 m2 <= Zdigits2 m1 + 1).
        { split; [apply Zdigits2_mono; lia |].
          apply Zdigits2_le; [lia |]. rewrite Z.pow_add_r by lia. lia. }
        subst n2. rewrite fexp_val in *. split; [lia |]. split.
        + intros Hone.
          assert (Hd : Zdigits2 m2 = Zdigits2 m1 + 1) by lia.
          destruct (Zdigits2_bounds m2 Hm2) as [Hlo2 _].
          rewrite Hd in Hlo2. replace (Zdigits2 m1 + 1 - 1) with (Zdigits2 m1) in Hlo2 by lia.
          assert (Heq : m2 = 2 ^ Zdigits2 m1) by lia.
          replace (Zdigits2 m1) with (Z.succ (Zdigits2 m1 - 1)) in Heq by lia.
          rewrite Z.pow_succ_r in Heq by lia.
          assert (Hq : 0 < 2 ^ (Zdigits2 m1 - 1)) by (apply Z.pow_pos_nonneg; lia).
          destruct (2 ^ (Zdigits2 m1 - 1)) as [| q | q]; try lia.
          exists q. rewrite Heq. reflexivity.
        + intros Hal. unfold e1, s in *. rewrite fexp_val in *. lia. }
    destruct Hn2 as (Hle & Heven & Hal).
    unfold shr_fexp, shr. rewrite <- Hn.
    destruct n2 as [| p | p].
    + destruct m2 as [| q | q]; try lia.
      cbn [shr_record_of_loc shr_m].
      exists q, e1. split; [lia |]. split; [rewrite Z.sub_diag; cbn; lia |].
      split; [| reflexivity].
      intros Ha. unfold canonical_mantissa. apply Z.eqb_eq.
      change (Z.pos (digits2_pos q)) with (Zdigits2 (Z.pos q)). lia.
    + assert (Hp1 : p = 1%positive) by lia. subst p.
      destruct (Heven eq_refl) as (q & Hq).
      rewrite Hq. cbn [shr_record_of_loc iter_pos shr_1 shr_m].
      exists q, (e1 + 1). split; [lia |].
      split; [replace (e1 + 1 - e1) with 1 by lia; cbn; lia |].
      split; [| reflexivity].
      intros _. unfold canonical_mantissa. apply Z.eqb_eq.
      rewrite Hq in Hn. cbn [Zdigits2 digits2_pos] in Hn.
      rewrite Pos2Z.inj_succ in Hn.
      replace (Z.pos (digits2_pos q) + (e1 + 1))
        with (Z.succ (Z.pos (digits2_pos q)) + e1) by lia.
      lia.
    + destruct m2 as [| q | q]; try lia.
      cbn [shr_record_of_loc shr_m].
      exists q, e1. split; [lia |]. split; [rewrite Z.sub_diag; cbn; lia |].
      split; [| reflexivity].
      intros Ha. specialize (Hal Ha). lia.
Qed.

(** ** Rounding an integer mantissa *)

Lemma iter_xO_val (d m : positive) :
  Z.pos (Pos.iter xO m d) = Z.pos m * 2 ^ Z.pos d.
Proof.
  revert m. induction d as [| d IH] using Pos.peano_ind; intros m.
  - cbn [Pos.iter]. change (2 ^ 1) with 2. lia.
  - rewrite Pos.iter_succ, Pos2Z.inj_xO, IH, Pos2Z.inj_succ, Z.pow_succ_r by lia. lia.
Qed.

Lemma shl_align_spec (m : positive) (ex ex' : Z) :
  exists mz,
    shl_align m ex ex' = (mz, Z.min ex ex')
    /\ Z.pos mz = Z.pos m * 2 ^ (ex - Z.min ex ex').
Proof.
  unfold shl_align. destruct (ex' - ex) as [| d | d] eqn:Hd.
  - exists m. replace (Z.min ex ex') with ex by lia.
    rewrite Z.sub_diag. split; [reflexivity | cbn; lia].
  - exists m. replace (Z.min ex ex') with ex by lia.
    rewrite Z.sub_diag. split; [reflexivity | cbn; lia].
  - exists (Pos.iter xO m d). replace (Z.min ex ex') with ex' by lia.
    split; [reflexivity |]. rewrite iter_xO_val. f_equal. f_equal. lia.
Qed.

(** Rounding a positive [m * 2^ez] that lies between the integers [A] and
    [B], below [2^24]: the result is a binary32 number between [A] and [B]. *)
Lemma binary_round_between (sx : bool) (m : positive) (ez A B : Z) :
  ez <= 0 -> 0 <= A -> B < 2 ^ 24 ->
  A * 2 ^ (- ez) <= Z.pos m <= B * 2 ^ (- ez) ->
  (binary_round F32.prec F32.emax sx m ez = S754_zero sx /\ A = 0)
  \/ exists m3 e3,
       binary_round F32.prec F32.emax sx m ez = S754_finite sx m3 e3
       /\ bounded F32.prec F32.emax m3 e3 = true
       /\ -149 <= e3
       /\ A * 2 ^ 149 <= Z.pos m3 * 2 ^ (e3 + 149) <= B * 2 ^ 149.
Proof.
  intros Hez HA HB [Hlo Hhi].
  unfold binary_round.
  change (Z.pos (digits2_pos m)) with (Zdigits2 (Z.pos m)).
  set (mu := Zdigits2 (Z.pos m) + ez).
  destruct (shl_align_spec m ez (fexp F32.prec F32.emax mu)) as (mz & Hal & Hmz).
  rewrite Hal.
  set (ez' := Z.min ez (fexp F32.prec F32.emax mu)) in *.
  assert (Hpe : 0 < 2 ^ (- ez)) by (apply Z.pow_pos_nonneg; lia).
  (* the binade *)
  assert (Hmu24 : mu <= 24).
  { unfold mu. assert (Zdigits2 (Z.pos m) <= 24 - ez); [| lia].
    apply Zdigits2_le; [lia |]. split; [lia |].
    replace (24 - ez) with (24 + - ez) by lia. rewrite Z.pow_add_r by lia. nia. }
  assert (Hdz : Zdigits2 (Z.pos mz) + ez' = mu).
  { rewrite Hmz, Zdigits2_shiftl by lia. unfold mu. lia. }
  pose proof (binary_round_aux_spec sx (Z.pos mz) ez' loc_Exact ltac:(lia)) as Hspec.
  cbv zeta in Hspec. rewrite Hdz in Hspec.
  set (fe := fexp F32.prec F32.emax mu) in *.
  assert (Hfe : -149 <= fe <= 0 /\ ez' <= fe).
  { unfold fe, ez'. rewrite fexp_val. fold fe. unfold fe. rewrite fexp_val. lia. }
  replace (Z.max 0 (fe - ez')) with (fe - ez') in Hspec by lia.
  replace (ez' + (fe - ez')) with fe in Hspec by lia.
  set (s := fe - ez') in *.
  set (t := - fe).
  assert (Hs : 0 <= s) by (unfold s; lia).
  assert (Ht : 0 <= t) by (unfold t; lia).
  assert (Hps : 0 < 2 ^ s) by (apply Z.pow_pos_nonneg; lia).
  assert (Hpt : 0 < 2 ^ t) by (apply Z.pow_pos_nonneg; lia).
  assert (Hpz : 2 ^ (- ez') = 2 ^ t * 2 ^ s).
  { rewrite <- Z.pow_add_r by lia. f_equal. unfold t, s. lia. }
  assert (Hbz : A * 2 ^ (- ez') <= Z.pos mz <= B * 2 ^ (- ez')).
  { assert (Hsplit : 2 ^ (- ez') = 2 ^ (- ez) * 2 ^ (ez - ez')).
    { rewrite <- Z.pow_add_r by (unfold ez'; lia). f_equal. lia. }
    assert (0 < 2 ^ (ez - ez')) by (apply Z.pow_pos_nonneg; unfold ez'; lia).
    rewrite Hsplit, Hmz. nia. }
  rewrite Hpz in Hbz.
  set (m1 := Z.pos mz / 2 ^ s) in *.
  assert (Hm1 : A * 2 ^ t <= m1 <= B * 2 ^ t).
  { unfold m1. split.
    - apply Z.div_le_lower_bound; [lia | nia].
    - apply Z.div_le_upper_bound; [lia | nia]. }
  destruct Hspec as (m2 & Hm2 & Hexact & Hres).
  assert (Hup : m2 <= B * 2 ^ t).
  { destruct (Z.eq_dec (Z.pos mz mod 2 ^ s) 0) as [H0 | Hne].
    - rewrite (Hexact eq_refl H0). lia.
    - pose proof (Z.div_mod (Z.pos mz) (2 ^ s) ltac:(lia)) as Hdm.
      pose proof (Z.mod_pos_bound (Z.pos mz) (2 ^ s) Hps) as Hmb.
      fold m1 in Hdm. nia. }
  assert (H149 : 2 ^ 149 = 2 ^ t * 2 ^ (fe + 149)).
  { rewrite <- Z.pow_add_r by lia. f_equal. unfold t. lia. }
  assert (Hpf : 0 < 2 ^ (fe + 149)) by (apply Z.pow_pos_nonneg; lia).
  destruct Hres as [[Hz Hr] | (m3 & e3 & He3 & Hval & Hcan & Hr)].
  - left. split; [exact Hr | nia].
  - right. exists m3, e3.
    assert (Hle : (e3 <=? F32.emax - F32.prec) = true).
    { rewrite emax_prec_val. apply Z.leb_le. lia. }
    rewrite Hle in Hr. split; [exact Hr |]. split.
    { unfold bounded. rewrite Hle, Hcan; [reflexivity |]. unfold ez'. lia. }
    split; [lia |].
    assert (Hsc : Z.pos m3 * 2 ^ (e3 + 149) = m2 * 2 ^ (fe + 149)).
    { rewrite <- Hval, <- Z.mul_assoc, <- Z.pow_add_r by lia. f_equal. f_equal. lia. }
    rewrite Hsc, H149. nia.
Qed.

Lemma binary_normalize_between (M ez L U : Z) :
  ez <= 0 -> - 2 ^ 24 < L -> U < 2 ^ 24 ->
  L * 2 ^ (- ez) <= M <= U * 2 ^ (- ez) ->
  valid32 (binary_normalize F32.prec F32.emax M ez false) = true
  /\ between L U (binary_normalize F32.prec F32.emax M ez false).
Proof.
  intros Hez HL HU [Hlo Hhi].
  assert (Hpe : 0 < 2 ^ (- ez)) by (apply Z.pow_pos_nonneg; lia).
  assert (H149 : 0 < 2 ^ 149) by (apply Z.pow_pos_nonneg; lia).
  destruct M as [| m | m]; cbn [binary_normalize].
  - split; [reflexivity |]. split; [reflexivity |]. cbn [scaled]. nia.
  - destruct (binary_round_between false m ez (Z.max L 0) U Hez ltac:(lia) HU)
      as [[Hr H0] | (m3 & e3 & Hr & Hb & He & Hv)]; [nia | |]; rewrite Hr.
    + split; [reflexivity |]. split; [reflexivity |]. cbn [scaled]. nia.
    + split; [exact Hb |]. split; [reflexivity |]. cbn [scaled]. nia.
  - destruct (binary_round_between true m ez (Z.max (- U) 0) (- L) Hez ltac:(lia) ltac:(lia))
      as [[Hr H0] | (m3 & e3 & Hr & Hb & He & Hv)]; [nia | |]; rewrite Hr.
    + split; [reflexivity |]. split; [reflexivity |]. cbn [scaled]. nia.
    + split; [exact Hb |]. split; [reflexivity |]. cbn [scaled].
      change (Z.neg m3) with (- Z.pos m3). nia.
Qed.

(** ** Numbers below [2^24] *)

Lemma bounded_inv (m : positive) (e : Z) :
  bounded F32.prec F32.emax m e = true ->
  e = Z.max (Zdigits2 (Z.pos m) + e - 24) (-149) /\ e <= 104.
Proof.
  unfold bounded, canonical_mantissa. intros H.
  apply andb_prop in H. destruct H as [H1 H2].
  apply Z.eqb_eq in H1. apply Z.leb_le in H2.
  rewrite fexp_val in H1. rewrite emax_prec_val in H2.
  change (Z.pos (digits2_pos m)) with (Zdigits2 (Z.pos m)) in H1. lia.
Qed.

Lemma valid_small_exponent (s : bool) (m : positive) (e L U : Z) :
  valid32 (S754_finite s m e) = true ->
  - 2 ^ 24 <= L -> U <= 2 ^ 24 ->
  between L U (S754_finite s m e) ->
  -149 <= e <= 0 \/ (e = 1 /\ Z.pos m = 2 ^ 23).
Proof.
  intros Hv HL HU [_ Hb]. cbn [valid32 valid_binary] in Hv.
  destruct (bounded_inv m e Hv) as [He _].
  destruct (Zdigits2_bounds (Z.pos m) ltac:(lia)) as [Hlo Hhi].
  destruct (Z_le_gt_dec e 0) as [H0 | H0]; [left; lia |].
  right.
  assert (Hd : Zdigits2 (Z.pos m) = 24) by lia.
  rewrite Hd in Hlo. change (2 ^ (24 - 1)) with (2 ^ 23) in Hlo.
  cbn [scaled] in Hb.
  assert (H149 : 0 < 2 ^ 149) by (apply Z.pow_pos_nonneg; lia).
  assert (Hsplit : 2 ^ (e + 149) = 2 ^ e * 2 ^ 149) by (apply Z.pow_add_r; lia).
  assert (He2 : 2 <= 2 ^ e).
  { change 2 with (2 ^ 1) at 1. apply Z.pow_le_mono_r; lia. }
  assert (Hmag : Z.pos m * 2 ^ e <= 2 ^ 24).
  { destruct s; rewrite Hsplit in Hb.
    - change (Z.neg m) with (- Z.pos m) in Hb. nia.
    - nia. }
  change (2 ^ 24) with (2 * 2 ^ 23) in Hmag.
  assert (He1 : e = 1).
  { destruct (Z.eq_dec e 1) as [H1 | H1]; [exact H1 |].
    exfalso. assert (2 ^ 2 <= 2 ^ e) by (apply Z.pow_le_mono_r; lia).
    change (2 ^ 2) with 4 in *. nia. }
  split; [exact He1 |]. subst e. change (2 ^ 1) with 2 in Hmag. lia.
Qed.

Lemma valid_exponent_neg (s : bool) (m : positive) (e L U : Z) :
  valid32 (S754_finite s m e) = true ->
  - 2 ^ 24 < L -> U < 2 ^ 24 ->
  between L U (S754_finite s m e) ->
  -149 <= e <= 0.
Proof.
  intros Hv HL HU Hb.
  destruct (valid_small_exponent s m e L U Hv ltac:(lia) ltac:(lia) Hb)
    as [H | [He Hm]]; [exact H |].
  exfalso. destruct Hb as [_ Hb]. cbn [scaled] in Hb. subst e. rewrite Hm in Hb.
  assert (H149 : 0 < 2 ^ 149) by (apply Z.pow_pos_nonneg; lia).
  change (2 ^ (1 + 149)) with (2 * 2 ^ 149) in Hb.
  destruct s.
  - assert (Z.neg m = - 2 ^ 23) by lia. rewrite H in Hb.
    change (2 ^ 24) with (2 * 2 ^ 23) in *. nia.
  - change (2 ^ 24) with (2 * 2 ^ 23) in *. nia.
Qed.

Lemma aligned_scaled (s : bool) (m : positive) (e ez : Z) :
  -149 <= ez -> ez <= e ->
  cond_Zopp s (Z.pos (fst (shl_align m e ez))) * 2 ^ (ez + 149)
  = scaled (S754_finite s m e).
Proof.
  intros Hz He.
  destruct (shl_align_spec m e ez) as (mz & Hal & Hmz).
  rewrite Hal. cbn [fst scaled]. rewrite Hmz.
  replace (Z.min e ez) with ez by lia.
  replace (e + 149) with ((e - ez) + (ez + 149)) by lia.
  rewrite (Z.pow_add_r 2 (e - ez) (ez + 149)) by lia.
  destruct s; cbn [cond_Zopp].
  - change (Z.neg m) with (- Z.pos m). lia.
  - lia.
Qed.

(** The difference of two numbers that lie between integers lies between
    the differences of the bounds. *)
Lemma sub_between (a b : f32) (la ua lb ub : Z) :
  valid32 a = true -> valid32 b = true ->
  between la ua a -> between lb ub b ->
  - 2 ^ 24 < la -> ua < 2 ^ 24 -> - 2 ^ 24 < lb -> ub < 2 ^ 24 ->
  - 2 ^ 24 < lb - ua -> ub - la < 2 ^ 24 ->
  valid32 (F32.sub b a) = true /\ between (lb - ua) (ub - la) (F32.sub b a).
Proof.
  intros Hva Hvb Hba Hbb Hla Hua Hlb Hub HL HU.
  assert (H149 : 0 < 2 ^ 149) by (apply Z.pow_pos_nonneg; lia).
  destruct b as [sb | sb | | sb mb eb]; try (destruct Hbb as [Hr _]; discriminate Hr);
    destruct a as [sa | sa | | sa ma ea]; try (destruct Hba as [Hr _]; discriminate Hr).
  - destruct Hba as [_ Hba], Hbb as [_ Hbb]. cbn [scaled] in Hba, Hbb.
    unfold F32.sub. cbn [SFsub].
    destruct sb, sa; (split; [reflexivity |]); (split; [reflexivity |]); cbn [scaled]; lia.
  - destruct Hba as [_ Hba], Hbb as [_ Hbb]. cbn [scaled] in Hba, Hbb.
    unfold F32.sub. cbn [SFsub]. split; [exact Hva |]. split; [reflexivity |].
    cbn [scaled]. destruct sa; cbn [negb].
    + change (Z.neg ma) with (- Z.pos ma) in Hba. lia.
    + change (Z.neg ma) with (- Z.pos ma). lia.
  - destruct Hba as [_ Hba], Hbb as [_ Hbb]. cbn [scaled] in Hba.
    unfold F32.sub. cbn [SFsub]. split; [exact Hvb |]. split; [reflexivity |]. lia.
  - pose proof (valid_exponent_neg sa ma ea la ua Hva Hla Hua Hba) as Hea.
    pose proof (valid_exponent_neg sb mb eb lb ub Hvb Hlb Hub Hbb) as Heb.
    destruct Hba as [_ Hba], Hbb as [_ Hbb].
    unfold F32.sub. cbn [SFsub].
    set (ez := Z.min eb ea).
    pose proof (aligned_scaled sb mb eb ez ltac:(unfold ez; lia) ltac:(unfold ez; lia)) as Hsb.
    pose proof (aligned_scaled sa ma ea ez ltac:(unfold ez; lia) ltac:(unfold ez; lia)) as Hsa.
    set (Mb := cond_Zopp sb (Z.pos (fst (shl_align mb eb ez)))) in *.
    set (Ma := cond_Zopp sa (Z.pos (fst (shl_align ma ea ez)))) in *.
    apply binary_normalize_between; [unfold ez; lia | lia | lia |].
    assert (Hsplit : 2 ^ 149 = 2 ^ (- ez) * 2 ^ (ez + 149)).
    { rewrite <- Z.pow_add_r by (unfold ez; lia). f_equal. lia. }
    assert (Hp1 : 0 < 2 ^ (- ez)) by (apply Z.pow_pos_nonneg; unfold ez; lia).
    assert (Hp2 : 0 < 2 ^ (ez + 149)) by (apply Z.pow_pos_nonneg; unfold ez; lia).
    rewrite <- Hsa in Hba. rewrite <- Hsb in Hbb.
    rewrite Hsplit in Hba, Hbb. nia.
Qed.

(** The sum of two numbers that lie between integers lies between the sums
    of the bounds. *)
Lemma add_between (a b : f32) (la ua lb ub : Z) :
  valid32 a = true -> valid32 b = true ->
  between la ua a -> between lb ub b ->
  - 2 ^ 24 < la -> ua < 2 ^ 24 -> - 2 ^ 24 < lb -> ub < 2 ^ 24 ->
  - 2 ^ 24 < la + lb -> ua + ub < 2 ^ 24 ->
  valid32 (F32.add a b) = true /\ between (la + lb) (ua + ub) (F32.add a b).
Proof.
  intros Hva Hvb Hba Hbb Hla Hua Hlb Hub HL HU.
  assert (H149 : 0 < 2 ^ 149) by (apply Z.pow_pos_nonneg; lia).
  destruct b as [sb | sb | | sb mb eb]; try (destruct Hbb as [Hr _]; discriminate Hr);
    destruct a as [sa | sa | | sa ma ea]; try (destruct Hba as [Hr _]; discriminate Hr).
  - destruct Hba as [_ Hba], Hbb as [_ Hbb]. cbn [scaled] in Hba, Hbb.
    unfold F32.add. cbn [SFadd].
    destruct sb, sa; (split; [reflexivity |]); (split; [reflexivity |]); cbn [scaled]; lia.
  - destruct Hba as [_ Hba], Hbb as [_ Hbb]. cbn [scaled] in Hbb.
    unfold F32.add. cbn [SFadd]. split; [exact Hva |]. split; [reflexivity |]. lia.
  - destruct Hba as [_ Hba], Hbb as [_ Hbb]. cbn [scaled] in Hba.
    unfold F32.add. cbn [SFadd]. split; [exact Hvb |]. split; [reflexivity |]. lia.
  - pose proof (valid_exponent_neg sa ma ea la ua Hva Hla Hua Hba) as Hea.
    pose proof (valid_exponent_neg sb mb eb lb ub Hvb Hlb Hub Hbb) as Heb.
    destruct Hba as [_ Hba], Hbb as [_ Hbb].
    unfold F32.add. cbn [SFadd].
    set (ez := Z.min ea eb).
    pose proof (aligned_scaled sb mb eb ez ltac:(unfold ez; lia) ltac:(unfold ez; lia)) as Hsb.
    pose proof (aligned_scaled sa ma ea ez ltac:(unfold ez; lia) ltac:(unfold ez; lia)) as Hsa.
    set (Mb := cond_Zopp sb (Z.pos (fst (shl_align mb eb ez)))) in *.
    set (Ma := cond_Zopp sa (Z.pos (fst (shl_align ma ea ez)))) in *.
    apply binary_normalize_between; [unfold ez; lia | lia | lia |].
    assert (Hsplit : 2 ^ 149 = 2 ^ (- ez) * 2 ^ (ez + 149)).
    { rewrite <- Z.pow_add_r by (unfold ez; lia). f_equal. lia. }
    assert (Hp1 : 0 < 2 ^ (- ez)) by (apply Z.pow_pos_nonneg; unfold ez; lia).
    assert (Hp2 : 0 < 2 ^ (ez + 149)) by (apply Z.pow_pos_nonneg; unfold ez; lia).
    rewrite <- Hsa in Hba. rewrite <- Hsb in Hbb.
    rewrite Hsplit in Hba, Hbb. nia.
Qed.

(** ** Integers *)

Lemma int_value_scaled (x : f32) (k : Z) :
  valid32 x = true -> is_real x = true -> scaled x = k * 2 ^ 149 ->
  int_value x = Some k.
Proof.
  intros Hv Hr Hs.
  assert (H149 : 0 < 2 ^ 149) by (apply Z.pow_pos_nonneg; lia).
  destruct x as [s | s | | s m e]; try discriminate Hr.
  - cbn [scaled] in Hs. cbn [int_value]. f_equal. nia.
  - cbn [valid32 valid_binary] in Hv. destruct (bounded_inv m e Hv) as [He _].
    cbn [scaled] in Hs. cbn [int_value].
    set (v := if s then Z.neg m else Z.pos m) in *.
    destruct (Z.leb_spec 0 e) as [H0 | H0].
    + f_equal. rewrite Z.pow_add_r in Hs by lia. nia.
    + assert (Hp : 0 < 2 ^ (- e)) by (apply Z.pow_pos_nonneg; lia).
      assert (Hq : 0 < 2 ^ (e + 149)) by (apply Z.pow_pos_nonneg; lia).
      assert (Hsplit : 2 ^ 149 = 2 ^ (- e) * 2 ^ (e + 149)).
      { rewrite <- Z.pow_add_r by lia. f_equal. lia. }
      assert (Hv' : v = k * 2 ^ (- e)) by (rewrite Hsplit in Hs; nia).
      rewrite Hv', Z.mod_mul, Z.div_mul by lia. reflexivity.
Qed.

Lemma of_int_between (k : Z) :
  - 2 ^ 24 < k < 2 ^ 24 ->
  valid32 (F32.of_int k) = true /\ between k k (F32.of_int k).
Proof.
  intros Hk. unfold F32.of_int.
  apply binary_normalize_between; [lia | lia | lia |].
  change (2 ^ (- 0)) with 1. lia.
Qed.

Lemma int_value_of_int (k : Z) :
  - 2 ^ 24 < k < 2 ^ 24 -> int_value (F32.of_int k) = Some k.
Proof.
  intros Hk. destruct (of_int_between k Hk) as [Hv [Hr Hb]].
  apply int_value_scaled; [exact Hv | exact Hr | lia].
Qed.

(** The floor of a number that lies between two integers is an integer
    between them. *)
Lemma floor32_between (d : f32) (L U : Z) :
  valid32 d = true -> between L U d ->
  - 2 ^ 24 < L -> U < 2 ^ 24 ->
  exists k,
    valid32 (floor32 d) = true
    /\ int_value (floor32 d) = Some k
    /\ L <= k <= U
    /\ k * 2 ^ 149 <= scaled d < (k + 1) * 2 ^ 149.
Proof.
  intros Hv Hb HL HU.
  assert (H149 : 0 < 2 ^ 149) by (apply Z.pow_pos_nonneg; lia).
  destruct d as [s | s | | s m e]; try (destruct Hb as [Hr _]; discriminate Hr).
  - exists 0. destruct Hb as [_ Hb]. cbn [scaled] in *. cbn [floor32 int_value].
    split; [reflexivity |]. split; [reflexivity |]. lia.
  - pose proof (valid_exponent_neg s m e L U Hv HL HU Hb) as He.
    destruct Hb as [_ Hb]. cbn [scaled] in *. cbn [floor32].
    set (v := if s then Z.neg m else Z.pos m) in *.
    destruct (Z.leb_spec 0 e) as [H0 | H0].
    + assert (e = 0) by lia. subst e. exists v.
      cbn [int_value]. fold v. change (0 <=? 0) with true. cbv iota.
      change (2 ^ 0) with 1. rewrite Z.mul_1_r.
      change (2 ^ (0 + 149)) with (2 ^ 149) in *.
      split; [exact Hv |]. split; [reflexivity |]. nia.
    + assert (Hp : 0 < 2 ^ (- e)) by (apply Z.pow_pos_nonneg; lia).
      assert (Hq : 0 < 2 ^ (e + 149)) by (apply Z.pow_pos_nonneg; lia).
      assert (Hsplit : 2 ^ 149 = 2 ^ (- e) * 2 ^ (e + 149)).
      { rewrite <- Z.pow_add_r by lia. f_equal. lia. }
      rewrite Z.shiftr_div_pow2 by lia.
      set (k := v / 2 ^ (- e)).
      pose proof (Z.div_mod v (2 ^ (- e)) ltac:(lia)) as Hdm. fold k in Hdm.
      pose proof (Z.mod_pos_bound v (2 ^ (- e)) Hp) as Hmb.
      assert (Hk : L <= k <= U).
      { rewrite Hsplit in Hb. split.
        - apply Z.div_le_lower_bound; [lia | nia].
        - apply Z.div_le_upper_bound; [lia | nia]. }
      exists k. split; [apply of_int_between; lia |].
      split; [apply int_value_of_int; lia |].
      split; [exact Hk |]. rewrite Hsplit. nia.
Qed.

(** ** Scaling by a power of two *)

(** Multiplying a normal number by [2^k] only moves its exponent, as long as
    the product is a normal number too. *)
Lemma mul_pow2 (s : bool) (m : positive) (e k : Z) :
  Zdigits2 (Z.pos m) = 24 -> -149 <= e + k <= 104 ->
  F32.mul (S754_finite s m e) (pow2 k) = S754_finite s m (e + k).
Proof.
  intros Hd Hek. unfold F32.mul, pow2. cbn [SFmul].
  rewrite xorb_false_r.
  assert (Hmx : Z.pos (m * 8388608) = Z.pos m * 2 ^ 23) by reflexivity.
  pose proof (binary_round_aux_spec s (Z.pos (m * 8388608)) (e + (k - 23)) loc_Exact
                ltac:(lia)) as Hspec.
  cbv zeta in Hspec.
  assert (Hdig : Zdigits2 (Z.pos (m * 8388608)) = 47).
  { rewrite Hmx, Zdigits2_shiftl by lia. lia. }
  rewrite Hdig, fexp_val in Hspec.
  replace (Z.max 0 (Z.max (47 + (e + (k - 23)) - 24) (-149) - (e + (k - 23)))) with 23
    in Hspec by lia.
  replace (e + (k - 23) + 23) with (e + k) in Hspec by lia.
  rewrite Hmx, Z.div_mul, Z.mod_mul in Hspec by lia.
  destruct Hspec as (m2 & _ & Hexact & Hres).
  rewrite (Hexact eq_refl eq_refl) in Hres.
  destruct Hres as [[Hz _] | (m3 & e3 & He3 & Hval & Hcan & Hr)]; [lia |].
  specialize (Hcan ltac:(lia)).
  unfold canonical_mantissa in Hcan. apply Z.eqb_eq in Hcan. rewrite fexp_val in Hcan.
  change (Z.pos (digits2_pos m3)) with (Zdigits2 (Z.pos m3)) in Hcan.
  assert (He : e3 = e + k).
  { destruct (Z.eq_dec e3 (e + k)) as [H | H]; [exact H |].
    exfalso. assert (H1 : e3 - (e + k) = 1) by lia.
    rewrite H1 in Hval. change (2 ^ 1) with 2 in Hval.
    assert (Hd3 : Zdigits2 (Z.pos m3 * 2 ^ 1) = Zdigits2 (Z.pos m3) + 1)
      by (apply Zdigits2_shiftl; lia).
    change (2 ^ 1) with 2 in Hd3. rewrite Hval, Hd in Hd3. lia. }
  subst e3. rewrite Z.sub_diag in Hval. change (2 ^ 0) with 1 in Hval.
  assert (Hm3 : m3 = m) by lia. subst m3.
  rewrite <- Hmx in Hr. rewrite Hr, emax_prec_val.
  destruct (Z.leb_spec (e + k) 104); [reflexivity | lia].
Qed.

(** ** The harmonic fold *)

Lemma isnormal_finite (s : bool) (m : positive) (e : Z) :
  F32.isnormal (S754_finite s m e) = (Zdigits2 (Z.pos m) =? 24).
Proof.
  unfold F32.isnormal. cbn [SFclassify Zdigits2].
  change F32.prec with 24.
  destruct s; destruct (Z.pos (digits2_pos m) =? 24); reflexivity.
Qed.

Lemma mul_not_normal (x p : f32) :
  (match x with S754_finite _ _ _ => False | _ => True end) ->
  F32.isnormal (F32.mul x p) = false.
Proof.
  intros Hx. unfold F32.mul.
  destruct x as [sx | sx | | sx mx ex]; [| | | contradiction];
    destruct p as [sp | sp | | sp mp ep]; cbn [SFmul];
    try reflexivity;
    unfold F32.isnormal; cbn [SFclassify];
    destruct (xorb sx sp); reflexivity.
Qed.



(** A frequency that is NaN, infinite or zero folds to 60, for every libm. *)
Lemma fold_special (E : Externals) (freq thres : f32) :
  (match freq with S754_finite _ _ _ => False | _ => True end) ->
  get_harmonic_less_than E freq thres = F32.sixty.
Proof.
  intros Hx. unfold get_harmonic_less_than. cbv zeta.
  rewrite mul_not_normal by exact Hx. reflexivity.
Qed.


Lemma ilogb_bound (s : bool) (m : positive) (e : Z) :
  valid32 (S754_finite s m e) = true ->
  -149 <= ilogb (S754_finite s m e) <= 127.
Proof.
  intros Hv. cbn [valid32 valid_binary] in Hv.
  destruct (bounded_inv m e Hv) as [He Hle].
  pose proof (Zdigits2_pos (Z.pos m) ltac:(lia)) as Hd.
  cbn [ilogb]. change (Z.pos (digits2_pos m)) with (Zdigits2 (Z.pos m)). lia.
Qed.

(** With a libm as above, the fold of a normal frequency is the frequency
    with its exponent moved by the integer [k] that [floor] returns, and [k]
    is within one of the distance between the binades of the threshold and of
    the frequency. *)
Lemma fold_scales (E : Externals) (m mt : positive) (e et : Z) :
  libm_ok E ->
  let freq := S754_finite false m e in
  let thres := S754_finite false mt et in
  valid32 freq = true -> F32.isnormal freq = true -> valid32 thres = true ->
  -125 <= ilogb thres <= 126 ->
  -125 <= ilogb thres - ilogb freq <= 126 ->
  exists k,
    int_value (floorf E (log2f E thres - log2f E freq)%f32) = Some k
    /\ ilogb thres - ilogb freq - 1 <= k <= ilogb thres - ilogb freq + 1
    /\ get_harmonic_less_than E freq thres = S754_finite false m (e + k).
Proof.
  intros (Hlog & _ & Hfloor & Hpow & _) freq thres Hvf Hnf Hvt Ht Htf.
  destruct (Hlog m e Hvf) as [Hva Hba]. destruct (Hlog mt et Hvt) as [Hvb Hbb].
  fold freq in Hva, Hba. fold thres in Hvb, Hbb.
  pose proof (ilogb_bound false m e Hvf) as Hif. fold freq in Hif.
  set (ia := ilogb freq) in *. set (ib := ilogb thres) in *.
  destruct (sub_between (log2f E freq) (log2f E thres) ia (ia + 1) ib (ib + 1)
              Hva Hvb Hba Hbb) as [Hvd Hbd]; try lia.
  destruct (floor32_between _ _ _ Hvd Hbd) as (k & Hvk & Hk & Hkr & _); try lia.
  exists k. rewrite Hfloor by exact Hvd. split; [exact Hk |]. split; [lia |].
  unfold get_harmonic_less_than. cbv zeta.
  rewrite Hfloor by exact Hvd. rewrite (Hpow _ k Hvk Hk) by lia.
  unfold freq in Hnf. rewrite isnormal_finite in Hnf. apply Z.eqb_eq in Hnf.
  assert (Hia : ia = 23 + e).
  { unfold ia, freq. cbn [ilogb]. change (Z.pos (digits2_pos m)) with (Zdigits2 (Z.pos m)). lia. }
  unfold freq. rewrite mul_pow2 by lia.
  rewrite isnormal_finite, Hnf. reflexivity.
Qed.

(** ** Division *)

Lemma div_core_spec (m1 m2 : positive) (e1 e2 : Z) :
  let D := Zdigits2 (Z.pos m1) + e1 - (Zdigits2 (Z.pos m2) + e2) in
  let e' := Z.min (fexp F32.prec F32.emax D) (e1 - e2) in
  let s := e1 - e2 - e' in
  exists l,
    SFdiv_core_binary F32.prec F32.emax (Z.pos m1) e1 (Z.pos m2) e2
    = (Z.pos m1 * 2 ^ s / Z.pos m2, e', l).
Proof.
  intros D e' s. unfold SFdiv_core_binary.
  fold D. fold e'. fold s.
  assert (Hs : 0 <= s) by (unfold s, e'; lia).
  set (m' := match s with
             | 0 => Z.pos m1
             | Z.pos _ => Z.shiftl (Z.pos m1) s
             | Z.neg _ => 0
             end).
  assert (Hm' : m' = Z.pos m1 * 2 ^ s).
  { unfold m'. destruct s as [| p | p] eqn:Hsp.
    - cbn. lia.
    - apply Z.shiftl_mul_pow2. lia.
    - lia. }
  assert (Hq : fst (Z.div_eucl m' (Z.pos m2)) = m' / Z.pos m2) by reflexivity.
  destruct (Z.div_eucl m' (Z.pos m2)) as [q r].
  cbn [fst] in Hq. rewrite Hq, Hm'.
  eexists. reflexivity.
Qed.

(** The quotient that the division hands to the rounding has enough digits
    for the grid of its binade. *)
Lemma div_core_aligned (m1 m2 : positive) (e1 e2 : Z) :
  let D := Zdigits2 (Z.pos m1) + e1 - (Zdigits2 (Z.pos m2) + e2) in
  let e' := Z.min (fexp F32.prec F32.emax D) (e1 - e2) in
  let s := e1 - e2 - e' in
  let q := Z.pos m1 * 2 ^ s / Z.pos m2 in
  0 <= q /\ e' <= fexp F32.prec F32.emax (Zdigits2 q + e').
Proof.
  intros D e' s q.
  assert (Hs : 0 <= s) by (unfold s, e'; lia).
  assert (Hps : 0 < 2 ^ s) by (apply Z.pow_pos_nonneg; lia).
  assert (Hq0 : 0 <= q) by (unfold q; apply Z.div_pos; lia).
  split; [exact Hq0 |].
  set (d1 := Zdigits2 (Z.pos m1)) in *. set (d2 := Zdigits2 (Z.pos m2)) in *.
  destruct (Zdigits2_bounds (Z.pos m1) ltac:(lia)) as [Hlo1 Hhi1].
  destruct (Zdigits2_bounds (Z.pos m2) ltac:(lia)) as [Hlo2 Hhi2].
  fold d1 in Hlo1, Hhi1. fold d2 in Hlo2, Hhi2.
  pose proof (Zdigits2_pos (Z.pos m1) ltac:(lia)) as Hd1. fold d1 in Hd1.
  pose proof (Zdigits2_pos (Z.pos m2) ltac:(lia)) as Hd2. fold d2 in Hd2.
  assert (Hdq : d1 + s - d2 <= Zdigits2 q).
  { destruct (Z_le_gt_dec (d1 + s - d2) 0) as [H | H].
    - pose proof (Zdigits2_nonneg q). lia.
    - assert (Hqlo : 2 ^ (d1 + s - d2 - 1) <= q).
      { unfold q. apply Z.div_le_lower_bound; [lia |].
        assert (Hy : Z.pos m2 * 2 ^ (d1 + s - d2 - 1) <= 2 ^ d2 * 2 ^ (d1 + s - d2 - 1)).
        { apply Z.mul_le_mono_nonneg_r; [apply Z.pow_nonneg; lia | lia]. }
        rewrite <- Z.pow_add_r in Hy by lia.
        replace (d2 + (d1 + s - d2 - 1)) with ((d1 - 1) + s) in Hy by lia.
        rewrite Z.pow_add_r in Hy by lia. nia. }
      assert (0 < 2 ^ (d1 + s - d2 - 1)) by (apply Z.pow_pos_nonneg; lia).
      apply Zdigits2_ge; [exact Hqlo | lia]. }
  rewrite fexp_val. unfold e' at 1. rewrite fexp_val.
  assert (HD : D = d1 + s - d2 + e') by (unfold D, s; lia).
  lia.
Qed.

(** The result of a division is a binary32 datum, whatever the operands. *)
Lemma div_valid (x y : f32) : valid32 (F32.div x y) = true.
Proof.
  unfold F32.div.
  destruct x as [sx | sx | | sx mx ex]; destruct y as [sy | sy | | sy my ey];
    try reflexivity.
  cbn [SFdiv].
  destruct (div_core_spec mx my ex ey) as (l & Hcore). cbv zeta in Hcore.
  rewrite Hcore.
  destruct (div_core_aligned mx my ex ey) as [Hq Hal]. cbv zeta in Hal, Hq.
  match type of Hcore with _ = (?qq, ?ee, _) => set (q := qq) in *; set (e' := ee) in * end.
  destruct (binary_round_aux_spec (xorb sx sy) q e' l Hq) as (m2 & _ & _ & Hres).
  destruct Hres as [[_ Hr] | (m3 & e3 & _ & _ & Hcan & Hr)]; rewrite Hr; [reflexivity |].
  rewrite emax_prec_val.
  destruct (Z.leb_spec e3 104) as [Hle | Hgt]; [| reflexivity].
  cbn [valid32 valid_binary]. unfold bounded. rewrite (Hcan Hal), emax_prec_val.
  apply Z.leb_le in Hle. rewrite Hle. reflexivity.
Qed.

(** ** Comparison with 10 *)

Lemma not_below_ten (s : bool) (m : positive) (e : Z) :
  valid32 (S754_finite s m e) = true ->
  F32.lt (S754_finite s m e) F32.ten = false ->
  s = false /\ Zdigits2 (Z.pos m) = 24 /\ -20 <= e <= 104.
Proof.
  intros Hv Hlt. cbn [valid32 valid_binary] in Hv.
  destruct (bounded_inv m e Hv) as [He Hle].
  unfold F32.lt, SFltb, F32.ten in Hlt. cbn [SFcompare] in Hlt.
  destruct s; [discriminate Hlt |].
  destruct (Z.compare_spec e (-20)) as [H | H | H]; try lia; discriminate Hlt.
Qed.

(** ** Conversion to [int] *)

Lemma to_int_between (x : f32) (L U : Z) :
  valid32 x = true -> between L U x -> 0 <= L -> U < 2 ^ 24 ->
  L <= F32.to_int x <= U.
Proof.
  intros Hv Hb HL HU.
  assert (H149 : 0 < 2 ^ 149) by (apply Z.pow_pos_nonneg; lia).
  destruct x as [s | s | | s m e]; try (destruct Hb as [Hr _]; discriminate Hr).
  - destruct Hb as [_ Hb]. cbn [scaled] in Hb. cbn. lia.
  - pose proof (valid_exponent_neg s m e L U Hv ltac:(lia) HU Hb) as He.
    destruct Hb as [_ Hb]. cbn [scaled] in Hb.
    assert (Hq : 0 < 2 ^ (e + 149)) by (apply Z.pow_pos_nonneg; lia).
    destruct s.
    { exfalso. change (Z.neg m) with (- Z.pos m) in Hb. nia. }
    unfold F32.to_int. cbn [F32.trunc].
    assert (Hp : 0 < 2 ^ (- e)) by (apply Z.pow_pos_nonneg; lia).
    assert (Hsplit : 2 ^ 149 = 2 ^ (- e) * 2 ^ (e + 149)).
    { rewrite <- Z.pow_add_r by lia. f_equal. lia. }
    assert (Hsh : Z.shiftl (Z.pos m) e = Z.pos m / 2 ^ (- e)).
    { rewrite <- Z.shiftr_opp_r. apply Z.shiftr_div_pow2. lia. }
    rewrite Hsh. set (v := Z.pos m / 2 ^ (- e)).
    assert (Hvb : L <= v <= U).
    { rewrite Hsplit in Hb. unfold v. split.
      - apply Z.div_le_lower_bound; [lia | nia].
      - apply Z.div_le_upper_bound; [lia | nia]. }
    rewrite INT_MIN_val, INT_MAX_val.
    destruct (Z.leb_spec (-2147483648) v); [| lia].
    destruct (Z.leb_spec v 2147483647); [cbn; lia | lia].
Qed.

(** ** The wavelength of a folded frequency *)

Lemma between_finite (m : positive) (e L U : Z) :
  -149 <= e <= 0 ->
  L * 2 ^ (- e) <= Z.pos m <= U * 2 ^ (- e) ->
  between L U (S754_finite false m e).
Proof.
  intros He Hb. split; [reflexivity |]. cbn [scaled].
  assert (Hp : 0 < 2 ^ (- e)) by (apply Z.pow_pos_nonneg; lia).
  assert (Hq : 0 < 2 ^ (e + 149)) by (apply Z.pow_pos_nonneg; lia).
  assert (Hsplit : 2 ^ 149 = 2 ^ (- e) * 2 ^ (e + 149)).
  { rewrite <- Z.pow_add_r by lia. f_equal. lia. }
  rewrite Hsplit. nia.
Qed.

Lemma of_int_SR : F32.of_int SR = S754_finite false 12288000 (-8).
Proof. reflexivity. Qed.

(** [SR / freq] for a frequency in [[32, 256)]. *)
Lemma period_between (m : positive) (e : Z) :
  Zdigits2 (Z.pos m) = 24 -> -18 <= e <= -16 ->
  between 187 1501 (F32.of_int SR / S754_finite false m e)%f32.
Proof.
  intros Hd He. rewrite of_int_SR. unfold F32.div. cbn [SFdiv].
  destruct (div_core_spec 12288000 m (-8) e) as (l & Hcore). cbv zeta in Hcore.
  change (Zdigits2 12288000) with 24 in Hcore. rewrite Hd, fexp_val in Hcore.
  replace (Z.min (Z.max (24 + -8 - (24 + e) - 24) (-149)) (-8 - e)) with (-32 - e)
    in Hcore by lia.
  replace (-8 - e - (-32 - e)) with 24 in Hcore by lia.
  rewrite Hcore. cbn [xorb].
  change (12288000 * 2 ^ 24) with 206158430208000 in *.
  set (q := 206158430208000 / Z.pos m) in *.
  destruct (Zdigits2_bounds (Z.pos m) ltac:(lia)) as [Hlo Hhi].
  rewrite Hd in Hlo, Hhi. change (2 ^ (24 - 1)) with 8388608 in Hlo.
  change (2 ^ 24) with 16777216 in Hhi.
  assert (Hq : 12288000 <= q <= 24576000).
  { unfold q. split.
    - apply Z.div_le_lower_bound; lia.
    - apply Z.div_le_upper_bound; lia. }
  assert (Hdq : Zdigits2 q = 24 \/ Zdigits2 q = 25).
  { destruct (Z_lt_le_dec q 16777216) as [H | H].
    - left. apply Zdigits2_unique; [| lia].
      change (2 ^ (24 - 1)) with 8388608. change (2 ^ 24) with 16777216. lia.
    - right. apply Zdigits2_unique; [| lia].
      change (2 ^ (25 - 1)) with 16777216. change (2 ^ 25) with 33554432. lia. }
  pose proof (binary_round_aux_spec false q (-32 - e) l ltac:(lia)) as Hspec.
  cbv zeta in Hspec. rewrite fexp_val in Hspec.
  destruct Hspec as (m2 & Hm2 & _ & Hres).
  destruct Hres as [[Hz _] | (m3 & e3 & He3 & Hval & _ & Hr)].
  { exfalso. destruct Hdq as [Hq24 | Hq25].
    - rewrite Hq24 in Hm2.
      replace (Z.max 0 (Z.max (24 + (-32 - e) - 24) (-149) - (-32 - e))) with 0 in Hm2 by lia.
      change (2 ^ 0) with 1 in Hm2. rewrite Z.div_1_r in Hm2. lia.
    - rewrite Hq25 in Hm2.
      replace (Z.max 0 (Z.max (25 + (-32 - e) - 24) (-149) - (-32 - e))) with 1 in Hm2 by lia.
      change (2 ^ 1) with 2 in Hm2.
      assert (6144000 <= q / 2) by (apply Z.div_le_lower_bound; lia). lia. }
  rewrite Hr, emax_prec_val.
  assert (Hcase : e = -18 \/ e = -17 \/ e = -16) by lia.
  destruct Hdq as [Hq24 | Hq25].
  - rewrite Hq24 in Hm2, He3, Hval.
    replace (Z.max 0 (Z.max (24 + (-32 - e) - 24) (-149) - (-32 - e))) with 0
      in Hm2, He3, Hval by lia.
    change (2 ^ 0) with 1 in Hm2. rewrite Z.div_1_r in Hm2.
    assert (He3' : e3 = -32 - e \/ e3 = -32 - e + 1) by lia.
    destruct (Z.leb_spec e3 104); [| lia].
    apply between_finite; [lia |].
    destruct He3' as [-> | ->].
    + replace (-32 - e - (-32 - e + 0)) with 0 in Hval by lia.
      change (2 ^ 0) with 1 in Hval.
      destruct Hcase as [-> | [-> | ->]]; cbn; lia.
    + replace (-32 - e + 1 - (-32 - e + 0)) with 1 in Hval by lia.
      change (2 ^ 1) with 2 in Hval.
      destruct Hcase as [-> | [-> | ->]]; cbn; lia.
  - rewrite Hq25 in Hm2, He3, Hval.
    replace (Z.max 0 (Z.max (25 + (-32 - e) - 24) (-149) - (-32 - e))) with 1
      in Hm2, He3, Hval by lia.
    change (2 ^ 1) with 2 in Hm2.
    assert (Hh : 6144000 <= q / 2 <= 12288000).
    { split; [apply Z.div_le_lower_bound; lia | apply Z.div_le_upper_bound; lia]. }
    assert (He3' : e3 = -32 - e + 1 \/ e3 = -32 - e + 2) by lia.
    destruct (Z.leb_spec e3 104); [| lia].
    apply between_finite; [lia |].
    destruct He3' as [-> | ->].
    + replace (-32 - e + 1 - (-32 - e + 1)) with 0 in Hval by lia.
      change (2 ^ 0) with 1 in Hval.
      destruct Hcase as [-> | [-> | ->]]; cbn; lia.
    + replace (-32 - e + 2 - (-32 - e + 1)) with 1 in Hval by lia.
      change (2 ^ 1) with 2 in Hval.
      destruct Hcase as [-> | [-> | ->]]; cbn; lia.
Qed.

Lemma half_between : valid32 F32.half = true /\ between 0 1 F32.half.
Proof.
  split; [reflexivity |]. apply between_finite; [lia |]. cbn. lia.
Qed.

(** A frequency in [[32, 256)] has a wavelength of 187 to 1502 samples. *)
Lemma wave_length_band (m : positive) (e : Z) :
  Zdigits2 (Z.pos m) = 24 -> -18 <= e <= -16 ->
  187 <= wave_length (S754_finite false m e) <= 1502.
Proof.
  intros Hd He. unfold wave_length.
  pose proof (period_between m e Hd He) as Hb.
  pose proof (div_valid (F32.of_int SR) (S754_finite false m e)) as Hv.
  destruct half_between as [Hvh Hbh].
  destruct (add_between _ _ 187 1501 0 1 Hv Hvh Hb Hbh) as [Hvs Hbs]; try lia.
  apply (to_int_between _ (187 + 0) (1501 + 1) Hvs Hbs); lia.
Qed.

(** ** The fold of a spectral peak *)

Lemma fold_eighty_finite (E : Externals) (m : positive) (e : Z) :
  libm_ok E ->
  valid32 (S754_finite false m e) = true ->
  Zdigits2 (Z.pos m) = 24 -> -20 <= e <= 104 ->
  exists k,
    get_harmonic_less_than E (S754_finite false m e) F32.eighty
    = S754_finite false m (e + k)
    /\ -18 <= e + k <= -16.
Proof.
  intros Hok Hv Hd He.
  assert (Hil : ilogb (S754_finite false m e) = 23 + e).
  { cbn [ilogb]. change (Z.pos (digits2_pos m)) with (Zdigits2 (Z.pos m)). lia. }
  destruct (fold_scales E m 10485760 e (-17) Hok Hv) as (k & _ & Hk & Hfold).
  - rewrite isnormal_finite, Hd. reflexivity.
  - reflexivity.
  - change (ilogb (S754_finite false 10485760 (-17))) with 6. lia.
  - change (ilogb (S754_finite false 10485760 (-17))) with 6. rewrite Hil. lia.
  - exists k. split; [exact Hfold |].
    rewrite Hil in Hk. change (ilogb (S754_finite false 10485760 (-17))) with 6 in Hk. lia.
Qed.

Lemma fold_of_peak (E : Externals) (bins : list complex32) :
  libm_ok E ->
  get_harmonic_less_than E (max_frequency E bins) F32.eighty = F32.sixty
  \/ exists m e,
       get_harmonic_less_than E (max_frequency E bins) F32.eighty
       = S754_finite false m e
       /\ Zdigits2 (Z.pos m) = 24 /\ -18 <= e <= -16.
Proof.
  intros Hok.
  assert (Hv : valid32 (interpolated_peak E bins) = true).
  { unfold interpolated_peak. cbv zeta. apply div_valid. }
  unfold max_frequency, F32.max.
  destruct (F32.lt (interpolated_peak E bins) F32.ten) eqn:Hlt.
  - right. destruct (fold_eighty_finite E 10485760 (-20) Hok) as (k & Hf & Hk);
      [reflexivity | reflexivity | lia |].
    exists 10485760%positive, (-20 + k). split; [exact Hf |]. split; [reflexivity | exact Hk].
  - destruct (interpolated_peak E bins) as [s | s | | s m e] eqn:Hip.
    + discriminate Hlt.
    + left. apply fold_special. exact I.
    + left. apply fold_special. exact I.
    + destruct (not_below_ten s m e Hv Hlt) as (-> & Hd & He).
      right. destruct (fold_eighty_finite E m e Hok Hv Hd He) as (k & Hf & Hk).
      exists m, (e + k). split; [exact Hf |]. split; [exact Hd | exact Hk].
Qed.

Lemma sixty_in_band : in_band F32.sixty.
Proof.
  split; [reflexivity |]. change (wave_length F32.sixty) with 800. lia.
Qed.

Lemma fold_of_peak_in_band (E : Externals) (bins : list complex32) :
  libm_ok E ->
  in_band (get_harmonic_less_than E (max_frequency E bins) F32.eighty).
Proof.
  intros Hok.
  destruct (fold_of_peak E bins Hok) as [-> | (m & e & -> & Hd & He)].
  - exact sixty_in_band.
  - split.
    + rewrite isnormal_finite, Hd. reflexivity.
    + apply wave_length_band; assumption.
Qed.

Lemma in_band_frequency_ok (freq : f32) : in_band freq -> frequency_ok freq.
Proof.
  intros [_ Hw]. unfold frequency_ok. rewrite TBL_val. lia.
Qed.

(** The libm that the fold needs makes the harmonic lock usable. *)
Lemma libm_ok_lock_ok (E : Externals) : libm_ok E -> lock_ok E.
Proof.
  intros Hok bins. apply in_band_frequency_ok, fold_of_peak_in_band, Hok.
Qed.

(** ** The reference libm *)

Lemma log2_bits_range (n : nat) :
  forall y acc k, 0 <= k -> 0 <= acc < 2 ^ k ->
    0 <= log2_bits n y acc < 2 ^ (k + Z.of_nat n).
Proof.
  induction n as [| n IH]; intros y acc k Hk Hacc.
  - cbn [log2_bits]. rewrite Z.add_0_r. exact Hacc.
  - cbn [log2_bits]. cbv zeta.
    replace (k + Z.of_nat (S n)) with ((k + 1) + Z.of_nat n) by lia.
    assert (Hp : 2 ^ (k + 1) = 2 * 2 ^ k).
    { rewrite Z.pow_add_r by lia. change (2 ^ 1) with 2. lia. }
    destruct (2 ^ 65 <=? y * y / 2 ^ 64); apply IH; lia.
Qed.

Lemma reference_externals_ok : libm_ok reference_externals.
Proof.
  unfold libm_ok. cbn [reference_externals log2f floorf powf].
  split; [| split; [| split; [| split]]].
  - intros m e Hv.
    pose proof (ilogb_bound false m e Hv) as Hil.
    cbn [log2_32]. cbv zeta.
    cbn [ilogb] in *.
    set (il := Z.pos (digits2_pos m) + e - 1) in *.
    pose proof (log2_bits_range 48 (Z.pos m * 2 ^ (65 - Z.pos (digits2_pos m))) 0 0
                  ltac:(lia) ltac:(cbn; lia)) as Hbits.
    cbn [Z.of_nat Z.add] in Hbits.
    change (Z.pos (Pos.of_succ_nat 47)) with 48 in Hbits.
    apply binary_normalize_between; [lia | lia | lia |].
    change (2 ^ (- -48)) with (2 ^ 48). lia.
  - reflexivity.
  - reflexivity.
  - intros x k _ Hx Hk. unfold pow_32, F32.two. cbn [Pos.eqb Z.eqb andb].
    unfold exp2_32. rewrite Hx.
    destruct (Z.ltb_spec k (-126)); [lia |].
    destruct (Z.leb_spec k 127); [reflexivity | lia].
  - reflexivity.
Qed.

(** * The harmonic fold and the lock *)

(** ** The fold *)




(** ** The harmonic lock in a run *)

Lemma well_formed_of_parts (E : Externals) (s : AudioProcess) :
  0 <= writer s < TBL -> 0 <= reader_l s < TBL -> 0 <= reader_r s < TBL ->
  frequency_ok (freq_l s) -> frequency_ok (freq_r s) ->
  (fft_sync s = true -> libm_ok E) ->
  well_formed E s.
Proof.
  intros Hw Hl Hr Hfl Hfr Hlibm. unfold well_formed.
  repeat (split; [assumption |]).
  intros Hs. apply libm_ok_lock_ok, Hlibm, Hs.
Qed.




(** X12.  From a state whose cursors are positions of the buffer and whose
    locked frequencies have a wavelength inside the buffer, every run of
    [step] returns, whatever the audio and the clock readings are, and leaves
    such a state again; with the harmonic lock on this holds for a libm that
    meets [libm_ok].  The writer has moved by one chunk per call, modulo the
    buffer length, and the frame counter by at most one per call. *)
Theorem run_keeps_well_formed (E : Externals) (fuel : nat)
    (inputs : list (list f32 * list f32 * Z)) (s : AudioProcess) :
  0 <= writer s < TBL -> 0 <= reader_l s < TBL -> 0 <= reader_r s < TBL ->
  frequency_ok (freq_l s) -> frequency_ok (freq_r s) ->
  (fft_sync s = true -> libm_ok E) ->
  (Z.to_nat (2 * TBL) <= fuel)%nat ->
  INT_MIN <= frame_id s ->
  frame_id s + Z.of_nat (length inputs) <= INT_MAX ->
  exists s',
    steps E fuel inputs s = Returned s'
    /\ 0 <= writer s' < TBL /\ 0 <= reader_l s' < TBL /\ 0 <= reader_r s' < TBL
    /\ frequency_ok (freq_l s') /\ frequency_ok (freq_r s')
    /\ writer s' = (writer s + ABL * Z.of_nat (length inputs)) mod TBL
    /\ frame_id s <= frame_id s' <= frame_id s + Z.of_nat (length inputs).
Proof.
  intros Hw Hl Hr Hfl Hfr Hlibm Hfuel Hlo Hhi.
  pose proof (well_formed_of_parts E s Hw Hl Hr Hfl Hfr Hlibm) as Hwf.
  destruct (run_on_well_formed E fuel Hfuel inputs s Hwf Hlo Hhi)
    as (s' & Hrun & Hwf' & Hwr & Hfid & _).
  destruct Hwf' as (Hw' & Hl' & Hr' & Hfl' & Hfr' & _).
  exists s'. auto 10.
Qed.

Lemma run_keeps_well_formed_witness :
  exists s',
    steps reference_externals (Z.to_nat (2 * TBL)) (silent_inputs 20)
      (initial_state reference_externals options_lock) = Returned s'
    /\ 0 <= writer s' < TBL /\ 0 <= reader_l s' < TBL /\ 0 <= reader_r s' < TBL
    /\ frequency_ok (freq_l s') /\ frequency_ok (freq_r s')
    /\ writer s'
       = (writer (initial_state reference_externals options_lock)
          + ABL * Z.of_nat (length (silent_inputs 20))) mod TBL
    /\ frame_id (initial_state reference_externals options_lock) <= frame_id s'
       <= frame_id (initial_state reference_externals options_lock)
          + Z.of_nat (length (silent_inputs 20)).
Proof.
  apply (run_keeps_well_formed reference_externals (Z.to_nat (2 * TBL))
           (silent_inputs 20) (initial_state reference_externals options_lock)).
  - cbn [initial_state writer]. rewrite TBL_val. lia.
  - cbn [initial_state reader_l]. rewrite TBL_val. lia.
  - cbn [initial_state reader_r]. rewrite TBL_val. lia.
  - exact frequency_ok_sixty.
  - exact frequency_ok_sixty.
  - intros _. exact reference_externals_ok.
  - apply Nat.le_refl.
  - cbn [initial_state frame_id]. rewrite INT_MIN_val. lia.
  - cbn [initial_state frame_id]. rewrite INT_MAX_val.
    change (Z.of_nat (length (silent_inputs 20))) with 20. lia.
Defined.
